(** * A heap model of the multi-user file system simulator (file_system.py)

    The Python program builds its namespace out of mutable objects that refer
    to one another: a [Directory] holds references to its children in a dict,
    and every [Directory] holds a reference back to its parent.  The model
    keeps that shape.  Objects live in a heap indexed by addresses, a
    reference is an address, and every method is a computation that threads
    the session through and may stop with an uncaught exception. *)

From Stdlib Require Import Ascii String Sorted.
From Stdlib Require OrderedTypeEx DecimalString.
From stdpp Require Import gmap strings list fin_maps relations sorting.

Local Open Scope string_scope.

(** ** Python string primitives used by the program *)

Module PyStr.

(** [c in chars] for a one-character string [c]. *)
Fixpoint mem (a : ascii) (chars : string) : bool :=
  match chars with
  | EmptyString => false
  | String b rest => if decide (a = b) then true else mem a rest
  end.

(** [s.lstrip(chars)] *)
Fixpoint lstrip (chars s : string) : string :=
  match s with
  | EmptyString => EmptyString
  | String a rest => if mem a chars then lstrip chars rest else s
  end.

(** [s.rstrip(chars)] *)
Fixpoint rstrip (chars s : string) : string :=
  match s with
  | EmptyString => EmptyString
  | String a rest =>
      match rstrip chars rest with
      | EmptyString => if mem a chars then EmptyString else String a EmptyString
      | r => String a r
      end
  end.

(** [s.strip(chars)]: both ends. *)
Definition strip (chars s : string) : string := rstrip chars (lstrip chars s).

(** [s.split(sep)] for a separator of one character.  The result is never
    empty: splitting the empty string gives one empty segment. *)
Fixpoint split (sep : ascii) (s : string) : list string :=
  match s with
  | EmptyString => [EmptyString]
  | String a rest =>
      if decide (a = sep) then EmptyString :: split sep rest
      else match split sep rest with
           | seg :: segs => String a seg :: segs
           | [] => [String a EmptyString]
           end
  end.

(** [s.startswith(p)] *)
Fixpoint startswith (p s : string) : bool :=
  match p, s with
  | EmptyString, _ => true
  | String a p', String b s' => if decide (a = b) then startswith p' s' else false
  | String _ _, EmptyString => false
  end.

(** [sep.join(segs)] — not called by the program; it states what [split]
    computes. *)
Fixpoint join (sep : ascii) (segs : list string) : string :=
  match segs with
  | [] => EmptyString
  | [seg] => seg
  | seg :: rest => seg +:+ String sep (join sep rest)
  end.

End PyStr.

Abbreviation slash := "/"%char.

(** ** Objects, heap and session *)

Abbreviation addr := nat (only parsing).
Abbreviation timestamp := nat (only parsing).

(** The readings [datetime.now()] returns during one call, in order. *)
Abbreviation clock := (nat → nat) (only parsing).

(** class File *)
Record File := mkFile {
  file_name : string;
  file_content : string;
  file_owner : string;
  file_created_at : timestamp;
  file_modified_at : timestamp;
  file_size : nat
}.

(** class Directory.  [dir_parent] and the values of [dir_children] are
    references. *)
Record Directory := mkDirectory {
  dir_name : string;
  dir_owner : string;
  dir_parent : option addr;
  dir_children : gmap string addr;
  dir_created_at : timestamp
}.

Inductive object :=
  | OFile (f : File)
  | ODirectory (d : Directory).

(** class FileSystem, together with the objects it can refer to. *)
Record FileSystem := mkFileSystem {
  heap : gmap addr object;
  root : addr;
  current_directory : addr
}.

Definition obj_name (o : object) : string :=
  match o with
  | OFile f => file_name f
  | ODirectory d => dir_name d
  end.

Definition set_heap (h : gmap addr object) (s : FileSystem) : FileSystem :=
  {| heap := h; root := root s; current_directory := current_directory s |}.

Definition set_current_directory (a : addr) (s : FileSystem) : FileSystem :=
  {| heap := heap s; root := root s; current_directory := a |}.

Definition with_children (ch : gmap string addr) (d : Directory) : Directory :=
  {| dir_name := dir_name d; dir_owner := dir_owner d; dir_parent := dir_parent d;
     dir_children := ch; dir_created_at := dir_created_at d |}.

Definition with_parent (p : option addr) (d : Directory) : Directory :=
  {| dir_name := dir_name d; dir_owner := dir_owner d; dir_parent := p;
     dir_children := dir_children d; dir_created_at := dir_created_at d |}.

(** ** Computations over a session

    [None] is an uncaught Python exception (an attribute missing on the
    object found at an address, recursion that does not end). *)

Definition M (A : Type) : Type := FileSystem → option (A * FileSystem).

Definition ret {A} (x : A) : M A := λ s, Some (x, s).

Definition bind {A B} (m : M A) (k : A → M B) : M B :=
  λ s, match m s with
       | Some (x, s') => k x s'
       | None => None
       end.

Definition raise {A} : M A := λ _, None.

Notation "'do' x <- m ; k" := (bind m (λ x, k))
  (at level 10, x name, m at level 100, k at level 200).
Notation "'call' m ; k" := (bind m (λ _, k))
  (at level 10, m at level 100, k at level 200).

Definition load (a : addr) : M object :=
  λ s, match heap s !! a with
       | Some o => Some (o, s)
       | None => None
       end.

Definition store (a : addr) (o : object) : M unit :=
  λ s, Some (tt, set_heap (<[a:=o]> (heap s)) s).

(** A constructor call: the new object gets an address no object has. *)
Definition alloc (o : object) : M addr :=
  λ s, let a := fresh (dom (heap s)) in Some (a, set_heap (<[a:=o]> (heap s)) s).

Definition get_root : M addr := λ s, Some (root s, s).
Definition get_current_directory : M addr := λ s, Some (current_directory s, s).
Definition put_current_directory (a : addr) : M unit :=
  λ s, Some (tt, set_current_directory a s).

(** Attribute access that only one of the classes supports. *)
Definition as_file (a : addr) : M File :=
  do o <- load a;
  match o with
  | OFile f => ret f
  | ODirectory _ => raise
  end.

Definition as_directory (a : addr) : M Directory :=
  do o <- load a;
  match o with
  | ODirectory d => ret d
  | OFile _ => raise
  end.

(** [isinstance(x, File)] and [isinstance(x, Directory)] *)
Definition isinstance_File (a : addr) : M bool :=
  do o <- load a;
  ret (match o with OFile _ => true | ODirectory _ => false end).

Definition isinstance_Directory (a : addr) : M bool :=
  do o <- load a;
  ret (match o with ODirectory _ => true | OFile _ => false end).

(** ** class File *)

(** [File.__init__]: the clock is read twice. *)
Definition File_init (name content owner : string) (t_created t_modified : timestamp)
    : M addr :=
  alloc (OFile {| file_name := name; file_content := content; file_owner := owner;
                  file_created_at := t_created; file_modified_at := t_modified;
                  file_size := String.length content |}).

Definition File_read (self : addr) : M string :=
  do f <- as_file self;
  ret (file_content f).

Definition File_write (self : addr) (content : string) (t : timestamp) : M unit :=
  do f <- as_file self;
  store self (OFile {| file_name := file_name f; file_content := content;
                       file_owner := file_owner f;
                       file_created_at := file_created_at f;
                       file_modified_at := t;
                       file_size := String.length content |}).

Definition File_append (self : addr) (content : string) (t : timestamp) : M unit :=
  do f <- as_file self;
  let content' := file_content f +:+ content in
  store self (OFile {| file_name := file_name f; file_content := content';
                       file_owner := file_owner f;
                       file_created_at := file_created_at f;
                       file_modified_at := t;
                       file_size := String.length content' |}).

(** ** class Directory *)

Definition Directory_init (name owner : string) (parent : option addr) (t : timestamp)
    : M addr :=
  alloc (ODirectory {| dir_name := name; dir_owner := owner; dir_parent := parent;
                       dir_children := ∅; dir_created_at := t |}).

(** [add_file]: the key is the [name] attribute of the object passed in. *)
Definition add_file (self file : addr) : M bool :=
  do d <- as_directory self;
  do o <- load file;
  match dir_children d !! obj_name o with
  | Some _ => ret false
  | None =>
      call store self (ODirectory (with_children (<[obj_name o := file]> (dir_children d)) d));
      ret true
  end.

(** [add_directory]: first the dict of [self] is updated, then the [parent]
    attribute of [directory] is assigned; the two objects may be the same one,
    so the second statement reads the heap again.  Assigning [parent] on a
    [File] would give it an attribute the program never reads. *)
Definition add_directory (self directory : addr) : M bool :=
  do d <- as_directory self;
  do o <- load directory;
  match dir_children d !! obj_name o with
  | Some _ => ret false
  | None =>
      call store self (ODirectory (with_children (<[obj_name o := directory]> (dir_children d)) d));
      do o' <- load directory;
      call match o' with
           | ODirectory x => store directory (ODirectory (with_parent (Some self) x))
           | OFile _ => ret tt
           end;
      ret true
  end.

Definition remove (self : addr) (name : string) : M bool :=
  do d <- as_directory self;
  match dir_children d !! name with
  | Some _ =>
      call store self (ODirectory (with_children (delete name (dir_children d)) d));
      ret true
  | None => ret false
  end.

Definition get (self : addr) (name : string) : M (option addr) :=
  do d <- as_directory self;
  ret (dir_children d !! name).

(** [get_path] calls itself on the parent; [get_path_rec frames] is that
    method with [frames] frames left to it, raising when they run out as
    Python's RecursionError does.  [get_path] gives it more frames than the
    heap has objects, which a chain of distinct parents never needs, so that
    only a chain that runs in a circle ends in the exception.  The
    interpreter's own frame limit is not modelled: where a chain of parents
    is longer than the frames that limit leaves (about a thousand), the
    source raises and [get_path] returns the path. *)
Fixpoint get_path_rec (frames : nat) (self : addr) : M string :=
  match frames with
  | O => raise
  | S frames' =>
      do d <- as_directory self;
      match dir_parent d with
      | None => ret "/"
      | Some p =>
          do parent_path <- get_path_rec frames' p;
          if decide (parent_path = "/") then ret ("/" +:+ dir_name d)
          else ret (parent_path +:+ "/" +:+ dir_name d)
      end
  end.

Definition get_path (self : addr) : M string :=
  λ s, get_path_rec (S (size (heap s))) self s.

(** ** class FileSystem *)

Abbreviation result := (bool * string)%type (only parsing).

Definition FileSystem_init (owner : string) (t : timestamp) : FileSystem :=
  let a := fresh (dom (∅ : gmap addr object)) in
  {| heap := {[ a := ODirectory {| dir_name := "/"; dir_owner := owner;
                                    dir_parent := None; dir_children := ∅;
                                    dir_created_at := t |} ]};
     root := a; current_directory := a |}.

Definition get_current_path : M string :=
  do cwd <- get_current_directory;
  get_path cwd.

Definition create_file (now : clock) (name owner content : string) : M result :=
  do cwd <- get_current_directory;
  do d <- as_directory cwd;
  match dir_children d !! name with
  | Some _ => ret (false, "File or directory '" +:+ name +:+ "' already exists")
  | None =>
      do file <- File_init name content owner (now 0) (now 1);
      do added <- add_file cwd file;
      if added then ret (true, "File '" +:+ name +:+ "' created successfully")
      else ret (false, "Failed to create file")
  end.

Definition create_directory (now : clock) (name owner : string) : M result :=
  do cwd <- get_current_directory;
  do d <- as_directory cwd;
  match dir_children d !! name with
  | Some _ => ret (false, "File or directory '" +:+ name +:+ "' already exists")
  | None =>
      if bool_decide (name ∈ ["."; ".."]) then ret (false, "Invalid directory name")
      else
        do directory <- Directory_init name owner (Some cwd) (now 0);
        do added <- add_directory cwd directory;
        if added then ret (true, "Directory '" +:+ name +:+ "' created successfully")
        else ret (false, "Failed to create directory")
  end.

(** The loop of [_navigate_absolute_path]; [None] inside the computation is
    Python's [None]. *)
Fixpoint navigate_parts (parts : list string) (current : addr) : M (option addr) :=
  match parts with
  | [] => ret (Some current)
  | part :: parts' =>
      do is_dir <- isinstance_Directory current;
      if negb is_dir then ret None
      else
        do item <- get current part;
        match item with
        | None => ret None
        | Some i => navigate_parts parts' i
        end
  end.

Definition _navigate_absolute_path (path : string) : M (option addr) :=
  if decide (path = "/") then
    do r <- get_root; ret (Some r)
  else
    let parts := PyStr.split slash (PyStr.strip "/" path) in
    do r <- get_root;
    navigate_parts parts r.

(** The answer [True, f"Changed to {self.get_current_path()}"], which three
    branches of [change_directory] give after moving the cursor. *)
Definition changed_to : M result :=
  do p <- get_current_path;
  ret (true, "Changed to " +:+ p).

Definition change_directory (path : string) : M result :=
  if decide (path = "/") then
    do r <- get_root;
    call put_current_directory r;
    ret (true, "Changed to root directory")
  else if decide (path = "..") then
    do cwd <- get_current_directory;
    do d <- as_directory cwd;
    match dir_parent d with
    | Some p =>
        call put_current_directory p;
        changed_to
    | None => ret (false, "Already at root directory")
    end
  else if decide (path = ".") then
    do p <- get_current_path;
    ret (true, "Current directory: " +:+ p)
  else if PyStr.startswith "/" path then
    do target <- _navigate_absolute_path path;
    do ok <- match target with
             | Some t => isinstance_Directory t
             | None => ret false
             end;
    match target, ok with
    | Some t, true =>
        call put_current_directory t;
        changed_to
    | _, _ => ret (false, "Directory '" +:+ path +:+ "' not found")
    end
  else
    do cwd <- get_current_directory;
    do item <- get cwd path;
    do ok <- match item with
             | Some i => isinstance_Directory i
             | None => ret false
             end;
    match item, ok with
    | Some i, true =>
        call put_current_directory i;
        changed_to
    | _, _ => ret (false, "Directory '" +:+ path +:+ "' not found")
    end.

Definition read_file (name : string) : M result :=
  do cwd <- get_current_directory;
  do item <- get cwd name;
  match item with
  | None => ret (false, "File '" +:+ name +:+ "' not found")
  | Some i =>
      do is_file <- isinstance_File i;
      if negb is_file then ret (false, "'" +:+ name +:+ "' is a directory, not a file")
      else
        do content <- File_read i;
        ret (true, content)
  end.

Definition write_file (now : clock) (name content owner : string) : M result :=
  do cwd <- get_current_directory;
  do item <- get cwd name;
  match item with
  | None => create_file now name owner content
  | Some i =>
      do is_file <- isinstance_File i;
      if negb is_file then ret (false, "'" +:+ name +:+ "' is a directory, not a file")
      else
        call File_write i content (now 0);
        ret (true, "File '" +:+ name +:+ "' updated successfully")
  end.

Definition append_file (now : clock) (name content : string) : M result :=
  do cwd <- get_current_directory;
  do item <- get cwd name;
  match item with
  | None => ret (false, "File '" +:+ name +:+ "' not found")
  | Some i =>
      do is_file <- isinstance_File i;
      if negb is_file then ret (false, "'" +:+ name +:+ "' is a directory, not a file")
      else
        call File_append i content (now 0);
        ret (true, "Content appended to '" +:+ name +:+ "'")
  end.

(** [isinstance(item, Directory) and len(item.children) > 0] *)
Definition nonempty_directory (item : addr) : M bool :=
  do o <- load item;
  match o with
  | ODirectory d => ret (bool_decide (0 < size (dir_children d)))
  | OFile _ => ret false
  end.

Definition delete (name : string) : M result :=
  do cwd <- get_current_directory;
  do item <- get cwd name;
  match item with
  | None => ret (false, "'" +:+ name +:+ "' not found")
  | Some i =>
      do nonempty <- nonempty_directory i;
      if nonempty then ret (false, "Directory '" +:+ name +:+ "' is not empty")
      else
        do removed <- remove cwd name;
        if removed then ret (true, "'" +:+ name +:+ "' deleted successfully")
        else ret (false, "Failed to delete '" +:+ name +:+ "'")
  end.

Definition move (source destination : string) : M result :=
  do cwd <- get_current_directory;
  do source_item <- get cwd source;
  match source_item with
  | None => ret (false, "Source '" +:+ source +:+ "' not found")
  | Some src =>
      do dest_item <- get cwd destination;
      match dest_item with
      | None => ret (false, "Destination '" +:+ destination +:+ "' not found")
      | Some dst =>
          do is_dir <- isinstance_Directory dst;
          if negb is_dir then
            ret (false, "Destination '" +:+ destination +:+ "' is not a directory")
          else
            do dd <- as_directory dst;
            match dir_children dd !! source with
            | Some _ =>
                ret (false, "'" +:+ source +:+ "' already exists in '" +:+ destination +:+ "'")
            | None =>
                call remove cwd source;
                do is_file <- isinstance_File src;
                call (if is_file then add_file dst src else add_directory dst src);
                ret (true, "Moved '" +:+ source +:+ "' to '" +:+ destination +:+ "'")
            end
      end
  end.

Definition copy_file (now : clock) (source destination owner : string) : M result :=
  do cwd <- get_current_directory;
  do source_item <- get cwd source;
  match source_item with
  | None => ret (false, "Source file '" +:+ source +:+ "' not found")
  | Some src =>
      do is_file <- isinstance_File src;
      if negb is_file then ret (false, "'" +:+ source +:+ "' is not a file")
      else
        do f <- as_file src;
        do new_file <- File_init destination (file_content f) owner (now 0) (now 1);
        do added <- add_file cwd new_file;
        if added then
          ret (true, "File copied from '" +:+ source +:+ "' to '" +:+ destination +:+ "'")
        else ret (false, "File '" +:+ destination +:+ "' already exists")
  end.

(** ** The namespace operations as commands, and the sessions they reach *)

Inductive command :=
  | CreateFile (name owner content : string)
  | CreateDirectory (name owner : string)
  | ChangeDirectory (path : string)
  | WriteFile (name content owner : string)
  | AppendFile (name content : string)
  | Delete (name : string)
  | Move (source destination : string)
  | CopyFile (source destination owner : string).

Definition exec (now : clock) (c : command) : M result :=
  match c with
  | CreateFile name owner content => create_file now name owner content
  | CreateDirectory name owner => create_directory now name owner
  | ChangeDirectory path => change_directory path
  | WriteFile name content owner => write_file now name content owner
  | AppendFile name content => append_file now name content
  | Delete name => delete name
  | Move source destination => move source destination
  | CopyFile source destination owner => copy_file now source destination owner
  end.

(** A session is reachable when a run of commands leads to it from a fresh
    [FileSystem]; each command reads its own clock. *)
Inductive reachable : FileSystem → Prop :=
  | reachable_init owner t : reachable (FileSystem_init owner t)
  | reachable_step s now c r s' :
      reachable s → exec now c s = Some (r, s') → reachable s'.

(** Running a list of commands, keeping the answers. *)
Fixpoint exec_all (now : clock) (cs : list command) (s : FileSystem)
    : option (list result * FileSystem) :=
  match cs with
  | [] => Some ([], s)
  | c :: cs' =>
      match exec now c s with
      | Some (r, s') =>
          match exec_all now cs' s' with
          | Some (rs, s'') => Some (r :: rs, s'')
          | None => None
          end
      | None => None
      end
  end.

(** What [isinstance] answers for an object. *)
Definition is_file_obj (o : object) : bool :=
  match o with OFile _ => true | ODirectory _ => false end.

Definition is_directory_obj (o : object) : bool :=
  match o with ODirectory _ => true | OFile _ => false end.

(** ** The shape of a session

    [holds h a n b]: the directory at [a] has the object at [b] as its child
    under the key [n]. *)
Definition holds (h : gmap addr object) (a : addr) (n : string) (b : addr) : Prop :=
  ∃ d, h !! a = Some (ODirectory d) ∧ dir_children d !! n = Some b.

Definition edge (h : gmap addr object) (a b : addr) : Prop := ∃ n, holds h a n b.

(** Reachable from the root through the children dicts. *)
Definition live (s : FileSystem) (a : addr) : Prop := rtc (edge (heap s)) (root s) a.

Definition is_directory_at (h : gmap addr object) (a : addr) : Prop :=
  ∃ d, h !! a = Some (ODirectory d).

(** A directory object whose [parent] is [a]; a file has no such attribute. *)
Definition points_back (o : object) (a : addr) : Prop :=
  ∀ d, o = ODirectory d → dir_parent d = Some a.

Definition is_root_at (h : gmap addr object) (r : addr) : Prop :=
  ∃ d, h !! r = Some (ODirectory d) ∧ dir_parent d = None.

(** What every reachable heap satisfies, garbage included: a child exists,
    carries its key as its name and, when it is a directory, points back to
    the holder; no object has two holders; a parent reference leads to a
    directory. *)
Record wf_heap (h : gmap addr object) : Prop := {
  wf_child : ∀ a n b, holds h a n b →
    ∃ o, h !! b = Some o ∧ obj_name o = n ∧ points_back o a;
  wf_owner : ∀ a n a' n' b, holds h a n b → holds h a' n' b → a = a';
  wf_parent : ∀ a d p, h !! a = Some (ODirectory d) → dir_parent d = Some p →
    is_directory_at h p
}.

Record wf (s : FileSystem) : Prop := {
  wf_wf_heap : wf_heap (heap s);
  wf_root : is_root_at (heap s) (root s);
  wf_cwd : is_directory_at (heap s) (current_directory s);
  wf_cwd_live : live s (current_directory s)
}.

(** The attributes an object of either class answers for. *)
Definition obj_children (o : object) : gmap string addr :=
  match o with
  | OFile _ => ∅
  | ODirectory d => dir_children d
  end.

Definition obj_parent (o : object) : option addr :=
  match o with
  | OFile _ => None
  | ODirectory d => dir_parent d
  end.

(** The three updates of the heap that the operations are made of. *)
Definition add_child (n : string) (b : addr) (o : object) : object :=
  match o with
  | ODirectory d => ODirectory (with_children (<[n := b]> (dir_children d)) d)
  | OFile _ => o
  end.

Definition del_child (n : string) (o : object) : object :=
  match o with
  | ODirectory d => ODirectory (with_children (base.delete n (dir_children d)) d)
  | OFile _ => o
  end.

Definition set_parent (p : addr) (o : object) : object :=
  match o with
  | ODirectory d => ODirectory (with_parent (Some p) d)
  | OFile _ => o
  end.

Definition h_link (a : addr) (n : string) (b : addr) (h : gmap addr object)
    : gmap addr object := alter (add_child n b) a h.

Definition h_unlink (a : addr) (n : string) (h : gmap addr object)
    : gmap addr object := alter (del_child n) a h.

Definition h_set_parent (b p : addr) (h : gmap addr object) : gmap addr object :=
  alter (set_parent p) b h.

(** An object as a constructor leaves it: no children yet. *)
Definition childless (o : object) : Prop :=
  match o with
  | OFile _ => True
  | ODirectory d => dir_children d = ∅
  end.

(** What one operation can do to a well-formed session.  The flag is the
    first component of the answer: the two rules that allow [false] change
    nothing that the session refers to. *)
Inductive transition (s : FileSystem) : bool → FileSystem → Prop :=
  | t_none ok : transition s ok s
  | t_temporary a f :
      heap s !! a = None →
      transition s false (set_heap (<[a := OFile f]> (heap s)) s)
  | t_chdir a :
      is_directory_at (heap s) a → live s a →
      transition s true (set_current_directory a s)
  | t_create a o n d :
      heap s !! a = None → childless o → obj_name o = n →
      (∀ x, o = ODirectory x → dir_parent x = Some (current_directory s)) →
      heap s !! current_directory s = Some (ODirectory d) →
      dir_children d !! n = None →
      transition s true
        (set_heap (h_link (current_directory s) n a (<[a := o]> (heap s))) s)
  | t_update a f f' :
      heap s !! a = Some (OFile f) → file_name f' = file_name f →
      transition s true (set_heap (<[a := OFile f']> (heap s)) s)
  | t_delete n b :
      holds (heap s) (current_directory s) n b →
      transition s true (set_heap (h_unlink (current_directory s) n (heap s)) s)
  | t_move n x m y :
      holds (heap s) (current_directory s) n x →
      holds (heap s) (current_directory s) m y →
      is_directory_at (heap s) y →
      (∀ z, ¬ holds (heap s) y n z) →
      transition s true
        (set_heap (h_link y n x
                     (h_set_parent x y
                        (h_unlink (current_directory s) n (heap s)))) s).

(** ** Vocabulary of the claims *)

(** A clock for the examples: the k-th reading is k. *)
Definition tick : clock := λ k, k.

(** The answer of [change_directory] when the path names nothing. *)
Definition cd_not_found (path : string) : bool * string :=
  (false, "Directory '" +:+ path +:+ "' not found").

(** The sessions of the examples. *)
Definition session_alice : FileSystem := FileSystem_init "alice" 0.

Definition after (cs : list command) : FileSystem :=
  match exec_all tick cs session_alice with
  | Some (_, s) => s
  | None => session_alice
  end.

(** ** Path resolution as the spec words it

    Walking from an entry through children lookups, one segment at a time:
    a segment that is not there, or that is looked up in an entry that is not
    a directory, ends the walk with nothing found. *)
Fixpoint spec_walk (h : gmap addr object) (segments : list string) (current : addr)
    : option addr :=
  match segments with
  | [] => Some current
  | segment :: rest =>
      match h !! current with
      | Some (ODirectory d) =>
          match dir_children d !! segment with
          | Some child => spec_walk h rest child
          | None => None
          end
      | _ => None
      end
  end.

(** The same walk as a relation. *)
Inductive walks (h : gmap addr object) : addr → list string → addr → Prop :=
  | walks_nil a : walks h a [] a
  | walks_cons a segment b rest t :
      holds h a segment b → walks h b rest t → walks h a (segment :: rest) t.

(** The resolution of the spec: strip the leading slashes, split the
    remainder on the slash, walk from the root. *)
Definition spec_resolve (h : gmap addr object) (r : addr) (path : string) : option addr :=
  spec_walk h (PyStr.split slash (PyStr.lstrip "/" path)) r.

(** The segments the code walks: slashes are stripped at both ends. *)
Definition path_segments (path : string) : list string :=
  PyStr.split slash (PyStr.strip "/" path).


(** ** class User and class NetworkFileSystem

    [User] objects are shared between the dict [users] and the attribute
    [current_user], so they live in a heap of their own and both refer to
    them by address. *)
Record User := mkUser {
  username : string;
  lastname : string;
  file_system : FileSystem;
  logged_in : bool
}.

Record NetworkFileSystem := mkNetworkFileSystem {
  user_heap : gmap addr User;
  users : gmap string addr;
  current_user : option addr
}.

(** [User.__init__]: the clock is read when the root directory is made. *)
Definition User_init (name last : string) (t : timestamp) : User :=
  {| username := name; lastname := last;
     file_system := FileSystem_init name t; logged_in := true |}.

Definition NetworkFileSystem_init : NetworkFileSystem :=
  {| user_heap := ∅; users := ∅; current_user := None |}.

Definition with_logged_in (b : bool) (u : User) : User :=
  {| username := username u; lastname := lastname u;
     file_system := file_system u; logged_in := b |}.

Definition create_user (now : clock) (name last : string) (nfs : NetworkFileSystem)
    : option ((bool * string) * NetworkFileSystem) :=
  match users nfs !! name with
  | Some _ => Some ((false, "User '" +:+ name +:+ "' already exists"), nfs)
  | None =>
      let a := fresh (dom (user_heap nfs)) in
      Some ((true, "User '" +:+ name +:+ "' created successfully"),
            {| user_heap := <[a := User_init name last (now 0)]> (user_heap nfs);
               users := <[name := a]> (users nfs);
               current_user := current_user nfs |})
  end.

Definition login (name : string) (nfs : NetworkFileSystem)
    : option ((bool * string) * NetworkFileSystem) :=
  match users nfs !! name with
  | None => Some ((false, "User '" +:+ name +:+ "' not found"), nfs)
  | Some a =>
      match user_heap nfs !! a with
      | None => None
      | Some u =>
          Some ((true, "Welcome " +:+ lastname u +:+ "!"),
                {| user_heap := <[a := with_logged_in true u]> (user_heap nfs);
                   users := users nfs;
                   current_user := Some a |})
      end
  end.

Definition logout (nfs : NetworkFileSystem)
    : option ((bool * string) * NetworkFileSystem) :=
  match current_user nfs with
  | Some a =>
      match user_heap nfs !! a with
      | None => None
      | Some u =>
          Some ((true, "User '" +:+ username u +:+ "' logged out"),
                {| user_heap := <[a := with_logged_in false u]> (user_heap nfs);
                   users := users nfs;
                   current_user := None |})
      end
  | None => Some ((false, "No user logged in"), nfs)
  end.

Inductive nfs_command :=
  | CreateUser (name last : string)
  | Login (name : string)
  | Logout.

Definition nfs_exec (now : clock) (c : nfs_command) (nfs : NetworkFileSystem)
    : option ((bool * string) * NetworkFileSystem) :=
  match c with
  | CreateUser name last => create_user now name last nfs
  | Login name => login name nfs
  | Logout => logout nfs
  end.

Inductive nfs_reachable : NetworkFileSystem → Prop :=
  | nfs_reachable_init : nfs_reachable NetworkFileSystem_init
  | nfs_reachable_step nfs now c r nfs' :
      nfs_reachable nfs → nfs_exec now c nfs = Some (r, nfs') → nfs_reachable nfs'.

(** The flag of the user object at an address. *)
Definition flag (nfs : NetworkFileSystem) (a : addr) : option bool :=
  logged_in <$> user_heap nfs !! a.

(** The registry of the examples: alice and bob registered, nobody logged in. *)
Definition nfs_alice_bob : NetworkFileSystem :=
  match create_user tick "alice" "Smith" NetworkFileSystem_init with
  | Some (_, nfs) =>
      match create_user tick "bob" "Jones" nfs with
      | Some (_, nfs') => nfs'
      | None => nfs
      end
  | None => NetworkFileSystem_init
  end.

(** ** What every object of a reachable session satisfies *)

(** A file's size is the length of its content; a directory is never named
    "." or "..". *)
Definition obj_ok (o : object) : Prop :=
  match o with
  | OFile f => file_size f = String.length (file_content f)
  | ODirectory d => dir_name d ≠ "." ∧ dir_name d ≠ ".."
  end.

Definition heap_ok (h : gmap addr object) : Prop :=
  ∀ a o, h !! a = Some o → obj_ok o.

(** The attributes no operation assigns after construction. *)
Definition obj_owner (o : object) : string :=
  match o with
  | OFile f => file_owner f
  | ODirectory d => dir_owner d
  end.

Definition obj_created_at (o : object) : timestamp :=
  match o with
  | OFile f => file_created_at f
  | ODirectory d => dir_created_at d
  end.

Definition same_identity (o o' : object) : Prop :=
  obj_name o' = obj_name o ∧
  is_directory_obj o' = is_directory_obj o ∧
  obj_owner o' = obj_owner o ∧
  obj_created_at o' = obj_created_at o.

(** Every object of [h] is still there in [h'], under the same name, of the
    same class, with the same owner and creation time. *)
Definition heap_keeps (h h' : gmap addr object) : Prop :=
  ∀ a o, h !! a = Some o → ∃ o', h' !! a = Some o' ∧ same_identity o o'.

(** ** Listing a directory

    The dicts that [get_info] and [list_contents] build have strings as keys
    and strings or integers as values. *)
Inductive pyval :=
  | PStr (s : string)
  | PInt (n : nat).

(** [sorted(self.children.items())]: the pairs in the order of their keys,
    which are distinct, so that no two objects are ever compared.  Strings
    compare character by character. *)
Fixpoint insert_item (x : string * addr) (l : list (string * addr))
    : list (string * addr) :=
  match l with
  | [] => [x]
  | y :: l' => if String.leb (fst x) (fst y) then x :: l else y :: insert_item x l'
  end.

Definition sorted_items (children : gmap string addr) : list (string * addr) :=
  foldr insert_item [] (map_to_list children).

(** The order of the keys. *)
Definition key_lt (x y : string * addr) : Prop :=
  String.ltb (fst x) (fst y) = true.

Section listing.

(** [strftime('%Y-%m-%d %H:%M:%S')] of the datetime library. *)
Variable strftime : timestamp → string.

(** [File.get_info] *)
Definition get_info (self : addr) : M (gmap string pyval) :=
  do f <- as_file self;
  ret (list_to_map
         [("name", PStr (file_name f)); ("type", PStr "file");
          ("owner", PStr (file_owner f)); ("size", PInt (file_size f));
          ("created", PStr (strftime (file_created_at f)));
          ("modified", PStr (strftime (file_modified_at f)))]).

(** The loop of [list_contents]: an item that is not a [File] is a
    [Directory]. *)
Fixpoint list_items (items : list (string * addr)) : M (list (gmap string pyval)) :=
  match items with
  | [] => ret []
  | (name, item) :: rest =>
      do is_file <- isinstance_File item;
      do entry <- (if is_file then get_info item
                   else
                     do d <- as_directory item;
                     ret (list_to_map
                            [("name", PStr name); ("type", PStr "directory");
                             ("owner", PStr (dir_owner d));
                             ("created", PStr (strftime (dir_created_at d)))]));
      do entries <- list_items rest;
      ret (entry :: entries)
  end.

Definition list_contents (self : addr) : M (list (gmap string pyval)) :=
  do d <- as_directory self;
  list_items (sorted_items (dir_children d)).

Definition list_directory : M (list (gmap string pyval)) :=
  do cwd <- get_current_directory;
  list_contents cwd.

End listing.

(** The name an entry of a listing carries. *)
Definition entry_name (e : gmap string pyval) : string :=
  match e !! "name" with
  | Some (PStr n) => n
  | _ => EmptyString
  end.

(** The entry that a listing shows for a child. *)
Definition entry_of (strftime : timestamp → string) (n : string) (o : object)
    : gmap string pyval :=
  match o with
  | OFile f =>
      list_to_map
        [("name", PStr n); ("type", PStr "file");
         ("owner", PStr (file_owner f)); ("size", PInt (String.length (file_content f)));
         ("created", PStr (strftime (file_created_at f)));
         ("modified", PStr (strftime (file_modified_at f)))]
  | ODirectory d =>
      list_to_map
        [("name", PStr n); ("type", PStr "directory");
         ("owner", PStr (dir_owner d));
         ("created", PStr (strftime (dir_created_at d)))]
  end.

(** ** More of Python's [str]

    Strings are sequences of code points below 256 here, and these functions
    are what Python computes on such strings. *)

(** The code points below 256 for which [str.isspace] holds. *)
Definition whitespace : string :=
  string_of_list_ascii
    (map ascii_of_nat [9; 10; 11; 12; 13; 28; 29; 30; 31; 32; 133; 160]%nat).

Definition isspace (a : ascii) : bool := PyStr.mem a whitespace.

(** [s.split()]: the maximal runs of characters that are not whitespace. *)
Fixpoint split_whitespace (s : string) : list string :=
  match s with
  | EmptyString => []
  | String a rest =>
      if isspace a then split_whitespace rest
      else
        match rest with
        | EmptyString => [String a EmptyString]
        | String b _ =>
            if isspace b then String a EmptyString :: split_whitespace rest
            else
              match split_whitespace rest with
              | word :: words => String a word :: words
              | [] => [String a EmptyString]
              end
        end
  end.

(** [s.lower()]: the letters A to Z and the capital letters of Latin-1
    (code points 192 to 222 without the multiplication sign) move up by 32. *)
Definition lower_char (a : ascii) : ascii :=
  let n := nat_of_ascii a in
  if (Nat.leb 65 n && Nat.leb n 90)
     || (Nat.leb 192 n && Nat.leb n 222 && negb (Nat.eqb n 215))
  then ascii_of_nat (n + 32)
  else a.

Fixpoint lower (s : string) : string :=
  match s with
  | EmptyString => EmptyString
  | String a rest => String (lower_char a) (lower rest)
  end.

(** [s * n] *)
Fixpoint str_mul (s : string) (n : nat) : string :=
  match n with
  | O => EmptyString
  | S n' => s +:+ str_mul s n'
  end.

(** [f"{s:<w}"]: padded with spaces on the right up to the width [w]. *)
Definition ljust (w : nat) (s : string) : string :=
  s +:+ str_mul " " (w - String.length s).

Definition nl : string := String (ascii_of_nat 10) EmptyString.

(** [str(v)] *)
Definition str (v : pyval) : string :=
  match v with
  | PStr s => s
  | PInt n => DecimalString.NilEmpty.string_of_uint (Nat.to_uint n)
  end.

(** ** class NetworkFileSystem, the readers *)

Definition get_current_user (n : NetworkFileSystem) : option addr := current_user n.

(** [list(self.users.keys())]: a dict gives its keys in the order in which
    they were inserted.  No user is ever removed and every new [User] object
    gets an address above all the earlier ones, so that this is the order of
    the addresses. *)
Fixpoint insert_user (x : string * addr) (l : list (string * addr))
    : list (string * addr) :=
  match l with
  | [] => [x]
  | y :: l' => if Nat.leb (snd x) (snd y) then x :: l else y :: insert_user x l'
  end.

Definition list_users (n : NetworkFileSystem) : list string :=
  map fst (foldr insert_user [] (map_to_list (users n))).

(** The order of the addresses. *)
Definition addr_le (x y : string * addr) : Prop := (snd x ≤ snd y)%nat.

Definition set_user (a : addr) (u : User) (n : NetworkFileSystem) : NetworkFileSystem :=
  {| user_heap := <[a := u]> (user_heap n); users := users n;
     current_user := current_user n |}.

Definition with_file_system (fs : FileSystem) (u : User) : User :=
  {| username := username u; lastname := lastname u;
     file_system := fs; logged_in := logged_in u |}.

(** ** class TerminalSimulator (terminal.py) *)

Record TerminalSimulator := mkTerminalSimulator {
  nfs : NetworkFileSystem;
  running : bool
}.

Definition set_nfs (n : NetworkFileSystem) (t : TerminalSimulator) : TerminalSimulator :=
  {| nfs := n; running := running t |}.

Definition set_running (b : bool) (t : TerminalSimulator) : TerminalSimulator :=
  {| nfs := nfs t; running := b |}.

(** What the terminal does to the outside: [print(text)], [input(prompt)]
    and the [os.system] call that clears the screen. *)
Inductive event :=
  | Print (text : string)
  | Input (prompt : string)
  | ClearScreen.

(** A method of the terminal: it may raise ([None]), and otherwise returns a
    value, the events in their order, and the terminal. *)
Definition T (A : Type) : Type :=
  TerminalSimulator → option (A * list event * TerminalSimulator).

Definition t_ret {A} (x : A) : T A := λ t, Some (x, [], t).

Definition t_bind {A B} (m : T A) (k : A → T B) : T B :=
  λ t, match m t with
       | Some (x, out, t') =>
           match k x t' with
           | Some (y, out', t'') => Some (y, (out ++ out')%list, t'')
           | None => None
           end
       | None => None
       end.

Definition t_raise {A} : T A := λ _, None.

Notation "'tdo' x <- m ; k" := (t_bind m (λ x, k))
  (at level 10, x name, m at level 100, k at level 200).
Notation "'tcall' m ; k" := (t_bind m (λ _, k))
  (at level 10, m at level 100, k at level 200).

Definition print (text : string) : T unit := λ t, Some (tt, [Print text], t).

Definition input (prompt : string) : T unit := λ t, Some (tt, [Input prompt], t).

(** [self.nfs.m(...)] for a method that changes the registry, and for one
    that only reads it. *)
Definition nfs_call {A} (m : NetworkFileSystem → option (A * NetworkFileSystem)) : T A :=
  λ t, match m (nfs t) with
       | Some (x, n') => Some (x, [], set_nfs n' t)
       | None => None
       end.

Definition nfs_read {A} (f : NetworkFileSystem → A) : T A :=
  λ t, Some (f (nfs t), [], t).

(** The attributes of the user object at an address. *)
Definition load_user (a : addr) : T User :=
  λ t, match user_heap (nfs t) !! a with
       | Some u => Some (u, [], t)
       | None => None
       end.

(** [user.file_system.m(...)]: the method runs on the file system that the
    user object holds, and what it changes is changed there. *)
Definition file_system_call {A} (a : addr) (m : M A) : T A :=
  λ t, match user_heap (nfs t) !! a with
       | Some u =>
           match m (file_system u) with
           | Some (x, fs') => Some (x, [], set_nfs (set_user a (with_file_system fs' u) (nfs t)) t)
           | None => None
           end
       | None => None
       end.

(** [user = self.nfs.get_current_user()] where the code goes on to read
    attributes of [user]: on [None] that raises. *)
Definition the_current_user : T addr :=
  tdo user <- nfs_read get_current_user;
  match user with
  | Some a => t_ret a
  | None => t_raise
  end.

Definition TerminalSimulator_init : TerminalSimulator :=
  {| nfs := NetworkFileSystem_init; running := true |}.

Definition print_banner : T unit :=
  tcall print (str_mul "=" 60);
  tcall print "  NETWORK FILE SYSTEM SIMULATOR - Multi-User Environment";
  tcall print (str_mul "=" 60);
  tcall print "Type 'help' for available commands";
  tcall print "Type 'createuser <username> <lastname>' to create a user";
  tcall print "Type 'login <username>' to login";
  print (str_mul "-" 60).

Definition help_text : string :=
  String.concat nl
    [EmptyString;
     "Available Commands:";
     "==================";
     EmptyString;
     "USER MANAGEMENT:";
     "  createuser <username> <lastname>  - Create a new user account";
     "  login <username>                  - Login as a user";
     "  logout                            - Logout current user";
     "  users                             - List all registered users";
     "  whoami                            - Show current user information";
     EmptyString;
     "FILE SYSTEM NAVIGATION:";
     "  pwd                               - Print working directory";
     "  ls                                - List directory contents";
     "  cd <directory>                    - Change directory";
     "  cd ..                             - Go to parent directory";
     "  cd /                              - Go to root directory";
     EmptyString;
     "FILE & DIRECTORY OPERATIONS:";
     "  mkdir <dirname>                   - Create a new directory";
     "  touch <filename>                  - Create an empty file";
     "  write <filename> <content>        - Write content to a file";
     "  read <filename>                   - Read file content";
     "  cat <filename>                    - Read file content (alias for read)";
     "  rm <name>                         - Delete a file or empty directory";
     "  mv <source> <destination>         - Move file/directory to another directory";
     "  cp <source> <destination>         - Copy a file";
     EmptyString;
     "SYSTEM:";
     "  clear                             - Clear the screen";
     "  exit / quit                       - Exit the terminal";
     EmptyString;
     "Note: Most file operations require you to be logged in as a user.";
     EmptyString].

Definition help_command (args : list string) : T unit := print help_text.

Definition create_user_command (now : clock) (args : list string) : T unit :=
  match args with
  | name :: last :: _ =>
      tdo r <- nfs_call (create_user now name last);
      print (snd r)
  | _ => print "Usage: createuser <username> <lastname>"
  end.

Definition login_command (args : list string) : T unit :=
  match args with
  | name :: _ =>
      tdo r <- nfs_call (login name);
      print (snd r)
  | [] => print "Usage: login <username>"
  end.

Definition logout_command (args : list string) : T unit :=
  tdo r <- nfs_call logout;
  print (snd r).

Definition check_login : T bool :=
  tdo user <- nfs_read get_current_user;
  match user with
  | None =>
      tcall print "Error: No user logged in. Please login first.";
      t_ret false
  | Some _ => t_ret true
  end.

Definition pwd_command (args : list string) : T unit :=
  tdo ok <- check_login;
  if negb ok then t_ret tt
  else
    tdo user <- the_current_user;
    tdo path <- file_system_call user get_current_path;
    print path.

Definition cd_command (args : list string) : T unit :=
  tdo ok <- check_login;
  if negb ok then t_ret tt
  else
    match args with
    | [] => print "Usage: cd <directory>"
    | path :: _ =>
        tdo user <- the_current_user;
        tdo r <- file_system_call user (change_directory path);
        if negb (fst r) then print ("Error: " +:+ snd r) else t_ret tt
    end.

Definition mkdir_command (now : clock) (args : list string) : T unit :=
  tdo ok <- check_login;
  if negb ok then t_ret tt
  else
    match args with
    | [] => print "Usage: mkdir <directory_name>"
    | dirname :: _ =>
        tdo user <- the_current_user;
        tdo u <- load_user user;
        tdo r <- file_system_call user (create_directory now dirname (username u));
        print (snd r)
    end.

(** [create_file] is called without a content: the default is the empty
    string. *)
Definition touch_command (now : clock) (args : list string) : T unit :=
  tdo ok <- check_login;
  if negb ok then t_ret tt
  else
    match args with
    | [] => print "Usage: touch <filename>"
    | filename :: _ =>
        tdo user <- the_current_user;
        tdo u <- load_user user;
        tdo r <- file_system_call user (create_file now filename (username u) EmptyString);
        print (snd r)
    end.

Definition write_command (now : clock) (args : list string) : T unit :=
  tdo ok <- check_login;
  if negb ok then t_ret tt
  else
    match args with
    | filename :: ((_ :: _) as rest) =>
        tdo user <- the_current_user;
        let content := String.concat " " rest in
        tdo u <- load_user user;
        tdo r <- file_system_call user (write_file now filename content (username u));
        print (snd r)
    | _ => print "Usage: write <filename> <content>"
    end.

Definition read_command (args : list string) : T unit :=
  tdo ok <- check_login;
  if negb ok then t_ret tt
  else
    match args with
    | [] => print "Usage: read <filename>"
    | filename :: _ =>
        tdo user <- the_current_user;
        tdo r <- file_system_call user (read_file filename);
        if fst r then
          tcall print ("--- Contents of '" +:+ filename +:+ "' ---");
          tcall print (snd r);
          print "--- End of file ---"
        else print ("Error: " +:+ snd r)
    end.

Definition rm_command (args : list string) : T unit :=
  tdo ok <- check_login;
  if negb ok then t_ret tt
  else
    match args with
    | [] => print "Usage: rm <name>"
    | name :: _ =>
        tdo user <- the_current_user;
        tdo r <- file_system_call user (delete name);
        print (snd r)
    end.

Definition mv_command (args : list string) : T unit :=
  tdo ok <- check_login;
  if negb ok then t_ret tt
  else
    match args with
    | source :: destination :: _ =>
        tdo user <- the_current_user;
        tdo r <- file_system_call user (move source destination);
        print (snd r)
    | _ => print "Usage: mv <source> <destination_directory>"
    end.

Definition cp_command (now : clock) (args : list string) : T unit :=
  tdo ok <- check_login;
  if negb ok then t_ret tt
  else
    match args with
    | source :: destination :: _ =>
        tdo user <- the_current_user;
        tdo u <- load_user user;
        tdo r <- file_system_call user (copy_file now source destination (username u));
        print (snd r)
    | _ => print "Usage: cp <source_file> <destination_file>"
    end.

Definition whoami_command (args : list string) : T unit :=
  tdo user <- nfs_read get_current_user;
  match user with
  | Some a =>
      tdo u <- load_user a;
      tcall print ("Current user: " +:+ username u +:+ " (Last name: " +:+ lastname u +:+ ")");
      tdo path <- file_system_call a get_current_path;
      print ("Working directory: " +:+ path)
  | None => print "No user logged in"
  end.

Definition clear_command (args : list string) : T unit :=
  λ t, Some (tt, [ClearScreen], t).

Definition exit_command (args : list string) : T unit :=
  tcall print "Exiting Network File System. Goodbye!";
  λ t, Some (tt, [], set_running false t).

Section terminal.

(** [strftime] of the datetime library, and the mark that [users] prints for
    a user whose flag is set: three code points, two of them above 255. *)
Variable strftime : timestamp → string.
Variable check_mark : string.

(** [self.nfs.users[user]], a [KeyError] when the name is not there. *)
Definition users_item (name : string) : T User :=
  tdo registry <- nfs_read users;
  match registry !! name with
  | Some a => load_user a
  | None => t_raise
  end.

Fixpoint print_users (names : list string) : T unit :=
  match names with
  | [] => t_ret tt
  | user :: rest =>
      tdo u <- users_item user;
      let status := if logged_in u then check_mark else " " in
      tdo u' <- users_item user;
      tcall print ("  [" +:+ status +:+ "] " +:+ user +:+ " (" +:+ lastname u' +:+ ")");
      print_users rest
  end.

Definition list_users_command (args : list string) : T unit :=
  tdo names <- nfs_read list_users;
  match names with
  | [] => print "No users registered"
  | _ =>
      tcall print "Registered Users:";
      print_users names
  end.

(** [item[key]], a [KeyError] when the key is not there, and
    [item.get(key, default)]. *)
Definition item_at (item : gmap string pyval) (key : string) : T pyval :=
  match item !! key with
  | Some v => t_ret v
  | None => t_raise
  end.

Definition item_get (item : gmap string pyval) (key : string) (d : pyval) : pyval :=
  default d (item !! key).

Definition is_file_type (v : pyval) : bool :=
  match v with
  | PStr s => bool_decide (s = "file")
  | PInt _ => false
  end.

Fixpoint print_items (contents : list (gmap string pyval)) : T unit :=
  match contents with
  | [] => t_ret tt
  | item :: rest =>
      tdo item_type <- item_at item "type";
      tdo name <- item_at item "name";
      let size := if is_file_type item_type then str (item_get item "size" (PStr "-"))
                  else "<DIR>" in
      tdo owner <- item_at item "owner";
      let modified := item_get item "modified" (item_get item "created" (PStr EmptyString)) in
      tcall print (ljust 12 (str item_type) +:+ " " +:+ ljust 20 (str name) +:+ " " +:+
                   ljust 10 size +:+ " " +:+ ljust 15 (str owner) +:+ " " +:+ str modified);
      print_items rest
  end.

Definition ls_command (args : list string) : T unit :=
  tdo ok <- check_login;
  if negb ok then t_ret tt
  else
    tdo user <- the_current_user;
    tdo contents <- file_system_call user (list_directory strftime);
    match contents with
    | [] => print "(empty directory)"
    | _ =>
        tcall print (ljust 12 "Type" +:+ " " +:+ ljust 20 "Name" +:+ " " +:+
                     ljust 10 "Size" +:+ " " +:+ ljust 15 "Owner" +:+ " " +:+ "Modified");
        tcall print (str_mul "-" 80);
        print_items contents
    end.

(** The table [self.commands]. *)
Definition commands (now : clock) : gmap string (list string → T unit) :=
  list_to_map
    [("help", help_command);
     ("createuser", create_user_command now);
     ("login", login_command);
     ("logout", logout_command);
     ("users", list_users_command);
     ("whoami", whoami_command);
     ("pwd", pwd_command);
     ("ls", ls_command);
     ("cd", cd_command);
     ("mkdir", mkdir_command now);
     ("touch", touch_command now);
     ("write", write_command now);
     ("read", read_command);
     ("cat", read_command);
     ("rm", rm_command);
     ("mv", mv_command);
     ("cp", cp_command now);
     ("clear", clear_command);
     ("exit", exit_command);
     ("quit", exit_command)].

(** [parse_command].  The handler runs inside [try]; an exception it raised
    would be caught and reported by its message, which the model does not
    have: there the model gives no result. *)
Definition parse_command (now : clock) (input_str : string) : T unit :=
  match split_whitespace (PyStr.strip whitespace input_str) with
  | [] => t_ret tt
  | word :: args =>
      let command := lower word in
      match commands now !! command with
      | Some handler => handler args
      | None =>
          print ("Unknown command: " +:+ command +:+
                 ". Type 'help' for available commands.")
      end
  end.

(** [User.get_prompt] *)
Definition User_get_prompt (a : addr) : T string :=
  tdo path <- file_system_call a get_current_path;
  tdo u <- load_user a;
  t_ret (lastname u +:+ "@filesystem:" +:+ path +:+ "$ ").

Definition get_prompt : T string :=
  tdo user <- nfs_read get_current_user;
  match user with
  | Some a => User_get_prompt a
  | None => t_ret "guest@filesystem$ "
  end.

(** The loop of [run] over the lines that [input] returns; when there is no
    line left, [input] raises [EOFError].  The [k]-th command reads the
    clock [now k].  An interrupt from the keyboard is not modelled, and an
    exception that reached the loop would be reported by its message: there
    the model gives no result, as in [parse_command]. *)
Fixpoint run_loop (now : nat → clock) (k : nat) (inputs : list string) : T unit :=
  λ t,
    if negb (running t) then t_ret tt t
    else
      (tdo prompt <- get_prompt;
       tcall input prompt;
       match inputs with
       | [] => print (nl +:+ "Exiting...")
       | user_input :: rest =>
           tcall parse_command (now k) user_input;
           run_loop now (S k) rest
       end) t.

Definition run (now : nat → clock) (inputs : list string) : T unit :=
  tcall clear_command [];
  tcall print_banner;
  run_loop now 0 inputs.

End terminal.

(** The terminals that a run of command lines leads to. *)
Inductive terminal_reachable : TerminalSimulator → Prop :=
  | terminal_reachable_init : terminal_reachable TerminalSimulator_init
  | terminal_reachable_step strftime check_mark now input_str t out t' :
      terminal_reachable t →
      parse_command strftime check_mark now input_str t = Some (tt, out, t') →
      terminal_reachable t'.

(** Every object of a file system has the given owner. *)
Definition owned_by (owner : string) (h : gmap addr object) : Prop :=
  ∀ a o, h !! a = Some o → obj_owner o = owner.

(** ** What a command line can do to the terminal *)

(** The owner that a namespace operation is called with, when it takes one. *)
Definition command_owner (c : command) : option string :=
  match c with
  | CreateFile _ owner _ | CreateDirectory _ owner | WriteFile _ _ owner
  | CopyFile _ _ owner => Some owner
  | ChangeDirectory _ | AppendFile _ _ | Delete _ | Move _ _ => None
  end.

(** The first word of a command line in lower case, which is what
    [parse_command] looks up in the table. *)
Definition command_word (input_str : string) : option string :=
  match split_whitespace (PyStr.strip whitespace input_str) with
  | [] => None
  | word :: _ => Some (lower word)
  end.

(** The command lines at which the loop of [run] says goodbye. *)
Definition exit_line (input_str : string) : Prop :=
  command_word input_str = Some "exit" ∨ command_word input_str = Some "quit".

(** How often [input] was called. *)
Fixpoint prompts (out : list event) : nat :=
  match out with
  | [] => 0
  | Input _ :: out' => S (prompts out')
  | _ :: out' => prompts out'
  end.

(** A method of the terminal that never calls [input]. *)
Definition quiet {A} (m : T A) : Prop :=
  ∀ t x out t', m t = Some (x, out, t') → prompts out = 0%nat.

(** What the handlers other than [exit_command] can do: leave the terminal
    as it is, or run one operation of the registry, or run one namespace
    operation on the file system of the active user, with that user's name
    as the owner. *)
Inductive terminal_step (t : TerminalSimulator) : TerminalSimulator → Prop :=
  | step_same : terminal_step t t
  | step_registry now c r n' :
      nfs_exec now c (nfs t) = Some (r, n') →
      terminal_step t (set_nfs n' t)
  | step_file_system now c r a u fs' :
      current_user (nfs t) = Some a →
      user_heap (nfs t) !! a = Some u →
      (∀ owner, command_owner c = Some owner → owner = username u) →
      exec now c (file_system u) = Some (r, fs') →
      terminal_step t (set_nfs (set_user a (with_file_system fs' u) (nfs t)) t).

(** What holds of every terminal that command lines lead to: a registered
    name refers to a user object of that name, the active user is a user
    object, and every user object holds a file system that is reachable and
    whose objects all have that user as owner. *)
Record terminal_ok (t : TerminalSimulator) : Prop := {
  ok_users : ∀ n a, users (nfs t) !! n = Some a →
    ∃ u, user_heap (nfs t) !! a = Some u ∧ username u = n;
  ok_current : ∀ a, current_user (nfs t) = Some a → is_Some (user_heap (nfs t) !! a);
  ok_file_system : ∀ a u, user_heap (nfs t) !! a = Some u →
    reachable (file_system u) ∧ owned_by (username u) (heap (file_system u))
}.

(** The terminal of the examples: the command lines are run from a fresh
    terminal, dates print as a dash and the mark as a star. *)
Definition terminal_after (lines : list string) : TerminalSimulator :=
  foldl (λ t input_str,
           match parse_command (λ _, "-") "*" tick input_str t with
           | Some (_, _, t') => t'
           | None => t
           end)
        TerminalSimulator_init lines.

(** ** Paths

    The path that a list of names spells, and the names that a path can
    spell without loss: not empty and without a slash. *)
Definition path_of (names : list string) : string :=
  match names with
  | [] => "/"
  | _ => "/" +:+ PyStr.join slash names
  end.

Definition plain_name (n : string) : Prop := n ≠ EmptyString ∧ PyStr.mem slash n = false.

(* ================================================================= *)
(** * Proofs *)

(** ** Reading a computation backwards *)

Section inversion.
Context {A B : Type}.

Lemma bind_inv (m : M A) (k : A → M B) s y s' :
  bind m k s = Some (y, s') →
  ∃ x s1, m s = Some (x, s1) ∧ k x s1 = Some (y, s').
Proof.
  unfold bind. destruct (m s) as [[x s1]|]; [|done]. eauto.
Qed.

Lemma bind_eq (m : M A) (k : A → M B) s x s1 :
  m s = Some (x, s1) → bind m k s = k x s1.
Proof. unfold bind. by intros ->. Qed.

Lemma ret_inv (x y : A) s s' : ret x s = Some (y, s') → y = x ∧ s' = s.
Proof. unfold ret. by intros [= -> ->]. Qed.
End inversion.

Lemma load_inv a s o s' :
  load a s = Some (o, s') → heap s !! a = Some o ∧ s' = s.
Proof. unfold load. destruct (heap s !! a); [|done]. by intros [= -> ->]. Qed.

Lemma load_eq a s o : heap s !! a = Some o → load a s = Some (o, s).
Proof. unfold load. by intros ->. Qed.

Lemma as_directory_inv a s d s' :
  as_directory a s = Some (d, s') → heap s !! a = Some (ODirectory d) ∧ s' = s.
Proof.
  unfold as_directory. intros (o & s1 & [Ho ->]%load_inv & H)%bind_inv.
  destruct o; [done|]. by apply ret_inv in H as [-> ->].
Qed.

Lemma as_directory_eq a s d :
  heap s !! a = Some (ODirectory d) → as_directory a s = Some (d, s).
Proof. intros H. unfold as_directory. by rewrite (bind_eq _ _ _ _ _ (load_eq _ _ _ H)). Qed.

Lemma as_file_inv a s f s' :
  as_file a s = Some (f, s') → heap s !! a = Some (OFile f) ∧ s' = s.
Proof.
  unfold as_file. intros (o & s1 & [Ho ->]%load_inv & H)%bind_inv.
  destruct o; [|done]. by apply ret_inv in H as [-> ->].
Qed.

Lemma as_file_eq a s f :
  heap s !! a = Some (OFile f) → as_file a s = Some (f, s).
Proof. intros H. unfold as_file. by rewrite (bind_eq _ _ _ _ _ (load_eq _ _ _ H)). Qed.

Lemma isinstance_File_inv a s b s' :
  isinstance_File a s = Some (b, s') →
  ∃ o, heap s !! a = Some o ∧ b = is_file_obj o ∧ s' = s.
Proof.
  unfold isinstance_File. intros (o & s1 & [Ho ->]%load_inv & H)%bind_inv.
  apply ret_inv in H as [-> ->]. eauto.
Qed.

Lemma isinstance_File_eq a s o :
  heap s !! a = Some o → isinstance_File a s = Some (is_file_obj o, s).
Proof. intros H. unfold isinstance_File. by rewrite (bind_eq _ _ _ _ _ (load_eq _ _ _ H)). Qed.

Lemma isinstance_Directory_inv a s b s' :
  isinstance_Directory a s = Some (b, s') →
  ∃ o, heap s !! a = Some o ∧ b = is_directory_obj o ∧ s' = s.
Proof.
  unfold isinstance_Directory. intros (o & s1 & [Ho ->]%load_inv & H)%bind_inv.
  apply ret_inv in H as [-> ->]. eauto.
Qed.

Lemma isinstance_Directory_eq a s o :
  heap s !! a = Some o → isinstance_Directory a s = Some (is_directory_obj o, s).
Proof. intros H. unfold isinstance_Directory. by rewrite (bind_eq _ _ _ _ _ (load_eq _ _ _ H)). Qed.

Lemma get_inv a n s x s' :
  get a n s = Some (x, s') →
  ∃ d, heap s !! a = Some (ODirectory d) ∧ x = dir_children d !! n ∧ s' = s.
Proof.
  unfold get. intros (d & s1 & [Hd ->]%as_directory_inv & H)%bind_inv.
  apply ret_inv in H as [-> ->]. eauto.
Qed.

Lemma get_eq a n s d :
  heap s !! a = Some (ODirectory d) → get a n s = Some (dir_children d !! n, s).
Proof. intros H. unfold get. by rewrite (bind_eq _ _ _ _ _ (as_directory_eq _ _ _ H)). Qed.

Lemma store_inv a o s u s' :
  store a o s = Some (u, s') → s' = set_heap (<[a:=o]> (heap s)) s.
Proof. unfold store. by intros [= _ <-]. Qed.

Lemma alloc_inv o s a s' :
  alloc o s = Some (a, s') →
  a = fresh (dom (heap s)) ∧ heap s !! a = None ∧ s' = set_heap (<[a:=o]> (heap s)) s.
Proof.
  unfold alloc. intros [= <- <-]. split_and!; [done| |done].
  apply not_elem_of_dom, is_fresh.
Qed.

Lemma get_current_directory_inv s a s' :
  get_current_directory s = Some (a, s') → a = current_directory s ∧ s' = s.
Proof. unfold get_current_directory. by intros [= <- <-]. Qed.

Lemma get_root_inv s a s' : get_root s = Some (a, s') → a = root s ∧ s' = s.
Proof. unfold get_root. by intros [= <- <-]. Qed.

Lemma put_current_directory_inv a s u s' :
  put_current_directory a s = Some (u, s') → s' = set_current_directory a s.
Proof. unfold put_current_directory. by intros [= _ <-]. Qed.

(** One step of reading a hypothesis [m s = Some (x, s')] backwards. *)
Ltac minv1 :=
  match goal with
  | H : bind _ _ _ = Some _ |- _ =>
      let x := fresh "x" in let s := fresh "s" in let E := fresh "E" in
      apply bind_inv in H as (x & s & E & H)
  | H : ret _ _ = Some _ |- _ => apply ret_inv in H as [? ?]; simplify_eq
  | H : raise _ = Some _ |- _ => discriminate H
  | H : load _ _ = Some _ |- _ => apply load_inv in H as [H ?]; subst
  | H : as_directory _ _ = Some _ |- _ => apply as_directory_inv in H as [H ?]; subst
  | H : as_file _ _ = Some _ |- _ => apply as_file_inv in H as [H ?]; subst
  | H : get _ _ _ = Some _ |- _ => apply get_inv in H as (? & H & ? & ?); subst
  | H : isinstance_File _ _ = Some _ |- _ =>
      apply isinstance_File_inv in H as (? & H & ? & ?); subst
  | H : isinstance_Directory _ _ = Some _ |- _ =>
      apply isinstance_Directory_inv in H as (? & H & ? & ?); subst
  | H : store _ _ _ = Some _ |- _ => apply store_inv in H; subst
  | H : alloc _ _ = Some _ |- _ => apply alloc_inv in H as (? & H & ?); subst
  | H : get_current_directory _ = Some _ |- _ =>
      apply get_current_directory_inv in H as [? ?]; subst
  | H : get_root _ = Some _ |- _ => apply get_root_inv in H as [? ?]; subst
  | H : put_current_directory _ _ = Some _ |- _ =>
      apply put_current_directory_inv in H; subst
  end.

Ltac minv := repeat minv1.

(** ** The string primitives do what Python's do *)

Lemma split_nonempty sep s : PyStr.split sep s ≠ [].
Proof.
  destruct s as [|a s]; simpl; [done|].
  case_decide; [done|]. by destruct (PyStr.split sep s).
Qed.

(** Joining the segments with the separator gives the string back. *)
Lemma join_split sep s : PyStr.join sep (PyStr.split sep s) = s.
Proof.
  induction s as [|a s IH]; simpl; [done|].
  case_decide as Ha.
  - subst a. pose proof (split_nonempty sep s) as Hne.
    destruct (PyStr.split sep s) as [|seg segs] eqn:E; [done|].
    simpl in *. by rewrite IH.
  - pose proof (split_nonempty sep s) as Hne.
    destruct (PyStr.split sep s) as [|seg segs] eqn:E; [done|].
    destruct segs as [|seg' segs]; simpl in *; by rewrite <- IH.
Qed.

(** No segment contains the separator. *)
Lemma split_no_sep sep s :
  Forall (λ seg, PyStr.mem sep seg = false) (PyStr.split sep s).
Proof.
  induction s as [|a s IH]; simpl.
  - by constructor.
  - case_decide as Ha.
    + by constructor.
    + destruct (PyStr.split sep s) as [|seg segs].
      { constructor; [|constructor]. simpl. by rewrite decide_False by congruence. }
      inversion IH as [|? ? Hseg Hsegs]; subst. constructor; [|done].
      simpl. rewrite decide_False by congruence. done.
Qed.

Lemma append_String a s t : String a s +:+ t = String a (s +:+ t).
Proof. done. Qed.

Lemma append_empty t : EmptyString +:+ t = t.
Proof. done. Qed.

(** [lstrip] removes a prefix made of the given characters, and what is left
    does not begin with one of them. *)
Lemma lstrip_spec chars s :
  ∃ pre, s = pre +:+ PyStr.lstrip chars s ∧
         (∀ k a, String.get k pre = Some a → PyStr.mem a chars = true) ∧
         (∀ a, String.get 0 (PyStr.lstrip chars s) = Some a → PyStr.mem a chars = false).
Proof.
  induction s as [|a s (pre & Heq & Hpre & Hhead)]; simpl.
  - exists EmptyString. split_and!; [done|by intros [|k]|done].
  - destruct (PyStr.mem a chars) eqn:Ha.
    + exists (String a pre). split_and!.
      * rewrite append_String. by f_equal.
      * intros [|k] b; simpl; [by intros [= <-]|apply Hpre].
      * done.
    + exists EmptyString. split_and!; [done|by intros [|k]|]. simpl. by intros b [= <-].
Qed.

(** [rstrip] removes a suffix made of the given characters, and what is left
    does not end with one of them. *)
Lemma rstrip_spec chars s :
  ∃ post, s = PyStr.rstrip chars s +:+ post ∧
          (∀ k a, String.get k post = Some a → PyStr.mem a chars = true) ∧
          (∀ a, String.get (String.length (PyStr.rstrip chars s) - 1)
                  (PyStr.rstrip chars s) = Some a →
                PyStr.mem a chars = false).
Proof.
  induction s as [|a s (post & Heq & Hpost & Hlast)]; simpl.
  - exists EmptyString. split_and!; [done|by intros [|k]|done].
  - destruct (PyStr.rstrip chars s) as [|b r] eqn:Hr.
    + destruct (PyStr.mem a chars) eqn:Ha.
      * exists (String a post). simpl in Heq. split_and!.
        -- rewrite append_empty in *. by f_equal.
        -- intros [|k] c; simpl; [by intros [= <-]|apply Hpost].
        -- done.
      * exists post. rewrite append_empty in Heq. rewrite append_String, append_empty.
        split_and!; [by f_equal|done|]. simpl. by intros c [= <-].
    + exists post. split_and!.
      * rewrite append_String. by f_equal.
      * done.
      * simpl in *. by rewrite Nat.sub_0_r in Hlast.
Qed.

(** ** Facts about the heap updates *)

Lemma holds_alt h a n b :
  holds h a n b ↔ ∃ o, h !! a = Some o ∧ obj_children o !! n = Some b.
Proof.
  split.
  - intros (d & Hd & Hn). by exists (ODirectory d).
  - intros ([f|d] & Ho & Hn); [done|]. by exists d.
Qed.

Lemma holds_is_directory h a n b : holds h a n b → is_directory_at h a.
Proof. intros (d & Hd & _). by exists d. Qed.

Lemma add_child_name n b o : obj_name (add_child n b o) = obj_name o.
Proof. by destruct o. Qed.
Lemma del_child_name n o : obj_name (del_child n o) = obj_name o.
Proof. by destruct o. Qed.
Lemma set_parent_name p o : obj_name (set_parent p o) = obj_name o.
Proof. by destruct o. Qed.

Lemma add_child_parent n b o : obj_parent (add_child n b o) = obj_parent o.
Proof. by destruct o. Qed.
Lemma del_child_parent n o : obj_parent (del_child n o) = obj_parent o.
Proof. by destruct o. Qed.
Lemma set_parent_children p o : obj_children (set_parent p o) = obj_children o.
Proof. by destruct o. Qed.

Lemma add_child_kind n b o : is_directory_obj (add_child n b o) = is_directory_obj o.
Proof. by destruct o. Qed.
Lemma del_child_kind n o : is_directory_obj (del_child n o) = is_directory_obj o.
Proof. by destruct o. Qed.
Lemma set_parent_kind p o : is_directory_obj (set_parent p o) = is_directory_obj o.
Proof. by destruct o. Qed.

Lemma is_directory_at_alt h a :
  is_directory_at h a ↔ ∃ o, h !! a = Some o ∧ is_directory_obj o = true.
Proof.
  split.
  - intros [d Hd]. by exists (ODirectory d).
  - intros ([f|d] & Ho & Hk); [done|]. by exists d.
Qed.

(** An update of one object that keeps its class keeps every directory a
    directory. *)
Lemma is_directory_at_alter g a h x :
  (∀ o, is_directory_obj (g o) = is_directory_obj o) →
  is_directory_at (alter g a h) x ↔ is_directory_at h x.
Proof.
  intros Hg. rewrite !is_directory_at_alt. rewrite lookup_alter.
  case_decide as Hx; [subst x|done].
  split.
  - intros (o & Ho & Hk). destruct (h !! a) as [o0|]; [|done].
    simpl in Ho. injection Ho as <-. exists o0. by rewrite <- Hg.
  - intros (o & Ho & Hk). rewrite Ho. simpl. exists (g o). by rewrite Hg.
Qed.

Lemma holds_link h a n b x m c :
  holds (h_link a n b h) x m c ↔
  (x = a ∧ m = n ∧ c = b ∧ is_directory_at h a) ∨ (holds h x m c ∧ (x = a → m ≠ n)).
Proof.
  unfold h_link, holds, is_directory_at. rewrite lookup_alter.
  case_decide as Hx.
  - subst x. destruct (h !! a) as [[f|d]|] eqn:Ha; simpl.
    + split; [intros (? & ? & _) | intros [(_ & _ & _ & ? & ?)|[(? & ? & _) _]]]; done.
    + split.
      * intros (d' & [= <-] & Hm). simpl in Hm.
        destruct (decide (m = n)) as [->|Hne].
        -- rewrite lookup_insert_eq in Hm. injection Hm as <-. left. eauto.
        -- rewrite lookup_insert_ne in Hm by done. right. split; [eauto|done].
      * intros [(_ & -> & -> & _)|[(d' & [= <-] & Hm) Hne]].
        -- eexists. split; [done|]. simpl. by rewrite lookup_insert_eq.
        -- eexists. split; [done|]. simpl. rewrite lookup_insert_ne; [done|].
           intros ->. by apply Hne.
    + split; [intros (? & ? & _) | intros [(_ & _ & _ & ? & ?)|[(? & ? & _) _]]]; done.
  - split; [intros H; right; split; [done|congruence] | intros [(-> & _)|[H _]]; done].
Qed.

Lemma holds_unlink h a n x m c :
  holds (h_unlink a n h) x m c ↔ holds h x m c ∧ (x = a → m ≠ n).
Proof.
  unfold h_unlink, holds. rewrite lookup_alter.
  case_decide as Hx.
  - subst x. destruct (h !! a) as [[f|d]|] eqn:Ha; simpl.
    + split; [intros (? & ? & _) | intros [(? & ? & _) _]]; done.
    + split.
      * intros (d' & [= <-] & Hm). simpl in Hm.
        apply lookup_delete_Some in Hm as [Hne Hm]. split; [eauto|]. intros _. done.
      * intros [(d' & [= <-] & Hm) Hne]. eexists. split; [done|]. simpl.
        apply lookup_delete_Some. split; [|done]. intros ->. by apply Hne.
    + split; [intros (? & ? & _) | intros [(? & ? & _) _]]; done.
  - split; [intros H; split; [done|congruence] | intros [H _]; done].
Qed.

Lemma holds_set_parent h b p x m c :
  holds (h_set_parent b p h) x m c ↔ holds h x m c.
Proof.
  rewrite !holds_alt. unfold h_set_parent. rewrite lookup_alter.
  case_decide as Hx; [subst x|done].
  destruct (h !! b) as [o|]; simpl.
  - split.
    + intros (o' & [= <-] & Hm). rewrite set_parent_children in Hm. eauto.
    + intros (o' & [= <-] & Hm). eexists. split; [done|]. by rewrite set_parent_children.
  - split; intros (? & ? & _); done.
Qed.

Lemma holds_insert_fresh h a o x m c :
  h !! a = None → childless o →
  holds (<[a := o]> h) x m c ↔ holds h x m c.
Proof.
  intros Ha Ho. unfold holds. destruct (decide (x = a)) as [->|Hx].
  - rewrite lookup_insert_eq, Ha. split.
    + intros (d & [= ->] & Hm). simpl in Ho. rewrite Ho in Hm. done.
    + intros (? & ? & _). done.
  - by rewrite lookup_insert_ne.
Qed.

Lemma holds_update_file h a f f' x m c :
  h !! a = Some (OFile f) →
  holds (<[a := OFile f']> h) x m c ↔ holds h x m c.
Proof.
  intros Ha. unfold holds. destruct (decide (x = a)) as [->|Hx].
  - rewrite lookup_insert_eq, Ha. split; intros (? & ? & _); done.
  - by rewrite lookup_insert_ne.
Qed.

(** ** The heap updates keep the heap well formed *)

Lemma points_back_add_child n b o a : points_back (add_child n b o) a ↔ points_back o a.
Proof.
  unfold points_back. destruct o as [f|d]; simpl; [done|].
  split; intros H d' [= <-]; by apply (H _ eq_refl).
Qed.

Lemma points_back_del_child n o a : points_back (del_child n o) a ↔ points_back o a.
Proof.
  unfold points_back. destruct o as [f|d]; simpl; [done|].
  split; intros H d' [= <-]; by apply (H _ eq_refl).
Qed.

Lemma points_back_set_parent p o : points_back (set_parent p o) p.
Proof. unfold points_back. destruct o as [f|d]; simpl; [done|]. by intros d' [= <-]. Qed.

Lemma wf_heap_alloc h a o :
  wf_heap h → h !! a = None → childless o →
  (∀ p, obj_parent o = Some p → is_directory_at h p) →
  wf_heap (<[a := o]> h).
Proof.
  intros [Hc Ho Hp] Ha Hch Hpar. split.
  - intros x m b Hx. apply holds_insert_fresh in Hx; [|done..].
    destruct (Hc _ _ _ Hx) as (ob & Hb & Hn & Hback).
    exists ob. split; [|done]. rewrite lookup_insert_ne; [done|]. congruence.
  - intros x m x' m' b H1 H2.
    apply holds_insert_fresh in H1; [|done..].
    apply holds_insert_fresh in H2; [|done..]. eauto.
  - intros x d p Hx Hd.
    assert (is_directory_at h p) as [dp Hdp].
    { destruct (decide (x = a)) as [->|Hne].
      - rewrite lookup_insert_eq in Hx. injection Hx as ->. by apply Hpar.
      - rewrite lookup_insert_ne in Hx by done. eauto. }
    exists dp. rewrite lookup_insert_ne; [done|]. congruence.
Qed.

Lemma wf_heap_update_file h a f f' :
  wf_heap h → h !! a = Some (OFile f) → file_name f' = file_name f →
  wf_heap (<[a := OFile f']> h).
Proof.
  intros [Hc Ho Hp] Ha Hn. split.
  - intros x m b Hx. apply (holds_update_file _ _ _ _ _ _ _ Ha) in Hx.
    destruct (Hc _ _ _ Hx) as (ob & Hb & Hm & Hback).
    destruct (decide (b = a)) as [->|Hne].
    + rewrite lookup_insert_eq. eexists. split; [done|].
      rewrite Ha in Hb. injection Hb as <-. simpl in *. split; [congruence|done].
    + rewrite lookup_insert_ne by done. eauto.
  - intros x m x' m' b H1 H2.
    apply (holds_update_file _ _ _ _ _ _ _ Ha) in H1.
    apply (holds_update_file _ _ _ _ _ _ _ Ha) in H2. eauto.
  - intros x d p Hx Hd.
    destruct (decide (x = a)) as [->|Hne].
    { by rewrite lookup_insert_eq in Hx. }
    rewrite lookup_insert_ne in Hx by done.
    destruct (Hp _ _ _ Hx Hd) as [dp Hdp].
    exists dp. rewrite lookup_insert_ne; [done|]. congruence.
Qed.

Lemma wf_heap_unlink h c n : wf_heap h → wf_heap (h_unlink c n h).
Proof.
  intros [Hc Ho Hp]. split.
  - intros x m b [Hx _]%holds_unlink.
    destruct (Hc _ _ _ Hx) as (ob & Hb & Hm & Hback).
    unfold h_unlink. rewrite lookup_alter. case_decide as Hcb.
    + subst b. rewrite Hb. simpl. eexists. split; [done|].
      rewrite del_child_name. split; [done|]. by apply points_back_del_child.
    + eauto.
  - intros x m x' m' b [H1 _]%holds_unlink [H2 _]%holds_unlink. eauto.
  - intros x d p Hx Hd.
    apply is_directory_at_alter; [apply del_child_kind|].
    unfold h_unlink in Hx. rewrite lookup_alter in Hx. case_decide as Hcx.
    + subst x. destruct (h !! c) as [[f|d0]|] eqn:E; simpl in Hx; [done| |done].
      injection Hx as <-. simpl in Hd. eauto.
    + eauto.
Qed.

Lemma wf_heap_set_parent h b p :
  wf_heap h → (∀ x m, holds h x m b → x = p) → is_directory_at h p →
  wf_heap (h_set_parent b p h).
Proof.
  intros [Hc Ho Hp] Hb Hdir. split.
  - intros x m y Hx%holds_set_parent.
    destruct (Hc _ _ _ Hx) as (oy & Hy & Hm & Hback).
    unfold h_set_parent. rewrite lookup_alter. case_decide as Hby.
    + subst y. rewrite Hy. simpl. eexists. split; [done|].
      rewrite set_parent_name. split; [done|].
      rewrite (Hb _ _ Hx). apply points_back_set_parent.
    + eauto.
  - intros x m x' m' y H1%holds_set_parent H2%holds_set_parent. eauto.
  - intros x d q Hx Hd.
    apply is_directory_at_alter; [apply set_parent_kind|].
    unfold h_set_parent in Hx. rewrite lookup_alter in Hx. case_decide as Hbx.
    + subst x. destruct (h !! b) as [[f|d0]|] eqn:E; simpl in Hx; [done| |done].
      injection Hx as <-. simpl in Hd. by injection Hd as <-.
    + eauto.
Qed.

Lemma wf_heap_link h c n b o :
  wf_heap h → h !! b = Some o → obj_name o = n → points_back o c →
  (∀ x m, ¬ holds h x m b) →
  wf_heap (h_link c n b h).
Proof.
  intros [Hc Ho Hp] Hb Hn Hback Hfree. split.
  - intros x m y [(Ex & Em & Ey & Hdir)|[Hx _]]%holds_link.
    + subst x m y. unfold h_link. rewrite lookup_alter. case_decide as Hcb.
      * subst b. rewrite Hb. simpl. eexists. split; [done|].
        rewrite add_child_name. split; [done|]. by apply points_back_add_child.
      * eauto.
    + destruct (Hc _ _ _ Hx) as (oy & Hy & Hm & Hbk).
      unfold h_link. rewrite lookup_alter. case_decide as Hcy.
      * subst y. rewrite Hy. simpl. eexists. split; [done|].
        rewrite add_child_name. split; [done|]. by apply points_back_add_child.
      * eauto.
  - intros x m x' m' y H1%holds_link H2%holds_link.
    destruct H1 as [(E1 & _ & Ey1 & _)|[H1 _]], H2 as [(E2 & _ & Ey2 & _)|[H2 _]];
      subst; try done; try (by destruct (Hfree _ _ H1)); try (by destruct (Hfree _ _ H2)).
    eauto.
  - intros x d p Hx Hd.
    apply is_directory_at_alter; [apply add_child_kind|].
    unfold h_link in Hx. rewrite lookup_alter in Hx. case_decide as Hcx.
    + subst x. destruct (h !! c) as [[f|d0]|] eqn:E; simpl in Hx; [done| |done].
      injection Hx as <-. simpl in Hd. eauto.
    + eauto.
Qed.

(** ** Every transition keeps the session well formed *)

Lemma is_root_at_alt h r :
  is_root_at h r ↔
  ∃ o, h !! r = Some o ∧ is_directory_obj o = true ∧ obj_parent o = None.
Proof.
  split.
  - intros (d & Hd & Hp). by exists (ODirectory d).
  - intros ([f|d] & Ho & Hk & Hp); [done|]. by exists d.
Qed.

Lemma is_root_at_alter g a h r :
  (∀ o, is_directory_obj (g o) = is_directory_obj o) →
  (a = r → ∀ o, obj_parent (g o) = obj_parent o) →
  is_root_at h r → is_root_at (alter g a h) r.
Proof.
  intros Hk Hp. rewrite !is_root_at_alt. intros (o & Ho & Hd & Hpar).
  rewrite lookup_alter. case_decide as Har.
  - subst a. rewrite Ho. simpl. exists (g o). by rewrite Hk, Hp.
  - eauto.
Qed.

Lemma is_root_at_insert_ne h a o r :
  h !! a = None → is_root_at h r → is_root_at (<[a := o]> h) r.
Proof.
  intros Ha (d & Hd & Hp). exists d. split; [|done].
  rewrite lookup_insert_ne; [done|]. congruence.
Qed.

Lemma is_directory_at_insert_ne h a o x :
  h !! a = None → is_directory_at h x → is_directory_at (<[a := o]> h) x.
Proof.
  intros Ha (d & Hd). exists d. rewrite lookup_insert_ne; [done|]. congruence.
Qed.

(** The root is nobody's child. *)
Lemma root_not_held h r x m :
  wf_heap h → is_root_at h r → ¬ holds h x m r.
Proof.
  intros Hwf (d & Hd & Hp) Hx.
  destruct (wf_child _ Hwf _ _ _ Hx) as (o & Ho & _ & Hback).
  rewrite Hd in Ho. injection Ho as <-.
  rewrite (Hback d eq_refl) in Hp. done.
Qed.

(** A child of a well-formed heap has one holder and one key. *)
Lemma holds_unique h a n a' n' b :
  wf_heap h → holds h a n b → holds h a' n' b → a = a' ∧ n = n'.
Proof.
  intros Hwf H1 H2. split; [by eapply wf_owner|].
  destruct (wf_child _ Hwf _ _ _ H1) as (o & Ho & Hn & _).
  destruct (wf_child _ Hwf _ _ _ H2) as (o' & Ho' & Hn' & _).
  congruence.
Qed.

(** Paths that survive when only the edges leaving [c] are taken away. *)
Lemma rtc_edge_avoid h h' r c :
  (∀ y z, y ≠ c → edge h y z → edge h' y z) →
  rtc (edge h) r c → rtc (edge h') r c.
Proof.
  intros Hkeep Hrc.
  assert (∀ a, rtc (edge h) r a → rtc (edge h') r a ∨ rtc (edge h') r c) as Hall.
  { apply (rtc_ind_r (λ a, rtc (edge h') r a ∨ rtc (edge h') r c)).
    - by left.
    - intros y z Hry Hyz IH. destruct IH as [IH|IH]; [|by right].
      destruct (decide (y = c)) as [->|Hne]; [by right|].
      left. eapply rtc_r; [done|]. by apply Hkeep. }
  destruct (Hall c Hrc); done.
Qed.

Lemma edge_alter_ne g c h y z :
  y ≠ c → edge h y z → edge (alter g c h) y z.
Proof.
  intros Hne (n & d & Hd & Hn). exists n, d. by rewrite lookup_alter_ne.
Qed.

Lemma edge_link a n b h y z : edge h y z → y ≠ a → edge (h_link a n b h) y z.
Proof. intros H Hne. by apply edge_alter_ne. Qed.

Lemma transition_wf s ok s' : wf s → transition s ok s' → wf s'.
Proof.
  intros [Hh Hr Hc Hl] Ht.
  destruct Ht as [ok|a f Ha|a Hd Hlive|a o n d Ha Hch Hn Hback Hcd Hfree
                 |a f f' Ha Hn|n b Hb|n x m y Hx Hy Hdy Hfree].
  - done.
  - split; cbn [heap root current_directory set_heap].
    + apply wf_heap_alloc; [done..|]. by intros p [=].
    + by apply (is_root_at_insert_ne _ _ _ _ Ha).
    + by apply is_directory_at_insert_ne.
    + unfold live in *. cbn [heap root set_heap]. eapply rtc_subrel; [|done].
      intros y z (m & Hm). exists m. by apply holds_insert_fresh.
  - by split.
  - assert (wf_heap (<[a:=o]> (heap s))) as Hh1.
    { apply wf_heap_alloc; [done..|]. intros p Hp. destruct o as [f|x]; [done|].
      simpl in Hp. rewrite (Hback x eq_refl) in Hp. by injection Hp as <-. }
    split; cbn [heap root current_directory set_heap].
    + eapply wf_heap_link; [done|apply lookup_insert_eq|done|done|].
      intros x m Hx. apply holds_insert_fresh in Hx; [|done..].
      destruct (wf_child _ Hh _ _ _ Hx) as (? & ? & _). congruence.
    + apply is_root_at_alter; [apply add_child_kind|intros _; apply add_child_parent|].
      by apply (is_root_at_insert_ne _ _ _ _ Ha).
    + apply is_directory_at_alter; [apply add_child_kind|].
      by apply is_directory_at_insert_ne.
    + unfold live in *. cbn [heap root set_heap current_directory].
      eapply rtc_edge_avoid; [|done].
      intros y z Hne (m & Hm). apply edge_alter_ne; [done|].
      exists m. by apply holds_insert_fresh.
  - split; cbn [heap root current_directory set_heap].
    + by eapply wf_heap_update_file.
    + destruct Hr as (d & Hd & Hp). exists d. split; [|done].
      rewrite lookup_insert_ne; [done|]. congruence.
    + destruct Hc as (d & Hd). exists d.
      rewrite lookup_insert_ne; [done|]. congruence.
    + unfold live in *. cbn [heap root set_heap current_directory].
      eapply rtc_subrel; [|done].
      intros y z (m & Hm). exists m. by eapply holds_update_file.
  - split; cbn [heap root current_directory set_heap].
    + by apply wf_heap_unlink.
    + apply is_root_at_alter; [apply del_child_kind|intros _; apply del_child_parent|done].
    + apply is_directory_at_alter; [apply del_child_kind|done].
    + unfold live in *. cbn [heap root set_heap current_directory].
      eapply rtc_edge_avoid; [|done].
      intros y z Hne He. by apply edge_alter_ne.
  - set (c := current_directory s) in *. set (h := heap s) in *.
    assert (y ≠ c) as Hyc.
    { intros ->. by destruct (Hfree _ Hx). }
    assert (x ≠ root s) as Hxr.
    { intros ->. by eapply root_not_held. }
    destruct (wf_child _ Hh _ _ _ Hx) as (ox & Hox & Hnx & _).
    set (h1 := h_unlink c n h).
    assert (wf_heap h1) as Hh1 by by apply wf_heap_unlink.
    assert (∀ p q, ¬ holds h1 p q x) as Hx1.
    { intros p q [Hp Hq]%holds_unlink.
      destruct (holds_unique _ _ _ _ _ _ Hh Hp Hx) as [-> ->]. by apply Hq. }
    assert (is_directory_at h1 y) as Hdy1.
    { apply is_directory_at_alter; [apply del_child_kind|done]. }
    set (h2 := h_set_parent x y h1).
    assert (wf_heap h2) as Hh2.
    { apply wf_heap_set_parent; [done| |done]. intros p q Hp. by destruct (Hx1 _ _ Hp). }
    assert (∃ o2, h2 !! x = Some o2 ∧ obj_name o2 = n ∧ points_back o2 y)
      as (o2 & Ho2 & Hn2 & Hb2).
    { unfold h2, h_set_parent, h1, h_unlink. rewrite lookup_alter_eq, lookup_alter.
      case_decide as E; rewrite ?E, Hox; simpl; eexists; (split; [done|]);
        rewrite set_parent_name, ?del_child_name; (split; [done|]);
        apply points_back_set_parent. }
    split; cbn [heap root current_directory set_heap].
    + eapply wf_heap_link; [done..|].
      intros p q Hp%holds_set_parent. by destruct (Hx1 _ _ Hp).
    + apply is_root_at_alter; [apply add_child_kind|intros _; apply add_child_parent|].
      apply is_root_at_alter; [apply set_parent_kind|done|].
      apply is_root_at_alter; [apply del_child_kind|intros _; apply del_child_parent|done].
    + apply is_directory_at_alter; [apply add_child_kind|].
      apply is_directory_at_alter; [apply set_parent_kind|].
      apply is_directory_at_alter; [apply del_child_kind|done].
    + unfold live in *. cbn [heap root set_heap current_directory].
      eapply rtc_edge_avoid; [|done].
      intros p q Hne (k & Hk). exists k.
      apply holds_link. right. split.
      * apply holds_set_parent. apply holds_unlink. split; [done|]. done.
      * intros -> ->. by destruct (Hfree _ Hk).
Qed.

(** ** Every operation is a transition *)

Ltac munfold :=
  repeat progress
    (unfold add_file, add_directory, remove, get, File_init, File_read, File_write,
       File_append, Directory_init, nonempty_directory, as_file, as_directory,
       isinstance_File, isinstance_Directory, get_root, get_current_directory,
       put_current_directory, load, store, alloc, bind, ret, raise,
       set_current_directory in *;
     cbn [heap root current_directory set_heap] in *; cbv beta iota zeta in * ).

Ltac mred := cbn [heap root current_directory set_heap obj_name file_name dir_name] in *; cbv beta iota zeta in *.

Ltac mcompute := munfold; repeat (progress (simplify_map_eq; mred)).

Lemma fresh_heap_None (h : gmap addr object) : h !! fresh (dom h) = None.
Proof. apply not_elem_of_dom, is_fresh. Qed.

Lemma fresh_heap_ne (h : gmap addr object) a o : h !! a = Some o → a ≠ fresh (dom h).
Proof. intros H ->. by rewrite fresh_heap_None in H. Qed.

Lemma insert_as_alter (g : object → object) (h : gmap addr object) a o :
  h !! a = Some o → <[a := g o]> h = alter g a h.
Proof.
  intros Ha. apply map_eq. intros x. rewrite lookup_alter, lookup_insert.
  case_decide; [subst; by rewrite Ha|done].
Qed.

Lemma link_eq (h : gmap addr object) c d n b :
  h !! c = Some (ODirectory d) →
  <[c := ODirectory (with_children (<[n := b]> (dir_children d)) d)]> h = h_link c n b h.
Proof. intros H. unfold h_link. by rewrite <- (insert_as_alter (add_child n b) _ _ _ H). Qed.

Lemma unlink_eq (h : gmap addr object) c d n :
  h !! c = Some (ODirectory d) →
  <[c := ODirectory (with_children (base.delete n (dir_children d)) d)]> h = h_unlink c n h.
Proof. intros H. unfold h_unlink. by rewrite <- (insert_as_alter (del_child n) _ _ _ H). Qed.

Lemma set_parent_eq (h : gmap addr object) b x p :
  h !! b = Some (ODirectory x) →
  <[b := ODirectory (with_parent (Some p) x)]> h = h_set_parent b p h.
Proof. intros H. unfold h_set_parent. by rewrite <- (insert_as_alter (set_parent p) _ _ _ H). Qed.

Lemma set_heap_set_heap h1 h2 s : set_heap h2 (set_heap h1 s) = set_heap h2 s.
Proof. done. Qed.

Lemma create_file_transition now name owner content s ok msg s' :
  wf s → create_file now name owner content s = Some ((ok, msg), s') →
  transition s ok s'.
Proof.
  intros [Hh Hr [d Hd] Hl] H. unfold create_file in H.
  pose proof (fresh_heap_ne _ _ _ Hd) as Hne.
  pose proof (fresh_heap_None (heap s)) as Hfresh.
  mcompute. destruct (dir_children d !! name) eqn:Hn; mcompute.
  - constructor.
  - rewrite set_heap_set_heap, (link_eq _ _ d) by by simplify_map_eq.
    by eapply t_create.
Qed.

Lemma create_directory_transition now name owner s ok msg s' :
  wf s → create_directory now name owner s = Some ((ok, msg), s') →
  transition s ok s'.
Proof.
  intros [Hh Hr [d Hd] Hl] H. unfold create_directory in H.
  pose proof (fresh_heap_ne _ _ _ Hd) as Hne.
  pose proof (fresh_heap_None (heap s)) as Hfresh.
  mcompute. destruct (dir_children d !! name) eqn:Hn; mcompute.
  - constructor.
  - case_bool_decide; mcompute; [constructor|].
    rewrite !set_heap_set_heap.
    rewrite insert_id by by simplify_map_eq.
    rewrite (link_eq _ _ d) by by simplify_map_eq.
    eapply t_create; try done. by intros x [= <-].
Qed.

Lemma wf_child_lookup s n b :
  wf s → holds (heap s) (current_directory s) n b →
  ∃ o, heap s !! b = Some o ∧ obj_name o = n.
Proof.
  intros Hwf Hb. destruct (wf_child _ (wf_wf_heap _ Hwf) _ _ _ Hb) as (o & ? & ? & _).
  eauto.
Qed.

Lemma write_file_transition now name content owner s ok msg s' :
  wf s → write_file now name content owner s = Some ((ok, msg), s') →
  transition s ok s'.
Proof.
  intros Hwf H. unfold write_file in H.
  destruct (wf_cwd _ Hwf) as [d Hd].
  destruct (dir_children d !! name) as [i|] eqn:Hn.
  - destruct (wf_child_lookup s name i Hwf) as (o & Ho & _); [by exists d|].
    mcompute. destruct o as [f|x]; mcompute; [|constructor].
    by eapply t_update.
  - eapply create_file_transition; [done|]. by mcompute.
Qed.

Lemma append_file_transition now name content s ok msg s' :
  wf s → append_file now name content s = Some ((ok, msg), s') →
  transition s ok s'.
Proof.
  intros Hwf H. unfold append_file in H.
  destruct (wf_cwd _ Hwf) as [d Hd].
  destruct (dir_children d !! name) as [i|] eqn:Hn.
  - destruct (wf_child_lookup s name i Hwf) as (o & Ho & _); [by exists d|].
    mcompute. destruct o as [f|x]; mcompute; [|constructor].
    by eapply t_update.
  - mcompute. constructor.
Qed.

Lemma delete_transition name s ok msg s' :
  wf s → delete name s = Some ((ok, msg), s') → transition s ok s'.
Proof.
  intros Hwf H. unfold delete in H.
  destruct (wf_cwd _ Hwf) as [d Hd].
  destruct (dir_children d !! name) as [i|] eqn:Hn.
  - destruct (wf_child_lookup s name i Hwf) as (o & Ho & _); [by exists d|].
    mcompute. destruct o as [f|x]; mcompute.
    + rewrite (unlink_eq _ _ d) by done. eapply t_delete. by exists d.
    + case_bool_decide; mcompute; [constructor|].
      rewrite (unlink_eq _ _ d) by done. eapply t_delete. by exists d.
  - mcompute. constructor.
Qed.

Lemma copy_file_transition now source destination owner s ok msg s' :
  wf s → copy_file now source destination owner s = Some ((ok, msg), s') →
  transition s ok s'.
Proof.
  intros Hwf H. unfold copy_file in H.
  destruct (wf_cwd _ Hwf) as [d Hd].
  pose proof (fresh_heap_ne _ _ _ Hd) as Hne.
  pose proof (fresh_heap_None (heap s)) as Hfresh.
  destruct (dir_children d !! source) as [i|] eqn:Hn.
  - destruct (wf_child_lookup s source i Hwf) as (o & Ho & _); [by exists d|].
    pose proof (fresh_heap_ne _ _ _ Ho) as Hne'.
    mcompute. destruct o as [f|x]; mcompute; [|constructor].
    destruct (dir_children d !! destination) eqn:Hdst; mcompute.
    + by apply t_temporary.
    + rewrite set_heap_set_heap, (link_eq _ _ d) by by simplify_map_eq.
      by eapply t_create.
  - mcompute. constructor.
Qed.

(** ** No cycle among the live entries *)

Lemma tc_inv_r {A} (R : relation A) x z : tc R x z → ∃ y, rtc R x y ∧ R y z.
Proof.
  induction 1 as [x z Hxz|x w z Hxw Hwz (y & Hwy & Hyz)].
  - exists x. split; [done|done].
  - exists y. split; [|done]. by eapply rtc_l.
Qed.

Lemma live_acyclic h r a :
  wf_heap h → is_root_at h r → rtc (edge h) r a → ¬ tc (edge h) a a.
Proof.
  intros Hwf Hr. revert a. apply rtc_ind_r.
  - intros (y & _ & (n & Hy))%tc_inv_r. by eapply root_not_held.
  - intros y z Hry (n & Hyz) IH (y' & Hzy' & (n' & Hy'z))%tc_inv_r.
    apply IH. rewrite (wf_owner _ Hwf _ _ _ _ _ Hyz Hy'z).
    eapply tc_rtc_r; [|done]. apply tc_once. by exists n'.
Qed.

Lemma cwd_not_own_child s n : wf s → ¬ holds (heap s) (current_directory s) n (current_directory s).
Proof.
  intros [Hh Hr Hc Hl] Hn.
  eapply live_acyclic; [done..|]. apply tc_once. by exists n.
Qed.

(** ** get_path and path resolution only read *)

Lemma get_path_rec_state frames a s p s' :
  get_path_rec frames a s = Some (p, s') → s' = s.
Proof.
  revert a s p s'. induction frames as [|k IH]; intros a s p s' H; [done|].
  simpl in H. minv.
  match goal with _ : context [dir_parent ?x] |- _ => destruct (dir_parent x) as [q|] end;
    minv; [|done].
  match goal with E : get_path_rec _ _ _ = Some _ |- _ => apply IH in E; subst end.
  case_decide; by minv.
Qed.

Lemma get_current_path_state s p s' : get_current_path s = Some (p, s') → s' = s.
Proof.
  unfold get_current_path. intros H. minv. by apply get_path_rec_state in H.
Qed.

Lemma changed_to_inv s r s' : changed_to s = Some (r, s') → fst r = true ∧ s' = s.
Proof.
  unfold changed_to. intros H. minv.
  match goal with E : get_current_path _ = Some _ |- _ =>
    apply get_current_path_state in E; subst end.
  done.
Qed.

Lemma navigate_parts_inv parts current s target s' :
  navigate_parts parts current s = Some (target, s') →
  s' = s ∧ ∀ t, target = Some t → rtc (edge (heap s)) current t.
Proof.
  revert current. induction parts as [|part parts IH]; intros current H; simpl in H.
  - minv. split; [done|]. by intros t [= <-].
  - minv.
    match goal with E : heap s !! current = Some ?o |- _ => destruct o as [f|d] end;
      simpl in H; minv; [done|]. simplify_eq.
    destruct (dir_children d !! part) as [i|] eqn:Hi; minv; [|done].
    apply IH in H as [-> Ht]. split; [done|]. intros t Hreach.
    eapply rtc_l; [|by apply Ht]. exists part, d. done.
Qed.

Lemma navigate_absolute_path_inv path s target s' :
  _navigate_absolute_path path s = Some (target, s') →
  s' = s ∧ ∀ t, target = Some t → live s t.
Proof.
  unfold _navigate_absolute_path, live. case_decide as Hp; intros H; minv.
  - split; [done|]. by intros t [= <-].
  - by apply navigate_parts_inv in H.
Qed.

Lemma live_parent s p d :
  wf s → heap s !! current_directory s = Some (ODirectory d) → dir_parent d = Some p →
  live s p.
Proof.
  intros [Hh Hr Hc Hl] Hd Hp. unfold live in *.
  apply rtc_inv_r in Hl as [Heq|(y & Hry & (n & Hy))].
  - destruct Hr as (dr & Hdr & Hnone). rewrite Heq in Hdr. congruence.
  - destruct (wf_child _ Hh _ _ _ Hy) as (o & Ho & _ & Hback).
    rewrite Hd in Ho. injection Ho as <-.
    rewrite (Hback d eq_refl) in Hp. by injection Hp as <-.
Qed.

Lemma change_directory_transition path s ok msg s' :
  wf s → change_directory path s = Some ((ok, msg), s') → transition s ok s'.
Proof.
  intros Hwf H. unfold change_directory in H.
  pose proof Hwf as [Hh Hr Hc Hl].
  repeat case_decide.
  - minv. apply t_chdir; [|by apply rtc_refl].
    destruct Hr as (dr & Hdr & _). by exists dr.
  - minv.
    match goal with E : heap s !! current_directory s = Some (ODirectory ?d) |- _ =>
      destruct (dir_parent d) as [p|] eqn:Hp end; minv; [|constructor].
    apply changed_to_inv in H as [Hok ->]. simpl in Hok. subst ok.
    apply t_chdir.
    + by eapply wf_parent.
    + by eapply live_parent.
  - minv.
    match goal with E : get_current_path _ = Some _ |- _ =>
      apply get_current_path_state in E; subst end.
    constructor.
  - destruct (PyStr.startswith "/" path).
    + minv.
      match goal with E : _navigate_absolute_path _ _ = Some _ |- _ =>
        apply navigate_absolute_path_inv in E as [-> Hlive] end.
      match goal with E : context [isinstance_Directory] |- _ =>
        match type of E with context [match ?x with _ => _ end] =>
          destruct x as [t|] end end; minv; [|constructor].
      match goal with E : heap s !! t = Some ?o |- _ => destruct o as [f|dt] end;
        simpl in H; minv; [constructor|].
      apply changed_to_inv in H as [Hok ->]. simpl in Hok. subst ok.
      apply t_chdir; [by exists dt|by apply Hlive].
    + minv.
      match goal with E : heap s !! current_directory s = Some (ODirectory ?d) |- _ =>
        destruct (dir_children d !! path) as [t|] eqn:Ht end; minv; [|constructor].
      match goal with E : heap s !! t = Some ?o |- _ => destruct o as [f|dt] end;
        simpl in H; minv; [constructor|].
      apply changed_to_inv in H as [Hok ->]. simpl in Hok. subst ok.
      apply t_chdir; [by exists dt|].
      eapply rtc_r; [done|]. eexists path, _. done.
Qed.

Lemma move_transition source destination s ok msg s' :
  wf s → move source destination s = Some ((ok, msg), s') → transition s ok s'.
Proof.
  intros Hwf H. unfold move in H.
  destruct (wf_cwd _ Hwf) as [d Hd].
  destruct (dir_children d !! source) as [x|] eqn:Hx; cycle 1.
  { mcompute. constructor. }
  destruct (dir_children d !! destination) as [y|] eqn:Hy; cycle 1.
  { mcompute. constructor. }
  destruct (wf_child_lookup s source x Hwf) as (ox & Hox & Hnx); [by exists d|].
  destruct (wf_child_lookup s destination y Hwf) as (oy & Hoy & Hny); [by exists d|].
  assert (x ≠ current_directory s) as Hxc.
  { intros ->. eapply cwd_not_own_child; [done|]. by exists d. }
  destruct oy as [fy|dy].
  { mcompute. constructor. }
  destruct (dir_children dy !! source) as [z|] eqn:Hz.
  { mcompute. constructor. }
  assert (y ≠ current_directory s) as Hyc.
  { intros ->. congruence. }
  assert (transition s true
    (set_heap (h_link y source x (h_set_parent x y
       (h_unlink (current_directory s) source (heap s)))) s)) as Ht.
  { eapply t_move; [by exists d|by exists d|by exists dy|].
    intros z (dy' & Hdy' & Hz'). congruence. }
  assert (dir_children dy !! obj_name ox = None) as Hz' by by rewrite Hnx.
  mcompute. destruct ox as [fx|dx]; mcompute.
  - rewrite !set_heap_set_heap.
    replace (<[y:=_]> _) with (h_link y (file_name fx) x (h_set_parent x y
       (h_unlink (current_directory s) (file_name fx) (heap s)))); [done|].
    unfold h_link, h_set_parent, h_unlink. apply map_eq. intros k.
    rewrite !lookup_alter, !lookup_insert.
    repeat case_decide; simplify_eq; rewrite ?Hd, ?Hoy, ?Hox; done.
  - destruct (decide (x = y)) as [->|Hxy]; mcompute.
    + rewrite !set_heap_set_heap.
      replace (<[y:=_]> _) with (h_link y (dir_name dx) y (h_set_parent y y
         (h_unlink (current_directory s) (dir_name dx) (heap s)))); [done|].
      unfold h_link, h_set_parent, h_unlink. apply map_eq. intros k.
      rewrite !lookup_alter, !lookup_insert.
      repeat case_decide; simplify_eq; rewrite ?Hd, ?Hox; done.
    + rewrite !set_heap_set_heap.
      replace (<[x:=_]> _) with (h_link y (dir_name dx) x (h_set_parent x y
         (h_unlink (current_directory s) (dir_name dx) (heap s)))); [done|].
      unfold h_link, h_set_parent, h_unlink. apply map_eq. intros k.
      rewrite !lookup_alter, !lookup_insert.
      repeat case_decide; simplify_eq; rewrite ?Hd, ?Hoy, ?Hox; done.
Qed.

Theorem exec_transition now c s ok msg s' :
  wf s → exec now c s = Some ((ok, msg), s') → transition s ok s'.
Proof.
  intros Hwf H. destruct c; simpl in H.
  - by eapply create_file_transition.
  - by eapply create_directory_transition.
  - by eapply change_directory_transition.
  - by eapply write_file_transition.
  - by eapply append_file_transition.
  - by eapply delete_transition.
  - by eapply move_transition.
  - by eapply copy_file_transition.
Qed.

Lemma FileSystem_init_wf owner t : wf (FileSystem_init owner t).
Proof.
  unfold FileSystem_init. split; cbn [heap root current_directory].
  - split.
    + intros a n b (d & Hd & Hn). apply lookup_singleton_Some in Hd as [_ [= <-]]. done.
    + intros a n a' n' b (d & Hd & Hn). apply lookup_singleton_Some in Hd as [_ [= <-]]. done.
    + intros a d p Hd Hp. apply lookup_singleton_Some in Hd as [_ [= <-]]. done.
  - eexists. by rewrite lookup_singleton_eq.
  - eexists. by rewrite lookup_singleton_eq.
  - apply rtc_refl.
Qed.

Theorem reachable_wf s : reachable s → wf s.
Proof.
  induction 1 as [owner t|s now c [ok msg] s' _ IH Hstep].
  - apply FileSystem_init_wf.
  - eapply transition_wf; [done|]. by eapply exec_transition.
Qed.

(** ** Round trip of write and read *)

Lemma reachable_exec_all now cs s rs s' :
  reachable s → exec_all now cs s = Some (rs, s') → reachable s'.
Proof.
  revert s rs. induction cs as [|c cs IH]; intros s rs Hs H; simpl in H.
  - by injection H as _ <-.
  - destruct (exec now c s) as [[r s1]|] eqn:Hc; [|done].
    destruct (exec_all now cs s1) as [[rs' s2]|] eqn:Hcs; [|done].
    injection H as _ <-. eapply IH; [|done]. by eapply reachable_step.
Qed.

(** C7. Whenever [write_file(f, s, owner)] answers success, [read_file(f)] in
    the session it leaves answers [(True, s)]: for every name, every content,
    every owner and every session, with the file created or overwritten. *)
Theorem write_file_then_read_file now name content owner s msg s' :
  write_file now name content owner s = Some ((true, msg), s') →
  read_file name s' = Some ((true, content), s').
Proof.
  unfold write_file. intros H. minv.
  match goal with E : heap s !! current_directory s = Some (ODirectory ?d) |- _ =>
    rename d into cwd; rename E into Hcwd end.
  pose proof (fresh_heap_ne _ _ _ Hcwd) as Hne.
  pose proof (fresh_heap_None (heap s)) as Hfresh.
  destruct (dir_children cwd !! name) as [i|] eqn:Hi.
  - minv.
    match goal with E : heap s !! i = Some ?o |- _ => destruct o as [f|x] end;
      simpl in H; minv.
    unfold read_file. mcompute.
    assert (current_directory s ≠ i) as Hci by congruence.
    by mcompute.
  - unfold create_file in H. mcompute. unfold read_file. by mcompute.
Qed.

Lemma write_file_then_read_file_witness :
  ∃ s', write_file tick "notes.txt" "hello world" "alice" (FileSystem_init "alice" 0)
          = Some ((true, "File 'notes.txt' created successfully"), s') ∧
        read_file "notes.txt" s' = Some ((true, "hello world"), s').
Proof.
  eexists. split; [vm_compute; reflexivity|].
  apply (write_file_then_read_file tick "notes.txt" "hello world" "alice"
           (FileSystem_init "alice" 0) "File 'notes.txt' created successfully").
  vm_compute. reflexivity.
Defined.

Lemma after_reachable cs : reachable (after cs).
Proof.
  unfold after. destruct (exec_all tick cs session_alice) as [[rs s]|] eqn:H.
  - eapply reachable_exec_all; [|done]. apply reachable_init.
  - apply reachable_init.
Qed.

(** ** Append *)

(** C8. For a file that is a child of the current directory with payload [a],
    [append_file] under the file's name answers success, [read_file] then
    answers [(True, a + b)], and the size attribute of the file object is the
    length of its new payload. *)
Theorem append_file_then_read_file now s n i f b :
  reachable s →
  holds (heap s) (current_directory s) n i →
  heap s !! i = Some (OFile f) →
  ∃ s' f',
    append_file now (file_name f) b s
      = Some ((true, "Content appended to '" +:+ file_name f +:+ "'"), s') ∧
    read_file (file_name f) s' = Some ((true, file_content f +:+ b), s') ∧
    heap s' !! i = Some (OFile f') ∧
    file_content f' = file_content f +:+ b ∧
    file_size f' = String.length (file_content f').
Proof.
  intros Hwf%reachable_wf Hn Hi.
  destruct (wf_child _ (wf_wf_heap _ Hwf) _ _ _ Hn) as (o & Ho & Hname & _).
  rewrite Hi in Ho. injection Ho as <-. simpl in Hname. subst n.
  destruct Hn as (d & Hd & Hn).
  assert (current_directory s ≠ i) as Hci by congruence.
  set (f' := {| file_name := file_name f; file_content := file_content f +:+ b;
               file_owner := file_owner f; file_created_at := file_created_at f;
               file_modified_at := now 0;
               file_size := String.length (file_content f +:+ b) |}).
  exists (set_heap (<[i := OFile f']> (heap s)) s), f'. split_and!.
  - unfold append_file. by mcompute.
  - unfold read_file. by mcompute.
  - cbn [heap set_heap]. apply lookup_insert_eq.
  - done.
  - done.
Qed.

Lemma append_file_then_read_file_witness :
  ∃ s', append_file tick "notes.txt" " world" (after [CreateFile "notes.txt" "alice" "hello"])
          = Some ((true, "Content appended to 'notes.txt'"), s') ∧
        read_file "notes.txt" s' = Some ((true, "hello world"), s').
Proof.
  destruct (append_file_then_read_file tick
              (after [CreateFile "notes.txt" "alice" "hello"]) "notes.txt" 1
              (mkFile "notes.txt" "hello" "alice" 0 1 5) " world")
    as (s' & f' & Happ & Hread & _).
  - apply after_reachable.
  - vm_compute. eexists. split; reflexivity.
  - vm_compute. reflexivity.
  - exists s'. split; [exact Happ|exact Hread].
Defined.

(** ** Deleting a directory *)

Lemma live_in_heap s a : wf s → live s a → is_Some (heap s !! a).
Proof.
  intros Hwf Ha. apply rtc_inv_r in Ha as [<-|(y & _ & (n & Hy))].
  - destruct (wf_root _ Hwf) as (d & -> & _). eauto.
  - destruct (wf_child _ (wf_wf_heap _ Hwf) _ _ _ Hy) as (o & -> & _). eauto.
Qed.

(** C6. For a directory D that is a child of the current directory: with at
    least one child, [delete] under D's name answers that the directory is
    not empty and changes nothing, so D keeps its children; with no child,
    [delete] answers success and D is no longer reachable from the root. *)
Theorem delete_directory s n i D :
  reachable s →
  holds (heap s) (current_directory s) n i →
  heap s !! i = Some (ODirectory D) →
  (dir_children D ≠ ∅ →
     delete (dir_name D) s
       = Some ((false, "Directory '" +:+ dir_name D +:+ "' is not empty"), s)) ∧
  (dir_children D = ∅ →
     ∃ s', delete (dir_name D) s
             = Some ((true, "'" +:+ dir_name D +:+ "' deleted successfully"), s') ∧
           ¬ live s' i).
Proof.
  intros Hwf%reachable_wf Hn Hi.
  destruct (wf_child _ (wf_wf_heap _ Hwf) _ _ _ Hn) as (o & Ho & Hname & _).
  rewrite Hi in Ho. injection Ho as <-. simpl in Hname. subst n.
  pose proof Hn as (d & Hd & Hdn).
  split.
  - intros Hne. unfold delete. mcompute.
    rewrite bool_decide_true; [done|].
    apply map_size_non_empty_iff in Hne. lia.
  - intros Hempty.
    exists (set_heap (h_unlink (current_directory s) (dir_name D) (heap s)) s). split.
    + unfold delete. mcompute. rewrite Hempty, bool_decide_false by (rewrite map_size_empty; lia).
      mcompute. by rewrite (unlink_eq _ _ d).
    + unfold live. cbn [heap root set_heap].
      intros [Heq|(y & _ & (m & [Hy Hm]%holds_unlink))]%rtc_inv_r.
      * eapply root_not_held; [apply Hwf|apply Hwf|]. by rewrite Heq.
      * destruct (holds_unique _ _ _ _ _ _ (wf_wf_heap _ Hwf) Hy Hn) as [-> ->].
        by apply Hm.
Qed.

Lemma delete_directory_witness :
  delete "docs" (after [CreateDirectory "docs" "alice"; ChangeDirectory "docs";
                        CreateFile "notes.txt" "alice" EmptyString; ChangeDirectory ".."])
  = Some ((false, "Directory 'docs' is not empty"),
          after [CreateDirectory "docs" "alice"; ChangeDirectory "docs";
                 CreateFile "notes.txt" "alice" EmptyString; ChangeDirectory ".."]).
Proof.
  apply (delete_directory _ "docs" 1
           {| dir_name := "docs"; dir_owner := "alice"; dir_parent := Some 0;
              dir_children := {[ "notes.txt" := 2 ]}; dir_created_at := 0 |}).
  - apply after_reachable.
  - vm_compute. eexists. split; reflexivity.
  - vm_compute. reflexivity.
  - vm_compute. discriminate.
Defined.

(** ** Kind safety and the parent of the root *)

(** [change_directory] with a relative name that is no child of the current
    directory answers [cd_not_found]. *)
Lemma change_directory_missing s d path :
  heap s !! current_directory s = Some (ODirectory d) →
  path ≠ "/" → path ≠ ".." → path ≠ "." → PyStr.startswith "/" path = false →
  dir_children d !! path = None →
  change_directory path s = Some (cd_not_found path, s).
Proof.
  intros Hd H1 H2 H3 H4 Hn. unfold change_directory, cd_not_found.
  rewrite !decide_False, H4 by done. by mcompute.
Qed.

(** C3, as the code has it. With the cursor on the root, [change_directory("..")]
    leaves the session as it is and answers the failure
    [(False, "Already at root directory")]; the answer differs from the one
    for a path that names nothing. *)
Theorem change_directory_parent_at_root s :
  reachable s →
  current_directory s = root s →
  change_directory ".." s = Some ((false, "Already at root directory"), s) ∧
  (false, "Already at root directory") ≠ cd_not_found "..".
Proof.
  intros Hwf%reachable_wf Hroot. split; [|done].
  destruct (wf_root _ Hwf) as (d & Hd & Hp). rewrite <- Hroot in Hd.
  unfold change_directory. rewrite decide_False, decide_True by done.
  mcompute. rewrite ?Hp. done.
Qed.

Lemma change_directory_parent_at_root_witness :
  change_directory ".." session_alice
  = Some ((false, "Already at root directory"), session_alice).
Proof.
  apply (change_directory_parent_at_root session_alice).
  - apply reachable_init.
  - reflexivity.
Defined.

(** C3 as the spec words it fails: on a fresh session the answer is not a
    success. *)
Lemma change_directory_parent_at_root_not_success :
  ¬ ∃ msg s', change_directory ".." session_alice = Some ((true, msg), s').
Proof. intros (msg & s' & H). vm_compute in H. discriminate H. Qed.




(** ** The names "." and ".." *)

(** The session [create_file] leaves when the name is free. *)
Lemma create_file_fresh now name owner content s d :
  heap s !! current_directory s = Some (ODirectory d) →
  dir_children d !! name = None →
  ∃ s' i,
    create_file now name owner content s
      = Some ((true, "File '" +:+ name +:+ "' created successfully"), s') ∧
    holds (heap s') (current_directory s') name i ∧
    heap s' !! i = Some (OFile (mkFile name content owner (now 0) (now 1)
                                  (String.length content))).
Proof.
  intros Hd Hn.
  pose proof (fresh_heap_ne _ _ _ Hd) as Hne.
  eexists _, (fresh (dom (heap s))). split_and!.
  - unfold create_file. by mcompute.
  - cbn [heap current_directory set_heap]. eexists. split.
    + apply lookup_insert_eq.
    + simpl. apply lookup_insert_eq.
  - cbn [heap set_heap]. rewrite lookup_insert_ne by done. apply lookup_insert_eq.
Qed.

(** C9, as the code has it. For a name that is "." or "..": when the current
    directory has no child of that name, [create_directory] answers that the
    name is invalid and changes nothing, while [create_file] succeeds and
    puts a file of that name among the children, and so does [write_file];
    when the current directory has a child of that name, [create_directory]
    answers that it already exists. *)
Theorem dot_names now s d n owner content :
  n ∈ ["."; ".."] →
  heap s !! current_directory s = Some (ODirectory d) →
  (dir_children d !! n = None →
     create_directory now n owner s = Some ((false, "Invalid directory name"), s) ∧
     (∃ s' i f,
        create_file now n owner content s
          = Some ((true, "File '" +:+ n +:+ "' created successfully"), s') ∧
        holds (heap s') (current_directory s') n i ∧
        heap s' !! i = Some (OFile f) ∧ file_name f = n ∧ file_content f = content) ∧
     (∃ s' i f,
        write_file now n content owner s
          = Some ((true, "File '" +:+ n +:+ "' created successfully"), s') ∧
        holds (heap s') (current_directory s') n i ∧
        heap s' !! i = Some (OFile f) ∧ file_name f = n ∧ file_content f = content)) ∧
  (is_Some (dir_children d !! n) →
     create_directory now n owner s
       = Some ((false, "File or directory '" +:+ n +:+ "' already exists"), s)).
Proof.
  intros Hdot Hd. split.
  - intros Hn.
    destruct (create_file_fresh now n owner content s d Hd Hn) as (s' & i & Hc & Hh & Hi).
    split_and!.
    + unfold create_directory. mcompute. by rewrite bool_decide_true.
    + exists s', i. eexists. by split_and!.
    + exists s', i. eexists. split_and!; try done.
      unfold write_file. rewrite <- Hc. by mcompute.
  - intros [i Hn]. unfold create_directory. by mcompute.
Qed.

Lemma dot_names_witness :
  create_directory tick ".." "alice" session_alice
  = Some ((false, "Invalid directory name"), session_alice).
Proof.
  eapply (dot_names tick session_alice _ ".." "alice" EmptyString).
  - repeat constructor.
  - vm_compute. reflexivity.
  - vm_compute. reflexivity.
Defined.

(** C9 as the spec words it fails: once a file named "." is there,
    [create_directory(".")] is refused as a name that exists, not as an
    invalid one. *)
Lemma create_directory_dot_already_exists :
  create_directory tick "." "alice" (after [CreateFile "." "alice" EmptyString])
    = Some ((false, "File or directory '.' already exists"),
            after [CreateFile "." "alice" EmptyString]) ∧
  create_directory tick "." "alice" (after [CreateFile "." "alice" EmptyString])
    ≠ Some ((false, "Invalid directory name"), after [CreateFile "." "alice" EmptyString]).
Proof. split; [vm_compute; reflexivity|]. vm_compute. discriminate. Qed.

(** ** Resolution of absolute paths *)

Lemma spec_walk_walks h segments a t :
  spec_walk h segments a = Some t ↔ walks h a segments t.
Proof.
  revert a. induction segments as [|seg rest IH]; intros a; simpl.
  - split; [intros [= <-]; constructor|by inversion 1].
  - split.
    + destruct (h !! a) as [[f|d]|] eqn:Ha; [done| |done].
      destruct (dir_children d !! seg) as [b|] eqn:Hb; [|done].
      intros Hw%IH. econstructor; [|done]. by exists d.
    + inversion 1 as [|? ? b ? ? (d & Hd & Hb) Hw]; subst.
      rewrite Hd, Hb. by apply IH.
Qed.

(** A walk that finds nothing stopped at a segment that is missing or that
    was looked up in something that is not a directory. *)
Lemma spec_walk_None h segments a :
  spec_walk h segments a = None ↔
  ∃ before segment rest b,
    segments = (before ++ segment :: rest)%list ∧ walks h a before b ∧
    ∀ c, ¬ holds h b segment c.
Proof.
  revert a. induction segments as [|seg rest IH]; intros a; simpl.
  - split; [done|]. intros (dn & sg & rs & b & Heq & _). by destruct dn.
  - split.
    + intros H.
      destruct (h !! a) as [[f|d]|] eqn:Ha.
      * exists [], seg, rest, a. split_and!; [done|constructor|].
        intros c (d & Hd & _). congruence.
      * destruct (dir_children d !! seg) as [c|] eqn:Hc.
        -- apply IH in H as (dn & sg & rs & b & -> & Hw & Hno).
           exists (seg :: dn), sg, rs, b. split_and!; [done| |done].
           econstructor; [|done]. by exists d.
        -- exists [], seg, rest, a. split_and!; [done|constructor|].
           intros c (d' & Hd' & Hc'). congruence.
      * exists [], seg, rest, a. split_and!; [done|constructor|].
        intros c (d & Hd & _). congruence.
    + intros (dn & sg & rs & b & Heq & Hw & Hno).
      destruct dn as [|seg' dn]; simpl in Heq; injection Heq as Hseg Hrest; subst.
      * inversion Hw; subst.
        destruct (h !! b) as [[f|d]|] eqn:Hb; [done| |done].
        destruct (dir_children d !! sg) as [c|] eqn:Hc; [|done].
        destruct (Hno c). by exists d.
      * inversion Hw as [|? ? c ? ? (d & Hd & Hc) Hw']; subst.
        rewrite Hd, Hc. apply IH. eauto 10.
Qed.

Lemma navigate_parts_spec_walk s parts current :
  wf s → is_Some (heap s !! current) →
  navigate_parts parts current s = Some (spec_walk (heap s) parts current, s).
Proof.
  intros Hwf. revert current.
  induction parts as [|part parts IH]; intros current [o Ho]; simpl; [done|].
  rewrite Ho. unfold bind at 1. rewrite (isinstance_Directory_eq _ _ _ Ho).
  destruct o as [f|d]; simpl; [done|].
  unfold bind. rewrite (get_eq _ _ _ _ Ho).
  destruct (dir_children d !! part) as [i|] eqn:Hi; [|done].
  apply IH.
  destruct (wf_child _ (wf_wf_heap _ Hwf) current part i) as (oi & -> & _);
    [by exists d|eauto].
Qed.

(** C5, as the code has it. For a path other than "/" itself,
    [_navigate_absolute_path] strips the slashes at both ends of the path,
    splits the rest on "/" and walks from the root through children lookups;
    it finds nothing exactly when some segment is missing or is looked up in
    an entry that is not a directory; and it leaves the session as it is. *)
Theorem navigate_absolute_path_resolves s path :
  reachable s →
  path ≠ "/" →
  ∃ target,
    _navigate_absolute_path path s = Some (target, s) ∧
    target = spec_walk (heap s) (path_segments path) (root s) ∧
    (∀ t, target = Some t ↔ walks (heap s) (root s) (path_segments path) t) ∧
    (target = None ↔
       ∃ before segment rest b,
         path_segments path = (before ++ segment :: rest)%list ∧
         walks (heap s) (root s) before b ∧ ∀ c, ¬ holds (heap s) b segment c).
Proof.
  intros Hwf%reachable_wf Hpath.
  exists (spec_walk (heap s) (path_segments path) (root s)). split_and!.
  - unfold _navigate_absolute_path. rewrite decide_False by done.
    unfold bind, get_root. apply navigate_parts_spec_walk; [done|].
    destruct (wf_root _ Hwf) as (d & -> & _). eauto.
  - done.
  - intros t. apply spec_walk_walks.
  - apply spec_walk_None.
Qed.

Lemma navigate_absolute_path_resolves_witness :
  _navigate_absolute_path "/docs/"
    (after [CreateDirectory "docs" "alice"])
  = Some (Some 1, after [CreateDirectory "docs" "alice"]).
Proof.
  destruct (navigate_absolute_path_resolves (after [CreateDirectory "docs" "alice"]) "/docs/")
    as (target & Hnav & Htarget & _).
  - apply after_reachable.
  - discriminate.
  - rewrite Hnav, Htarget. vm_compute. reflexivity.
Defined.

(** The path "/" is the root, whatever the root holds. *)
Lemma navigate_absolute_path_root s :
  _navigate_absolute_path "/" s = Some (Some (root s), s).
Proof. done. Qed.

(** C5 as the spec words it fails: with only the leading slashes stripped,
    the path "/docs/" has a last, empty segment that names nothing, yet the
    code resolves the path to the directory. *)
Lemma navigate_absolute_path_trailing_slash :
  _navigate_absolute_path "/docs/" (after [CreateDirectory "docs" "alice"])
    = Some (Some 1, after [CreateDirectory "docs" "alice"]) ∧
  spec_resolve (heap (after [CreateDirectory "docs" "alice"]))
               (root (after [CreateDirectory "docs" "alice"])) "/docs/" = None.
Proof. split; vm_compute; reflexivity. Qed.

(** ** A failing operation changes nothing *)

Lemma live_insert_fresh s a o x :
  heap s !! a = None → childless o →
  live (set_heap (<[a := o]> (heap s)) s) x ↔ live s x.
Proof.
  intros Ha Ho. unfold live. cbn [heap root set_heap].
  split; apply rtc_subrel; intros y z (n & Hn); exists n;
    by apply (holds_insert_fresh _ _ _ _ _ _ Ha Ho).
Qed.

(** C2. When a namespace operation answers failure, the session is as it was:
    the same root, the same cursor, every object unchanged, and the same
    entries reachable from the root.  The session is the very same value, or
    (when [copy_file] finds its destination taken) its heap holds in addition
    the [File] the call had built, at an address no entry refers to. *)
Theorem failure_changes_nothing now c s msg s' :
  reachable s →
  exec now c s = Some ((false, msg), s') →
  root s' = root s ∧
  current_directory s' = current_directory s ∧
  (∀ a o, heap s !! a = Some o → heap s' !! a = Some o) ∧
  (∀ a, live s' a ↔ live s a) ∧
  (s' = s ∨
   ∃ a f, heap s !! a = None ∧ s' = set_heap (<[a := OFile f]> (heap s)) s ∧
          ∀ x n, ¬ holds (heap s') x n a).
Proof.
  intros Hwf%reachable_wf Hexec.
  pose proof (exec_transition _ _ _ _ _ _ Hwf Hexec) as Ht.
  inversion Ht as [ok| a f Ha | | | | | ]; subst.
  - split_and!; try done. by left.
  - cbn [heap root current_directory set_heap]. split_and!; try done.
    + intros x o Hx. rewrite lookup_insert_ne; [done|]. congruence.
    + intros x. by apply live_insert_fresh.
    + right. exists a, f. split_and!; [done..|].
      intros x n Hx. apply holds_insert_fresh in Hx; [|done..].
      destruct (wf_child _ (wf_wf_heap _ Hwf) _ _ _ Hx) as (o & Ho & _). congruence.
Qed.

Lemma failure_changes_nothing_witness :
  heap (after [CreateFile "a" "alice" "x"; CreateFile "b" "alice" "y";
               CopyFile "a" "b" "alice"]) !! 2
  = Some (OFile (mkFile "b" "y" "alice" 0 1 1)).
Proof.
  destruct (failure_changes_nothing tick (CopyFile "a" "b" "alice")
              (after [CreateFile "a" "alice" "x"; CreateFile "b" "alice" "y"])
              "File 'b' already exists"
              (after [CreateFile "a" "alice" "x"; CreateFile "b" "alice" "y";
                      CopyFile "a" "b" "alice"]))
    as (_ & _ & Hsame & _).
  - apply after_reachable.
  - vm_compute. reflexivity.
  - apply Hsame. vm_compute. reflexivity.
Defined.

(** ** The entries reachable from the root form a tree *)

Theorem live_entries_form_tree s :
  reachable s →
  is_root_at (heap s) (root s) ∧
  (∀ a, live s a → ¬ tc (edge (heap s)) a a) ∧
  (∀ a d, live s a → a ≠ root s → heap s !! a = Some (ODirectory d) →
     ∃ p, dir_parent d = Some p ∧ live s p ∧ edge (heap s) p a ∧
          ∀ p', edge (heap s) p' a → p' = p).
Proof.
  intros [Hh Hr Hc Hl]%reachable_wf. split_and!.
  - done.
  - intros a Ha. by eapply live_acyclic.
  - intros a d Ha Hne Hd.
    apply rtc_inv_r in Ha as [Heq|(p & Hp & (n & Hn))]; [by destruct Hne|].
    destruct (wf_child _ Hh _ _ _ Hn) as (o & Ho & _ & Hback).
    rewrite Hd in Ho. injection Ho as <-.
    exists p. split_and!; [by apply Hback|done|by exists n|].
    intros p' (n' & Hn'). by eapply wf_owner.
Qed.

(** The same [mv d d] on a directory that is not empty: the answer is
    success, and neither the directory nor the file in it can be reached from
    the root any more. *)
Example move_into_itself_loses_entries :
  fst <$> exec_all tick
    [CreateDirectory "d" "alice"; ChangeDirectory "d";
     CreateFile "notes.txt" "alice" "kept?"; ChangeDirectory "..";
     Move "d" "d"; ChangeDirectory "d"; ChangeDirectory "/d"]
    session_alice
  = Some [(true, "Directory 'd' created successfully");
          (true, "Changed to /d");
          (true, "File 'notes.txt' created successfully");
          (true, "Changed to /");
          (true, "Moved 'd' to 'd'");
          (false, "Directory 'd' not found");
          (false, "Directory '/d' not found")].
Proof. vm_compute. reflexivity. Qed.

(** C1 fails on [move] with a directory as its own destination.  After
    [mkdir d] and [mv d d], both answered with success, the directory object
    is its own child and its own parent, the root no longer holds it, and
    the session is a reachable one. *)
Theorem move_directory_into_itself :
  exec_all tick [CreateDirectory "d" "alice"; Move "d" "d"] session_alice
    = Some ([(true, "Directory 'd' created successfully"); (true, "Moved 'd' to 'd'")],
            after [CreateDirectory "d" "alice"; Move "d" "d"]) ∧
  reachable (after [CreateDirectory "d" "alice"; Move "d" "d"]) ∧
  holds (heap (after [CreateDirectory "d" "alice"; Move "d" "d"])) 1 "d" 1 ∧
  tc (edge (heap (after [CreateDirectory "d" "alice"; Move "d" "d"]))) 1 1 ∧
  (∃ D, heap (after [CreateDirectory "d" "alice"; Move "d" "d"]) !! 1 = Some (ODirectory D) ∧
        dir_parent D = Some 1) ∧
  ¬ live (after [CreateDirectory "d" "alice"; Move "d" "d"]) 1.
Proof.
  assert (holds (heap (after [CreateDirectory "d" "alice"; Move "d" "d"])) 1 "d" 1) as Hself.
  { vm_compute. eexists. split; reflexivity. }
  assert (tc (edge (heap (after [CreateDirectory "d" "alice"; Move "d" "d"]))) 1 1) as Hcycle.
  { apply tc_once. by exists "d". }
  split_and!.
  - vm_compute. reflexivity.
  - apply after_reachable.
  - done.
  - done.
  - vm_compute. eexists. split; reflexivity.
  - intros Hlive.
    destruct (live_entries_form_tree _
                (after_reachable [CreateDirectory "d" "alice"; Move "d" "d"]))
      as (_ & Hacyclic & _).
    by apply (Hacyclic 1).
Qed.

(** ** The logged_in flag *)

(** In a reachable registry every registered name refers to a user object. *)
Lemma nfs_reachable_closed nfs name a :
  nfs_reachable nfs → users nfs !! name = Some a → is_Some (user_heap nfs !! a).
Proof.
  intros Hr. revert name a.
  induction Hr as [|nfs now c r nfs' _ IH Hstep]; intros name a Ha; [done|].
  destruct c as [n l|n|]; simpl in Hstep.
  - unfold create_user in Hstep. destruct (users nfs !! n) eqn:Hn.
    + injection Hstep as _ <-. eauto.
    + injection Hstep as _ <-. cbn [users user_heap] in *.
      destruct (decide (n = name)) as [->|Hne].
      * rewrite lookup_insert_eq in Ha. injection Ha as <-.
        rewrite lookup_insert_eq. eauto.
      * rewrite lookup_insert_ne in Ha by done.
        destruct (IH _ _ Ha) as [u Hu]. exists u.
        rewrite lookup_insert_ne; [done|]. intros <-.
        by rewrite (not_elem_of_dom_1 _ _ (is_fresh (dom (user_heap nfs)))) in Hu.
  - unfold login in Hstep. destruct (users nfs !! n) as [b|] eqn:Hn.
    + destruct (user_heap nfs !! b) as [u|] eqn:Hb; [|done].
      injection Hstep as _ <-. cbn [users user_heap] in *.
      destruct (IH _ _ Ha) as [u' Hu'].
      destruct (decide (b = a)) as [->|Hne].
      * rewrite lookup_insert_eq. eauto.
      * rewrite lookup_insert_ne by done. eauto.
    + injection Hstep as _ <-. eauto.
  - unfold logout in Hstep. destruct (current_user nfs) as [b|] eqn:Hc.
    + destruct (user_heap nfs !! b) as [u|] eqn:Hb; [|done].
      injection Hstep as _ <-. cbn [users user_heap] in *.
      destruct (IH _ _ Ha) as [u' Hu'].
      destruct (decide (b = a)) as [->|Hne].
      * rewrite lookup_insert_eq. eauto.
      * rewrite lookup_insert_ne by done. eauto.
    + injection Hstep as _ <-. eauto.
Qed.

(** Two registered names never refer to the same user object. *)
Lemma nfs_reachable_inj nfs a b u :
  nfs_reachable nfs → users nfs !! a = Some u → users nfs !! b = Some u → a = b.
Proof.
  intros Hr. revert a b u.
  induction Hr as [|nfs now c r nfs' Hr IH Hstep]; intros a b u Ha Hb; [done|].
  destruct c as [n l|n|]; simpl in Hstep.
  - unfold create_user in Hstep. destruct (users nfs !! n) eqn:Hn.
    + injection Hstep as _ <-. eauto.
    + injection Hstep as _ <-. cbn [users] in *.
      assert (∀ x, users nfs !! x ≠ Some (fresh (dom (user_heap nfs)))) as Hfresh.
      { intros x Hx. destruct (nfs_reachable_closed _ _ _ Hr Hx) as [y Hy].
        by rewrite (not_elem_of_dom_1 _ _ (is_fresh (dom (user_heap nfs)))) in Hy. }
      destruct (decide (n = a)) as [Hna|Hna], (decide (n = b)) as [Hnb|Hnb];
        [congruence|subst a|subst b|].
      * rewrite lookup_insert_eq in Ha. rewrite lookup_insert_ne in Hb by done.
        injection Ha as <-. by destruct (Hfresh b).
      * rewrite lookup_insert_eq in Hb. rewrite lookup_insert_ne in Ha by done.
        injection Hb as <-. by destruct (Hfresh a).
      * rewrite lookup_insert_ne in Ha, Hb by done. eauto.
  - unfold login in Hstep. destruct (users nfs !! n) as [x|] eqn:Hn.
    + destruct (user_heap nfs !! x); [|done]. injection Hstep as _ <-. eauto.
    + injection Hstep as _ <-. eauto.
  - unfold logout in Hstep. destruct (current_user nfs) as [x|].
    + destruct (user_heap nfs !! x); [|done]. injection Hstep as _ <-. eauto.
    + injection Hstep as _ <-. eauto.
Qed.

Lemma nfs_reachable_current nfs a :
  nfs_reachable nfs → current_user nfs = Some a → is_Some (user_heap nfs !! a).
Proof.
  intros Hr. revert a.
  induction Hr as [|nfs now c r nfs' Hr IH Hstep]; intros a Ha; [done|].
  destruct c as [n l|n|]; simpl in Hstep.
  - unfold create_user in Hstep. destruct (users nfs !! n) eqn:Hn.
    + injection Hstep as _ <-. eauto.
    + injection Hstep as _ <-. cbn [user_heap current_user] in *.
      destruct (IH _ Ha) as [x Hx].
      destruct (decide (fresh (dom (user_heap nfs)) = a)) as [<-|Hne].
      * rewrite lookup_insert_eq. eauto.
      * rewrite lookup_insert_ne by done. eauto.
  - unfold login in Hstep. destruct (users nfs !! n) as [b|] eqn:Hn.
    + destruct (user_heap nfs !! b) as [x|] eqn:Hx; [|done].
      injection Hstep as _ <-. cbn [user_heap current_user] in *.
      injection Ha as <-. rewrite lookup_insert_eq. eauto.
    + injection Hstep as _ <-. eauto.
  - unfold logout in Hstep. destruct (current_user nfs) as [b|] eqn:Hb.
    + destruct (user_heap nfs !! b) as [x|] eqn:Hx; [|done].
      injection Hstep as _ <-. done.
    + injection Hstep as _ <-. rewrite Hb in Ha. done.
Qed.

(** C10. The flag is true from the moment the user is created, with the
    active user left as it was; after [login(a)] then [login(b)] for two
    registered users, b is the active user (and a, when it is another name,
    is not) while the flag of a is still true; the only command that takes
    a flag from true to false is [logout], for the user that was active; and
    [logout] does so: with an active user it succeeds, sets that user's flag
    false, leaves nobody active and every other flag as it was, and without
    an active user it is refused and changes nothing. *)
Theorem logged_in_flag nfs :
  nfs_reachable nfs →
  (∀ now name last msg nfs',
     create_user now name last nfs = Some ((true, msg), nfs') →
     ∃ a, users nfs' !! name = Some a ∧ flag nfs' a = Some true ∧
          current_user nfs' = current_user nfs) ∧
  (∀ a b ua ub,
     users nfs !! a = Some ua → users nfs !! b = Some ub →
     ∃ m1 nfs1 m2 nfs2,
       login a nfs = Some ((true, m1), nfs1) ∧
       login b nfs1 = Some ((true, m2), nfs2) ∧
       current_user nfs2 = Some ub ∧
       (a ≠ b → current_user nfs2 ≠ Some ua) ∧
       flag nfs2 ua = Some true) ∧
  (∀ now c r nfs' u,
     nfs_exec now c nfs = Some (r, nfs') →
     flag nfs u = Some true → flag nfs' u = Some false →
     c = Logout ∧ current_user nfs = Some u) ∧
  (∀ u, current_user nfs = Some u →
     ∃ msg nfs',
       logout nfs = Some ((true, msg), nfs') ∧
       flag nfs' u = Some false ∧
       current_user nfs' = None ∧
       ∀ v, v ≠ u → flag nfs' v = flag nfs v) ∧
  (current_user nfs = None →
     logout nfs = Some ((false, "No user logged in"), nfs)).
Proof.
  intros Hr. split_and!.
  - intros now name last msg nfs' H. unfold create_user in H.
    destruct (users nfs !! name); [done|]. injection H as _ <-.
    exists (fresh (dom (user_heap nfs))). unfold flag. cbn [users user_heap current_user].
    by rewrite !lookup_insert_eq.
  - intros a b ua ub Ha Hb.
    destruct (nfs_reachable_closed _ _ _ Hr Ha) as [xa Hxa].
    destruct (nfs_reachable_closed _ _ _ Hr Hb) as [xb Hxb].
    set (nfs1 := {| user_heap := <[ua := with_logged_in true xa]> (user_heap nfs);
                    users := users nfs; current_user := Some ua |}).
    assert (login a nfs = Some ((true, "Welcome " +:+ lastname xa +:+ "!"), nfs1)) as H1.
    { unfold login. by rewrite Ha, Hxa. }
    assert (∃ xb', user_heap nfs1 !! ub = Some xb') as [xb' Hxb'].
    { cbn [nfs1 user_heap]. destruct (decide (ua = ub)) as [->|Hne].
      - rewrite lookup_insert_eq. eauto.
      - rewrite lookup_insert_ne by done. eauto. }
    set (nfs2 := {| user_heap := <[ub := with_logged_in true xb']> (user_heap nfs1);
                    users := users nfs1; current_user := Some ub |}).
    assert (login b nfs1 = Some ((true, "Welcome " +:+ lastname xb' +:+ "!"), nfs2)) as H2.
    { unfold login. cbn [nfs1 users]. rewrite Hb. fold nfs1. by rewrite Hxb'. }
    eexists _, nfs1, _, nfs2. split_and!; [done..| |].
    { intros Hab [= Heq]. apply Hab. subst ub. by eapply nfs_reachable_inj. }
    unfold flag. cbn [nfs2 user_heap]. destruct (decide (ua = ub)) as [->|Hne].
    + by rewrite lookup_insert_eq.
    + rewrite lookup_insert_ne by done. cbn [nfs1 user_heap].
      by rewrite lookup_insert_eq.
  - intros now c r nfs' u H Ht Hf. unfold flag in *.
    destruct c as [n l|n|]; simpl in H.
    + unfold create_user in H. destruct (users nfs !! n).
      * injection H as _ <-. congruence.
      * injection H as _ <-. cbn [user_heap] in Hf.
        destruct (decide (fresh (dom (user_heap nfs)) = u)) as [<-|Hne].
        -- by rewrite lookup_insert_eq in Hf.
        -- rewrite lookup_insert_ne in Hf by done. congruence.
    + unfold login in H. destruct (users nfs !! n) as [a|].
      * destruct (user_heap nfs !! a) as [x|] eqn:Hx; [|done].
        injection H as _ <-. cbn [user_heap] in Hf.
        destruct (decide (a = u)) as [<-|Hne].
        -- by rewrite lookup_insert_eq in Hf.
        -- rewrite lookup_insert_ne in Hf by done. congruence.
      * injection H as _ <-. congruence.
    + split; [done|]. unfold logout in H. destruct (current_user nfs) as [a|].
      * destruct (user_heap nfs !! a) as [x|] eqn:Hx; [|done].
        injection H as _ <-. cbn [user_heap] in Hf.
        destruct (decide (a = u)) as [<-|Hne]; [done|].
        rewrite lookup_insert_ne in Hf by done. congruence.
      * injection H as _ <-. congruence.
  - intros u Hu. destruct (nfs_reachable_current _ _ Hr Hu) as [x Hx].
    unfold logout. rewrite Hu, Hx. eexists _, _. split; [done|].
    unfold flag. cbn [user_heap current_user]. split_and!.
    + by rewrite lookup_insert_eq.
    + done.
    + intros v Hv. by rewrite lookup_insert_ne.
  - intros Hu. unfold logout. by rewrite Hu.
Qed.

Lemma logged_in_flag_witness :
  (∃ m1 nfs1 m2 nfs2,
     login "alice" nfs_alice_bob = Some ((true, m1), nfs1) ∧
     login "bob" nfs1 = Some ((true, m2), nfs2) ∧
     current_user nfs2 = Some 1 ∧
     ("alice" ≠ "bob" → current_user nfs2 ≠ Some 0) ∧
     flag nfs2 0 = Some true) ∧
  (∃ msg nfs',
     logout (match login "alice" nfs_alice_bob with
             | Some (_, nfs1) => nfs1
             | None => nfs_alice_bob
             end) = Some ((true, msg), nfs') ∧
     flag nfs' 0 = Some false ∧
     current_user nfs' = None).
Proof.
  assert (nfs_reachable nfs_alice_bob) as Hr.
  { eapply (nfs_reachable_step _ tick (CreateUser "bob" "Jones"));
      [eapply (nfs_reachable_step _ tick (CreateUser "alice" "Smith"));
         [apply nfs_reachable_init|vm_compute; reflexivity]
      |vm_compute; reflexivity]. }
  split.
  - destruct (logged_in_flag nfs_alice_bob Hr) as (_ & Hlogin & _ & _ & _).
    apply (Hlogin "alice" "bob" 0 1); vm_compute; reflexivity.
  - assert (nfs_reachable (match login "alice" nfs_alice_bob with
                           | Some (_, nfs1) => nfs1
                           | None => nfs_alice_bob
                           end)) as Hr1.
    { eapply (nfs_reachable_step _ tick (Login "alice")); [exact Hr|].
      vm_compute. reflexivity. }
    destruct (logged_in_flag _ Hr1) as (_ & _ & _ & Hlogout & _).
    destruct (Hlogout 0) as (msg & nfs' & H1 & H2 & H3 & _).
    + vm_compute. reflexivity.
    + exists msg, nfs'. split; [exact H1|]. split; [exact H2|exact H3].
Defined.

(** ** No operation raises in a reachable session *)

Lemma live_parent_of h r a d p :
  wf_heap h → is_root_at h r → rtc (edge h) r a →
  h !! a = Some (ODirectory d) → dir_parent d = Some p →
  rtc (edge h) r p ∧ edge h p a.
Proof.
  intros Hwf Hr Ha Hd Hp.
  apply rtc_inv_r in Ha as [Heq|(y & Hy & (n & Hn))].
  - destruct Hr as (dr & Hdr & Hnone). rewrite Heq in Hdr. congruence.
  - destruct (wf_child _ Hwf _ _ _ Hn) as (o & Ho & _ & Hback).
    rewrite Hd in Ho. injection Ho as <-.
    rewrite (Hback d eq_refl) in Hp. injection Hp as <-.
    split; [done|]. by exists n.
Qed.

(** [get_path_rec] ends within as many frames as there are objects that are
    not strict descendants of the directory it starts from. *)
Lemma get_path_rec_total s (frames : nat) a (V : gset addr) :
  wf_heap (heap s) → is_root_at (heap s) (root s) →
  live s a → is_directory_at (heap s) a →
  (∀ v, v ∈ V → tc (edge (heap s)) a v) →
  (size (dom (heap s) ∖ V) ≤ frames)%nat →
  ∃ p, get_path_rec frames a s = Some (p, s).
Proof.
  intros Hwf Hr. revert a V.
  induction frames as [|k IH]; intros a V Ha [d Hd] HV Hsize.
  - assert (a ∈ dom (heap s) ∖ V) as Hin.
    { apply elem_of_difference. split; [by apply elem_of_dom|].
      intros Hv%HV. by eapply live_acyclic. }
    assert (size (dom (heap s) ∖ V) ≠ 0) as Hpos.
    { apply size_non_empty_iff. intros Hempty. rewrite Hempty in Hin.
      by apply not_elem_of_empty in Hin. }
    lia.
  - simpl. unfold bind. rewrite (as_directory_eq _ _ _ Hd).
    destruct (dir_parent d) as [p|] eqn:Hp; [|by eexists].
    destruct (live_parent_of _ _ _ _ _ Hwf Hr Ha Hd Hp) as [Hlp Hpa].
    destruct (IH p (V ∪ {[a]})) as [pp Hpp].
    + done.
    + destruct Hpa as (n & Hn). by eapply holds_is_directory.
    + intros v [Hv| ->%elem_of_singleton]%elem_of_union.
      * eapply tc_l; [done|]. by apply HV.
      * by apply tc_once.
    + assert (a ∈ dom (heap s) ∖ V) as Hin.
      { apply elem_of_difference. split; [by apply elem_of_dom|].
        intros Hv%HV. exact (live_acyclic _ _ _ Hwf Hr Ha Hv). }
      rewrite <- difference_difference_l_L.
      rewrite size_difference by by apply singleton_subseteq_l.
      rewrite size_singleton. lia.
    + rewrite Hpp. case_decide; by eexists.
Qed.

Lemma get_path_total s a :
  wf_heap (heap s) → is_root_at (heap s) (root s) →
  live s a → is_directory_at (heap s) a →
  ∃ p, get_path a s = Some (p, s).
Proof.
  intros Hwf Hr Ha Hd. unfold get_path.
  apply (get_path_rec_total s _ a ∅); try done.
  rewrite difference_empty_L, size_dom. lia.
Qed.

Lemma changed_to_total s :
  wf s → ∃ r, changed_to s = Some (r, s).
Proof.
  intros [Hh Hr Hc Hl]. unfold changed_to, get_current_path, bind.
  cbn [get_current_directory].
  destruct (get_path_total s (current_directory s)) as [p ->]; [done..|].
  by eexists.
Qed.

Lemma chdir_wf s a :
  wf s → is_directory_at (heap s) a → live s a → wf (set_current_directory a s).
Proof. intros Hwf Hd Hl. eapply transition_wf; [done|]. by apply t_chdir. Qed.

Lemma change_directory_total path s :
  wf s → ∃ r s', change_directory path s = Some (r, s').
Proof.
  intros Hwf. pose proof Hwf as [Hh Hr [d Hd] Hl].
  unfold change_directory. repeat case_decide.
  - by eexists _, _.
  - unfold bind. cbn [get_current_directory]. rewrite (as_directory_eq _ _ _ Hd).
    destruct (dir_parent d) as [p|] eqn:Hp; [|by eexists _, _].
    cbn [put_current_directory].
    destruct (changed_to_total (set_current_directory p s)) as [r ->]; [|by eexists _, _].
    apply chdir_wf; [done| |].
    + by eapply wf_parent.
    + eapply live_parent; [apply Hwf|done..].
  - unfold bind, get_current_path, bind. cbn [get_current_directory].
    destruct (get_path_total s (current_directory s)) as [p ->]; [done..|by exists d|].
    by eexists _, _.
  - destruct (PyStr.startswith "/" path).
    + unfold bind, _navigate_absolute_path. rewrite decide_False by done.
      unfold bind. cbn [get_root].
      rewrite navigate_parts_spec_walk; [|done|].
      2:{ destruct Hr as (dr & -> & _). eauto. }
      destruct (spec_walk (heap s) (PyStr.split slash (PyStr.strip "/" path)) (root s))
        as [t|] eqn:Ht; [|by eexists _, _].
      assert (live s t) as Hlt.
      { apply spec_walk_walks in Ht. clear -Ht. unfold live.
        induction Ht as [|a seg b rest t Hab _ IH]; [done|].
        eapply rtc_l; [|done]. by exists seg. }
      destruct (live_in_heap _ _ Hwf Hlt) as [o Ho].
      rewrite (isinstance_Directory_eq _ _ _ Ho).
      destruct o as [f|dt]; simpl; [by eexists _, _|].
      cbn [put_current_directory].
      destruct (changed_to_total (set_current_directory t s)) as [r ->]; [|by eexists _, _].
      apply chdir_wf; [done|by exists dt|done].
    + unfold bind. cbn [get_current_directory]. rewrite (get_eq _ _ _ _ Hd).
      destruct (dir_children d !! path) as [t|] eqn:Ht; [|by eexists _, _].
      destruct (wf_child_lookup s path t Hwf) as (o & Ho & _); [by exists d|].
      rewrite (isinstance_Directory_eq _ _ _ Ho).
      destruct o as [f|dt]; simpl; [by eexists _, _|].
      cbn [put_current_directory].
      destruct (changed_to_total (set_current_directory t s)) as [r ->]; [|by eexists _, _].
      apply chdir_wf; [done|by exists dt|].
      eapply rtc_r; [done|]. exists path, d. done.
Qed.

Lemma exec_defined now c s :
  wf s → ∃ r s', exec now c s = Some (r, s').
Proof.
  intros Hwf. pose proof Hwf as [Hh Hr [d Hd] Hl].
  pose proof (fresh_heap_ne _ _ _ Hd) as Hne.
  destruct c as [name owner content|name owner|path|name content owner
                |name content|name|source destination|source destination owner];
    cbn [exec].
  - unfold create_file. destruct (dir_children d !! name) eqn:Hn; mcompute; by eexists _, _.
  - unfold create_directory. destruct (dir_children d !! name) eqn:Hn; mcompute;
      [|case_bool_decide; mcompute]; by eexists _, _.
  - by apply change_directory_total.
  - unfold write_file. destruct (dir_children d !! name) as [i|] eqn:Hn.
    + destruct (wf_child_lookup s name i Hwf) as ([f|x] & Ho & _); [by exists d|..];
        mcompute; by eexists _, _.
    + unfold create_file. mcompute. by eexists _, _.
  - unfold append_file. destruct (dir_children d !! name) as [i|] eqn:Hn.
    + destruct (wf_child_lookup s name i Hwf) as ([f|x] & Ho & _); [by exists d|..];
        mcompute; by eexists _, _.
    + mcompute. by eexists _, _.
  - unfold delete. destruct (dir_children d !! name) as [i|] eqn:Hn.
    + destruct (wf_child_lookup s name i Hwf) as ([f|x] & Ho & _); [by exists d|..];
        mcompute; [|case_bool_decide; mcompute]; by eexists _, _.
    + mcompute. by eexists _, _.
  - unfold move.
    destruct (dir_children d !! source) as [x|] eqn:Hx; [|mcompute; by eexists _, _].
    destruct (dir_children d !! destination) as [y|] eqn:Hy; [|mcompute; by eexists _, _].
    destruct (wf_child_lookup s source x Hwf) as (ox & Hox & Hnx); [by exists d|].
    destruct (wf_child_lookup s destination y Hwf) as (oy & Hoy & Hny); [by exists d|].
    assert (x ≠ current_directory s) as Hxc.
    { intros ->. eapply cwd_not_own_child; [done|]. by exists d. }
    destruct oy as [fy|dy]; [mcompute; by eexists _, _|].
    destruct (dir_children dy !! source) as [z|] eqn:Hz; [mcompute; by eexists _, _|].
    assert (y ≠ current_directory s) as Hyc by (intros ->; congruence).
    assert (dir_children dy !! obj_name ox = None) as Hz' by by rewrite Hnx.
    mcompute. destruct ox as [fx|dx]; mcompute; [by eexists _, _|].
    destruct (decide (x = y)) as [->|Hxy]; mcompute; by eexists _, _.
  - unfold copy_file. destruct (dir_children d !! source) as [i|] eqn:Hn.
    + destruct (wf_child_lookup s source i Hwf) as ([f|x] & Ho & _); [by exists d|..].
      * pose proof (fresh_heap_ne _ _ _ Ho) as Hne'.
        mcompute. destruct (dir_children d !! destination) eqn:Hdst; mcompute;
          by eexists _, _.
      * mcompute. by eexists _, _.
    + mcompute. by eexists _, _.
Qed.

Lemma read_file_defined name s : wf s → ∃ r, read_file name s = Some (r, s).
Proof.
  intros Hwf. pose proof Hwf as [Hh Hr [d Hd] Hl].
  unfold read_file. destruct (dir_children d !! name) as [i|] eqn:Hn.
  - destruct (wf_child_lookup s name i Hwf) as ([f|x] & Ho & _); [by exists d|..];
      mcompute; eauto.
  - mcompute. eauto.
Qed.

(** X5. In a reachable session none of the nine operations raises: every
    lookup finds its object, every attribute is there, and [get_path] ends.
    Each of the eight operations that can change the session returns an
    answer and a session, and [read_file] returns an answer and leaves the
    session as it is.  (The interpreter's limit on the depth of recursion,
    which [get_path] would meet under [change_directory] in a tree that
    deep, is not part of the model.) *)
Theorem exec_total now c s :
  reachable s →
  (∃ r s', exec now c s = Some (r, s')) ∧
  (∀ name, ∃ r, read_file name s = Some (r, s)).
Proof.
  intros Hwf%reachable_wf. split.
  - by apply exec_defined.
  - intros name. by apply read_file_defined.
Qed.

Lemma exec_total_witness :
  (∃ r s', exec tick (ChangeDirectory "/docs/deep")
             (after [CreateDirectory "docs" "alice"; ChangeDirectory "docs";
                     CreateDirectory "deep" "alice"]) = Some (r, s')) ∧
  (∃ r, read_file "deep"
          (after [CreateDirectory "docs" "alice"; ChangeDirectory "docs";
                  CreateDirectory "deep" "alice"])
        = Some (r, after [CreateDirectory "docs" "alice"; ChangeDirectory "docs";
                          CreateDirectory "deep" "alice"])).
Proof.
  destruct (exec_total tick (ChangeDirectory "/docs/deep")
              (after [CreateDirectory "docs" "alice"; ChangeDirectory "docs";
                      CreateDirectory "deep" "alice"])) as [Hexec Hread].
  - apply after_reachable.
  - split; [exact Hexec|exact (Hread "deep")].
Defined.

(** ** The scenario of the spec, run on the model *)

Example scenario_alice :
  fst <$> exec_all tick
    [CreateDirectory "docs" "alice"; ChangeDirectory "docs";
     CreateFile "notes.txt" "alice" EmptyString;
     WriteFile "notes.txt" "hello world" "alice";
     ChangeDirectory ".."; Delete "docs";
     ChangeDirectory "docs"; Delete "notes.txt"; ChangeDirectory ".."; Delete "docs"]
    session_alice
  = Some [(true, "Directory 'docs' created successfully");
          (true, "Changed to /docs");
          (true, "File 'notes.txt' created successfully");
          (true, "File 'notes.txt' updated successfully");
          (true, "Changed to /");
          (false, "Directory 'docs' is not empty");
          (true, "Changed to /docs");
          (true, "'notes.txt' deleted successfully");
          (true, "Changed to /");
          (true, "'docs' deleted successfully")].
Proof. vm_compute. reflexivity. Qed.

(** [mv] into a file is refused and leaves the source where it was. *)
Example scenario_move_into_file :
  exec tick (Move "a" "b") (after [CreateFile "a" "alice" "x"; CreateFile "b" "alice" "y"])
  = Some ((false, "Destination 'b' is not a directory"),
          after [CreateFile "a" "alice" "x"; CreateFile "b" "alice" "y"]).
Proof. vm_compute. reflexivity. Qed.

(* ================================================================= *)
(** * Further properties of the file system *)

(** ** Invariants of the objects *)

Lemma heap_ok_insert h a o : heap_ok h → obj_ok o → heap_ok (<[a := o]> h).
Proof.
  intros Hh Ho x ox. destruct (decide (a = x)) as [->|Hne].
  - rewrite lookup_insert_eq. by intros [= <-].
  - rewrite lookup_insert_ne by done. apply Hh.
Qed.

Lemma heap_ok_alter g h a :
  (∀ o, obj_ok o → obj_ok (g o)) → heap_ok h → heap_ok (alter g a h).
Proof.
  intros Hg Hh x ox. rewrite lookup_alter. case_decide as Hx; [subst x|apply Hh].
  destruct (h !! a) as [o|] eqn:Ha; simpl; [|done].
  intros [= <-]. apply Hg. by eapply Hh.
Qed.

Lemma obj_ok_add_child n b o : obj_ok o → obj_ok (add_child n b o).
Proof. by destruct o. Qed.
Lemma obj_ok_del_child n o : obj_ok o → obj_ok (del_child n o).
Proof. by destruct o. Qed.
Lemma obj_ok_set_parent p o : obj_ok o → obj_ok (set_parent p o).
Proof. by destruct o. Qed.

(** ** What the operations that do not construct objects do to the heap *)

Lemma change_directory_heap path s r s' :
  change_directory path s = Some (r, s') → heap s' = heap s ∧ root s' = root s.
Proof.
  unfold change_directory. intros H. repeat case_decide.
  - by minv.
  - minv.
    match goal with E : heap s !! current_directory s = Some (ODirectory ?d) |- _ =>
      destruct (dir_parent d) as [p|] eqn:Hp end; minv; [|done].
    by apply changed_to_inv in H as [_ ->].
  - minv.
    match goal with E : get_current_path _ = Some _ |- _ =>
      apply get_current_path_state in E; subst end.
    done.
  - destruct (PyStr.startswith "/" path).
    + minv.
      match goal with E : _navigate_absolute_path _ _ = Some _ |- _ =>
        apply navigate_absolute_path_inv in E as [-> Hlive] end.
      match goal with E : context [isinstance_Directory] |- _ =>
        match type of E with context [match ?x with _ => _ end] =>
          destruct x as [t|] end end; minv; [|done].
      match goal with E : heap s !! t = Some ?o |- _ => destruct o as [f|dt] end;
        simpl in H; minv; [done|].
      by apply changed_to_inv in H as [_ ->].
    + minv.
      match goal with E : heap s !! current_directory s = Some (ODirectory ?d) |- _ =>
        destruct (dir_children d !! path) as [t|] eqn:Ht end; minv; [|done].
      match goal with E : heap s !! t = Some ?o |- _ => destruct o as [f|dt] end;
        simpl in H; minv; [done|].
      by apply changed_to_inv in H as [_ ->].
Qed.

Lemma delete_effect name s r s' :
  wf s → delete name s = Some (r, s') →
  (fst r = false ∧ s' = s) ∨
  (fst r = true ∧ (∃ b, holds (heap s) (current_directory s) name b) ∧
   s' = set_heap (h_unlink (current_directory s) name (heap s)) s).
Proof.
  intros Hwf H. unfold delete in H.
  destruct (wf_cwd _ Hwf) as [d Hd].
  destruct (dir_children d !! name) as [i|] eqn:Hn.
  - destruct (wf_child_lookup s name i Hwf) as (o & Ho & _); [by exists d|].
    mcompute. destruct o as [f|x]; mcompute.
    + right. rewrite (unlink_eq _ _ d) by done. split_and!; [done| |done].
      exists i. by exists d.
    + case_bool_decide; mcompute; [by left|].
      right. rewrite (unlink_eq _ _ d) by done. split_and!; [done| |done].
      exists i. by exists d.
  - mcompute. by left.
Qed.

Lemma move_effect source destination s r s' :
  wf s → move source destination s = Some (r, s') →
  (fst r = false ∧ s' = s) ∨
  (fst r = true ∧
   ∃ x y, holds (heap s) (current_directory s) source x ∧
          holds (heap s) (current_directory s) destination y ∧
          is_directory_at (heap s) y ∧ (∀ z, ¬ holds (heap s) y source z) ∧
          s' = set_heap (h_link y source x (h_set_parent x y
                   (h_unlink (current_directory s) source (heap s)))) s).
Proof.
  intros Hwf H. unfold move in H.
  destruct (wf_cwd _ Hwf) as [d Hd].
  destruct (dir_children d !! source) as [x|] eqn:Hx; cycle 1.
  { mcompute. by left. }
  destruct (dir_children d !! destination) as [y|] eqn:Hy; cycle 1.
  { mcompute. by left. }
  destruct (wf_child_lookup s source x Hwf) as (ox & Hox & Hnx); [by exists d|].
  destruct (wf_child_lookup s destination y Hwf) as (oy & Hoy & Hny); [by exists d|].
  assert (x ≠ current_directory s) as Hxc.
  { intros ->. eapply cwd_not_own_child; [done|]. by exists d. }
  destruct oy as [fy|dy].
  { mcompute. by left. }
  destruct (dir_children dy !! source) as [z|] eqn:Hz.
  { mcompute. by left. }
  assert (y ≠ current_directory s) as Hyc.
  { intros ->. congruence. }
  assert (holds (heap s) (current_directory s) source x) as Hhx by by exists d.
  assert (holds (heap s) (current_directory s) destination y) as Hhy by by exists d.
  assert (∀ z, ¬ holds (heap s) y source z) as Hfree.
  { intros z' (dy' & Hdy' & Hz'). congruence. }
  assert (dir_children dy !! obj_name ox = None) as Hz' by by rewrite Hnx.
  right. mcompute. destruct ox as [fx|dx]; mcompute.
  - split; [done|]. exists x, y. split_and!; [done|done|by exists dy|done|].
    rewrite !set_heap_set_heap. f_equal.
    unfold h_link, h_set_parent, h_unlink. apply map_eq. intros k.
    rewrite !lookup_alter, !lookup_insert.
    repeat case_decide; simplify_eq; rewrite ?Hd, ?Hoy, ?Hox; done.
  - destruct (decide (x = y)) as [->|Hxy]; mcompute.
    + split; [done|]. exists y, y. split_and!; [done|done|by exists dx|done|].
      rewrite !set_heap_set_heap. f_equal.
      unfold h_link, h_set_parent, h_unlink. apply map_eq. intros k.
      rewrite !lookup_alter, !lookup_insert.
      repeat case_decide; simplify_eq; rewrite ?Hd, ?Hox; done.
    + split; [done|]. exists x, y. split_and!; [done|done|by exists dy|done|].
      rewrite !set_heap_set_heap. f_equal.
      unfold h_link, h_set_parent, h_unlink. apply map_eq. intros k.
      rewrite !lookup_alter, !lookup_insert.
      repeat case_decide; simplify_eq; rewrite ?Hd, ?Hoy, ?Hox; done.
Qed.

Lemma exec_heap_ok now c s r s' :
  wf s → heap_ok (heap s) → exec now c s = Some (r, s') → heap_ok (heap s').
Proof.
  intros Hwf Hok H. pose proof Hwf as [Hh Hr [d Hd] Hl].
  pose proof (fresh_heap_ne _ _ _ Hd) as Hne.
  assert (obj_ok (ODirectory d)) as Hokd by by eapply Hok.
  destruct c as [name owner content|name owner|path|name content owner
                |name content|name|source destination|source destination owner];
    cbn [exec] in H.
  - unfold create_file in H. destruct (dir_children d !! name) eqn:Hn; mcompute; [done|].
    apply heap_ok_insert; [apply heap_ok_insert|]; done.
  - unfold create_directory in H. destruct (dir_children d !! name) eqn:Hn; mcompute; [done|].
    case_bool_decide as Hdot; mcompute; [done|].
    assert (name ≠ "." ∧ name ≠ "..") as Hname.
    { split; intros ->; apply Hdot; repeat constructor. }
    repeat apply heap_ok_insert; done.
  - apply change_directory_heap in H as [-> _]. done.
  - unfold write_file in H. destruct (dir_children d !! name) as [i|] eqn:Hn.
    + destruct (wf_child_lookup s name i Hwf) as ([f|x] & Ho & _); [by exists d|..];
        mcompute; [|done]. by apply heap_ok_insert.
    + unfold create_file in H. mcompute.
      apply heap_ok_insert; [apply heap_ok_insert|]; done.
  - unfold append_file in H. destruct (dir_children d !! name) as [i|] eqn:Hn.
    + destruct (wf_child_lookup s name i Hwf) as ([f|x] & Ho & _); [by exists d|..];
        mcompute; [|done]. by apply heap_ok_insert.
    + by mcompute.
  - apply (delete_effect _ _ _ _ Hwf) in H as [[_ ->]|(_ & _ & ->)]; [done|].
    cbn [heap set_heap]. apply heap_ok_alter; [apply obj_ok_del_child|done].
  - apply (move_effect _ _ _ _ _ Hwf) in H as [[_ ->]|(_ & x & y & _ & _ & _ & _ & ->)]; [done|].
    cbn [heap set_heap].
    apply heap_ok_alter; [apply obj_ok_add_child|].
    apply heap_ok_alter; [apply obj_ok_set_parent|].
    apply heap_ok_alter; [apply obj_ok_del_child|done].
  - unfold copy_file in H. destruct (dir_children d !! source) as [i|] eqn:Hn.
    + destruct (wf_child_lookup s source i Hwf) as ([f|x] & Ho & _); [by exists d|..].
      * pose proof (fresh_heap_ne _ _ _ Ho) as Hne'.
        mcompute. destruct (dir_children d !! destination) eqn:Hdst; mcompute.
        -- by apply heap_ok_insert.
        -- apply heap_ok_insert; [apply heap_ok_insert|]; done.
      * by mcompute.
    + by mcompute.
Qed.

Lemma reachable_heap_ok s : reachable s → heap_ok (heap s).
Proof.
  induction 1 as [owner t|s now c r s' Hs IH Hstep].
  - intros a o Ho. unfold FileSystem_init in Ho. cbn [heap] in Ho.
    apply lookup_singleton_Some in Ho as [_ <-]. done.
  - eapply exec_heap_ok; [by apply reachable_wf|done..].
Qed.
(** X1. In every reachable session a child is stored under its own name: the
    object a directory holds under a key exists, its [name] attribute is that
    key, a directory child's [parent] is the holder, and no other directory
    and no other key holds it. *)
Theorem reachable_children_consistent s a n b :
  reachable s →
  holds (heap s) a n b →
  ∃ o, heap s !! b = Some o ∧ obj_name o = n ∧
       (∀ d, o = ODirectory d → dir_parent d = Some a) ∧
       ∀ a' n', holds (heap s) a' n' b → a' = a ∧ n' = n.
Proof.
  intros Hwf%reachable_wf Hn.
  destruct (wf_child _ (wf_wf_heap _ Hwf) _ _ _ Hn) as (o & Ho & Hname & Hback).
  exists o. split_and!; [done..|].
  intros a' n' Hn'.
  by destruct (holds_unique _ _ _ _ _ _ (wf_wf_heap _ Hwf) Hn' Hn).
Qed.

Lemma reachable_children_consistent_witness :
  ∃ o, heap (after [CreateDirectory "docs" "alice"; CreateFile "a" "alice" "x";
                    Move "a" "docs"]) !! 2 = Some o ∧ obj_name o = "a".
Proof.
  destruct (reachable_children_consistent
              (after [CreateDirectory "docs" "alice"; CreateFile "a" "alice" "x";
                      Move "a" "docs"]) 1 "a" 2)
    as (o & Ho & Hname & _).
  - apply after_reachable.
  - vm_compute. eexists. split; reflexivity.
  - exists o. split; [exact Ho|exact Hname].
Defined.

(** X2. In every reachable session the current directory is a directory that
    can be reached from the root, the root has no parent and is nobody's
    child, and no entry that can be reached from the root lies on a cycle of
    the children dicts. *)
Theorem reachable_cursor_in_tree s :
  reachable s →
  is_directory_at (heap s) (current_directory s) ∧
  live s (current_directory s) ∧
  is_root_at (heap s) (root s) ∧
  (∀ a n, ¬ holds (heap s) a n (root s)) ∧
  (∀ a, live s a → ¬ tc (edge (heap s)) a a).
Proof.
  intros [Hh Hr Hc Hl]%reachable_wf. split_and!; [done..| |].
  - intros a n. by apply root_not_held.
  - intros a Ha. by eapply live_acyclic.
Qed.

Lemma reachable_cursor_in_tree_witness :
  live (after [CreateDirectory "docs" "alice"; ChangeDirectory "docs";
               CreateDirectory "deep" "alice"; ChangeDirectory "/docs/deep"]) 2.
Proof.
  destruct (reachable_cursor_in_tree
              (after [CreateDirectory "docs" "alice"; ChangeDirectory "docs";
                      CreateDirectory "deep" "alice"; ChangeDirectory "/docs/deep"]))
    as (_ & Hlive & _).
  - apply after_reachable.
  - exact Hlive.
Defined.

(** X3. In every reachable session the [size] of every file object is the
    length of its content, and no directory object is named "." or "..". *)
Theorem reachable_objects_ok s a o :
  reachable s →
  heap s !! a = Some o →
  match o with
  | OFile f => file_size f = String.length (file_content f)
  | ODirectory d => dir_name d ≠ "." ∧ dir_name d ≠ ".."
  end.
Proof. intros Hs Ho. by apply (reachable_heap_ok s Hs a o). Qed.

Lemma reachable_objects_ok_witness :
  file_size (mkFile "a" "hello world" "alice" 0 0 11) = 11.
Proof.
  apply (reachable_objects_ok
           (after [CreateFile "a" "alice" "hello"; AppendFile "a" " world"]) 1
           (OFile (mkFile "a" "hello world" "alice" 0 0 11))).
  - apply after_reachable.
  - vm_compute. reflexivity.
Defined.
(** ** No operation renames an entry or changes its class, owner or creation time *)

Lemma same_identity_refl o : same_identity o o.
Proof. done. Qed.

Lemma heap_keeps_refl h : heap_keeps h h.
Proof. intros a o Ho. exists o. split; [done|apply same_identity_refl]. Qed.

Lemma heap_keeps_insert h h1 a o' :
  heap_keeps h h1 →
  match h1 !! a with Some o => same_identity o o' | None => True end →
  heap_keeps h (<[a := o']> h1).
Proof.
  intros Hk Ha x o Hx. destruct (Hk _ _ Hx) as (o1 & Ho1 & Hid).
  destruct (decide (a = x)) as [->|Hne].
  - rewrite lookup_insert_eq. rewrite Ho1 in Ha. exists o'. split; [done|].
    destruct Hid as (? & ? & ? & ?), Ha as (? & ? & ? & ?).
    split_and!; congruence.
  - rewrite lookup_insert_ne by done. eauto.
Qed.

Lemma heap_keeps_alter g h h1 a :
  (∀ o, same_identity o (g o)) → heap_keeps h h1 → heap_keeps h (alter g a h1).
Proof.
  intros Hg Hk x o Hx. destruct (Hk _ _ Hx) as (o1 & Ho1 & Hid).
  rewrite lookup_alter. case_decide as Hax; [subst x|eauto].
  rewrite Ho1. simpl. exists (g o1). split; [done|].
  destruct Hid as (? & ? & ? & ?), (Hg o1) as (? & ? & ? & ?).
  split_and!; congruence.
Qed.

Lemma same_identity_add_child n b o : same_identity o (add_child n b o).
Proof. by destruct o. Qed.
Lemma same_identity_del_child n o : same_identity o (del_child n o).
Proof. by destruct o. Qed.
Lemma same_identity_set_parent p o : same_identity o (set_parent p o).
Proof. by destruct o. Qed.

Ltac keeps :=
  repeat (apply heap_keeps_insert; [|by simplify_map_eq]); apply heap_keeps_refl.

Lemma exec_heap_keeps now c s r s' :
  wf s → exec now c s = Some (r, s') → heap_keeps (heap s) (heap s').
Proof.
  intros Hwf H. pose proof Hwf as [Hh Hr [d Hd] Hl].
  pose proof (fresh_heap_ne _ _ _ Hd) as Hne.
  pose proof (fresh_heap_None (heap s)) as Hfresh.
  destruct c as [name owner content|name owner|path|name content owner
                |name content|name|source destination|source destination owner];
    cbn [exec] in H.
  - unfold create_file in H. destruct (dir_children d !! name) eqn:Hn; mcompute; keeps.
  - unfold create_directory in H. destruct (dir_children d !! name) eqn:Hn; mcompute;
      [keeps|]. case_bool_decide as Hdot; mcompute; keeps.
  - apply change_directory_heap in H as [-> _]. apply heap_keeps_refl.
  - unfold write_file in H. destruct (dir_children d !! name) as [i|] eqn:Hn.
    + destruct (wf_child_lookup s name i Hwf) as ([f|x] & Ho & _); [by exists d|..];
        mcompute; keeps.
    + unfold create_file in H. mcompute. keeps.
  - unfold append_file in H. destruct (dir_children d !! name) as [i|] eqn:Hn.
    + destruct (wf_child_lookup s name i Hwf) as ([f|x] & Ho & _); [by exists d|..];
        mcompute; keeps.
    + mcompute. keeps.
  - apply (delete_effect _ _ _ _ Hwf) in H as [[_ ->]|(_ & _ & ->)];
      [apply heap_keeps_refl|].
    cbn [heap set_heap].
    apply heap_keeps_alter; [apply same_identity_del_child|apply heap_keeps_refl].
  - apply (move_effect _ _ _ _ _ Hwf) in H as [[_ ->]|(_ & x & y & _ & _ & _ & _ & ->)];
      [apply heap_keeps_refl|].
    cbn [heap set_heap].
    apply heap_keeps_alter; [apply same_identity_add_child|].
    apply heap_keeps_alter; [apply same_identity_set_parent|].
    apply heap_keeps_alter; [apply same_identity_del_child|apply heap_keeps_refl].
  - unfold copy_file in H. destruct (dir_children d !! source) as [i|] eqn:Hn.
    + destruct (wf_child_lookup s source i Hwf) as ([f|x] & Ho & _); [by exists d|..].
      * pose proof (fresh_heap_ne _ _ _ Ho) as Hne'.
        mcompute. destruct (dir_children d !! destination) eqn:Hdst; mcompute; keeps.
      * mcompute. keeps.
    + mcompute. keeps.
Qed.

(** X4. No namespace operation renames an entry or changes its class, its
    owner or its creation time: whatever object a reachable session has at an
    address, the session after any operation has an object at that address
    with the same name, class, owner and creation time. *)
Theorem exec_keeps_identity now c s r s' a o :
  reachable s →
  exec now c s = Some (r, s') →
  heap s !! a = Some o →
  ∃ o', heap s' !! a = Some o' ∧
        obj_name o' = obj_name o ∧
        is_directory_obj o' = is_directory_obj o ∧
        obj_owner o' = obj_owner o ∧
        obj_created_at o' = obj_created_at o.
Proof.
  intros Hwf%reachable_wf H Ho.
  by apply (exec_heap_keeps now c s r s' Hwf H).
Qed.

Lemma exec_keeps_identity_witness :
  ∃ o', heap (after [CreateFile "a" "alice" "x"; WriteFile "a" "y" "bob"]) !! 1 = Some o' ∧
        obj_owner o' = "alice".
Proof.
  destruct (exec_keeps_identity tick (WriteFile "a" "y" "bob")
              (after [CreateFile "a" "alice" "x"])
              (true, "File 'a' updated successfully")
              (after [CreateFile "a" "alice" "x"; WriteFile "a" "y" "bob"])
              1 (OFile (mkFile "a" "x" "alice" 0 1 1)))
    as (o' & Ho' & _ & _ & Howner & _).
  - apply after_reachable.
  - vm_compute. reflexivity.
  - vm_compute. reflexivity.
  - exists o'. split; [exact Ho'|exact Howner].
Defined.
(** ** Names in a directory are unique *)

(** X6. Once [create_file] or [create_directory] has put a name into the
    current directory, creating that name again, as a file or as a directory,
    is refused as already existing and changes nothing. *)
Theorem create_again_fails now name owner content s msg s' now' owner' content' :
  create_file now name owner content s = Some ((true, msg), s') ∨
  create_directory now name owner s = Some ((true, msg), s') →
  create_file now' name owner' content' s'
    = Some ((false, "File or directory '" +:+ name +:+ "' already exists"), s') ∧
  create_directory now' name owner' s'
    = Some ((false, "File or directory '" +:+ name +:+ "' already exists"), s').
Proof.
  intros [H|H].
  - unfold create_file in H at 1. minv.
    match goal with E : heap s !! current_directory s = Some (ODirectory ?d) |- _ =>
      rename d into cwd; rename E into Hcwd end.
    pose proof (fresh_heap_ne _ _ _ Hcwd) as Hne.
    destruct (dir_children cwd !! name) eqn:Hn; mcompute.
    unfold create_file, create_directory. by mcompute.
  - unfold create_directory in H at 1. minv.
    match goal with E : heap s !! current_directory s = Some (ODirectory ?d) |- _ =>
      rename d into cwd; rename E into Hcwd end.
    pose proof (fresh_heap_ne _ _ _ Hcwd) as Hne.
    destruct (dir_children cwd !! name) eqn:Hn; mcompute.
    case_bool_decide; mcompute.
    unfold create_file, create_directory. by mcompute.
Qed.

Lemma create_again_fails_witness :
  create_directory tick "docs" "bob" (after [CreateFile "docs" "alice" "x"])
  = Some ((false, "File or directory 'docs' already exists"),
          after [CreateFile "docs" "alice" "x"]).
Proof.
  eapply (create_again_fails tick "docs" "alice" "x" session_alice
            "File 'docs' created successfully" _ tick "bob" EmptyString).
  left. vm_compute. reflexivity.
Defined.

(** ** Names that are not there *)

(** X7. With a name that is no child of the current directory, [read_file],
    [append_file], [delete], [move] (as source, or as destination of an
    existing source) and [copy_file] answer that it was not found, and a
    relative [change_directory] answers the same; none of them changes the
    session. *)
Theorem missing_name_fails now s d name :
  heap s !! current_directory s = Some (ODirectory d) →
  dir_children d !! name = None →
  read_file name s = Some ((false, "File '" +:+ name +:+ "' not found"), s) ∧
  (∀ content,
     append_file now name content s
       = Some ((false, "File '" +:+ name +:+ "' not found"), s)) ∧
  delete name s = Some ((false, "'" +:+ name +:+ "' not found"), s) ∧
  (∀ destination,
     move name destination s
       = Some ((false, "Source '" +:+ name +:+ "' not found"), s)) ∧
  (∀ source, is_Some (dir_children d !! source) →
     move source name s
       = Some ((false, "Destination '" +:+ name +:+ "' not found"), s)) ∧
  (∀ destination owner,
     copy_file now name destination owner s
       = Some ((false, "Source file '" +:+ name +:+ "' not found"), s)) ∧
  (name ≠ "/" → name ≠ ".." → name ≠ "." → PyStr.startswith "/" name = false →
     change_directory name s
       = Some ((false, "Directory '" +:+ name +:+ "' not found"), s)).
Proof.
  intros Hd Hn. split_and!.
  - unfold read_file. by mcompute.
  - intros content. unfold append_file. by mcompute.
  - unfold delete. by mcompute.
  - intros destination. unfold move. by mcompute.
  - intros source [x Hx]. unfold move. by mcompute.
  - intros destination owner. unfold copy_file. by mcompute.
  - intros H1 H2 H3 H4. by apply (change_directory_missing s d).
Qed.

Lemma missing_name_fails_witness :
  delete "ghost" session_alice = Some ((false, "'ghost' not found"), session_alice).
Proof.
  eapply (missing_name_fails tick session_alice _ "ghost").
  - vm_compute. reflexivity.
  - vm_compute. reflexivity.
Defined.

(** ** Delete *)

(** X8. A successful [delete] takes exactly one key out of the children of
    the current directory: the other keys keep their children, every other
    object is as it was, root and cursor stay, and [read_file] on the name
    then answers that it was not found. *)
Theorem delete_removes_one_child name s msg s' :
  reachable s →
  delete name s = Some ((true, msg), s') →
  root s' = root s ∧
  current_directory s' = current_directory s ∧
  (∀ m b, holds (heap s') (current_directory s) m b ↔
          holds (heap s) (current_directory s) m b ∧ m ≠ name) ∧
  (∀ a, a ≠ current_directory s → heap s' !! a = heap s !! a) ∧
  read_file name s' = Some ((false, "File '" +:+ name +:+ "' not found"), s').
Proof.
  intros Hwf%reachable_wf H.
  apply (delete_effect _ _ _ _ Hwf) in H as [[Hf _]|(_ & _ & ->)]; [done|].
  destruct (wf_cwd _ Hwf) as [d Hd].
  split_and!; [done|done| | |].
  - intros m b. cbn [heap set_heap]. rewrite holds_unlink.
    split; intros [Hm Hne]; (split; [done|]); [by apply Hne|by intros _].
  - intros a Ha. cbn [heap set_heap]. unfold h_unlink. by rewrite lookup_alter_ne.
  - unfold read_file, h_unlink.
    rewrite <- (insert_as_alter (del_child name) _ _ _ Hd).
    by mcompute.
Qed.

Lemma delete_removes_one_child_witness :
  read_file "a" (after [CreateFile "a" "alice" "x"; CreateFile "b" "alice" "y"; Delete "a"])
  = Some ((false, "File 'a' not found"),
          after [CreateFile "a" "alice" "x"; CreateFile "b" "alice" "y"; Delete "a"]).
Proof.
  destruct (delete_removes_one_child "a"
              (after [CreateFile "a" "alice" "x"; CreateFile "b" "alice" "y"])
              "'a' deleted successfully"
              (after [CreateFile "a" "alice" "x"; CreateFile "b" "alice" "y"; Delete "a"]))
    as (_ & _ & _ & _ & Hread).
  - apply after_reachable.
  - vm_compute. reflexivity.
  - exact Hread.
Defined.
(** ** Move *)

Lemma move_succeeds s n x m y :
  wf s →
  holds (heap s) (current_directory s) n x →
  holds (heap s) (current_directory s) m y →
  is_directory_at (heap s) y →
  (∀ z, ¬ holds (heap s) y n z) →
  move n m s
  = Some ((true, "Moved '" +:+ n +:+ "' to '" +:+ m +:+ "'"),
          set_heap (h_link y n x (h_set_parent x y
                      (h_unlink (current_directory s) n (heap s)))) s).
Proof.
  intros Hwf Hx Hy [dy Hdy] Hfree.
  destruct (wf_child_lookup s n x Hwf Hx) as (ox & Hox & Hnx').
  destruct Hx as (d & Hd & Hnx), Hy as (d' & Hd' & Hmy). simplify_eq.
  assert (dir_children dy !! obj_name ox = None) as Hz.
  { destruct (dir_children dy !! obj_name ox) as [z|] eqn:Hz; [|done].
    destruct (Hfree z). by exists dy. }
  assert (x ≠ current_directory s) as Hxc.
  { intros ->. eapply cwd_not_own_child; [done|]. by exists d. }
  assert (y ≠ current_directory s) as Hyc by (intros ->; congruence).
  unfold move. mcompute. destruct ox as [fx|dx]; mcompute.
  - rewrite !set_heap_set_heap. do 3 f_equal.
    unfold h_link, h_set_parent, h_unlink. apply map_eq. intros k.
    rewrite !lookup_alter, !lookup_insert.
    repeat case_decide; simplify_eq; rewrite ?Hd, ?Hdy, ?Hox; done.
  - destruct (decide (x = y)) as [->|Hxy]; mcompute.
    + rewrite !set_heap_set_heap. do 3 f_equal.
      unfold h_link, h_set_parent, h_unlink. apply map_eq. intros k.
      rewrite !lookup_alter, !lookup_insert.
      repeat case_decide; simplify_eq; rewrite ?Hd, ?Hdy, ?Hox; done.
    + rewrite !set_heap_set_heap. do 3 f_equal.
      unfold h_link, h_set_parent, h_unlink. apply map_eq. intros k.
      rewrite !lookup_alter, !lookup_insert.
      repeat case_decide; simplify_eq; rewrite ?Hd, ?Hdy, ?Hox; done.
Qed.

(** X9. Moving a child of the current directory into another child that is a
    directory and has no entry of that name succeeds.  Afterwards the current
    directory has lost that one key, the destination has gained it for the
    same object, a moved file is unchanged and a moved directory has the
    destination as its parent, no other object is touched, and the moved
    entry can still be reached from the root. *)
Theorem move_into_directory s n x m y :
  reachable s →
  holds (heap s) (current_directory s) n x →
  holds (heap s) (current_directory s) m y →
  is_directory_at (heap s) y →
  (∀ z, ¬ holds (heap s) y n z) →
  n ≠ m →
  ∃ s',
    move n m s = Some ((true, "Moved '" +:+ n +:+ "' to '" +:+ m +:+ "'"), s') ∧
    root s' = root s ∧ current_directory s' = current_directory s ∧
    (∀ k b, holds (heap s') (current_directory s) k b ↔
            holds (heap s) (current_directory s) k b ∧ k ≠ n) ∧
    (∀ k b, holds (heap s') y k b ↔ holds (heap s) y k b ∨ (k = n ∧ b = x)) ∧
    (∀ f, heap s !! x = Some (OFile f) → heap s' !! x = Some (OFile f)) ∧
    (∀ dx, heap s !! x = Some (ODirectory dx) →
           heap s' !! x = Some (ODirectory (with_parent (Some y) dx))) ∧
    (∀ a, a ≠ current_directory s → a ≠ x → a ≠ y → heap s' !! a = heap s !! a) ∧
    live s' x.
Proof.
  intros Hwf%reachable_wf Hx Hy Hdy Hfree Hnm.
  pose proof (move_succeeds s n x m y Hwf Hx Hy Hdy Hfree) as Hmove.
  set (s' := set_heap (h_link y n x (h_set_parent x y
                (h_unlink (current_directory s) n (heap s)))) s) in *.
  assert (x ≠ y) as Hxy.
  { intros ->. by destruct (holds_unique _ _ _ _ _ _ (wf_wf_heap _ Hwf) Hx Hy). }
  assert (x ≠ current_directory s) as Hxc.
  { intros ->. by eapply cwd_not_own_child. }
  assert (y ≠ current_directory s) as Hyc.
  { intros ->. by destruct (Hfree x). }
  assert (∀ a k b, holds (heap s') a k b ↔
            (a = y ∧ k = n ∧ b = x) ∨
            (holds (heap s) a k b ∧ (a = current_directory s → k ≠ n))) as Hholds.
  { intros a k b. unfold s'. cbn [heap set_heap].
    rewrite holds_link, holds_set_parent, holds_unlink. split.
    - intros [(-> & -> & -> & _)|[[Hh Hc] _]]; [by left|by right].
    - intros [(-> & -> & ->)|[Hh Hc]].
      + left. split_and!; try done.
        apply is_directory_at_alter; [apply set_parent_kind|].
        apply is_directory_at_alter; [apply del_child_kind|done].
      + right. split; [done|]. intros -> ->. by destruct (Hfree b). }
  exists s'. split_and!; [done|done|done| | | | | |].
  - intros k b. rewrite Hholds. split.
    + intros [(E & _)|[Hh Hc]]; [by destruct Hyc|]. split; [done|by apply Hc].
    + intros [Hh Hk]. right. split; [done|by intros _].
  - intros k b. rewrite Hholds. split.
    + intros [(_ & -> & ->)|[Hh _]]; [by right|by left].
    + intros [Hh|[-> ->]]; [|by left]. right. split; [done|]. by intros ->.
  - intros f Hf. unfold s', h_link, h_set_parent, h_unlink. cbn [heap set_heap].
    rewrite lookup_alter_ne, lookup_alter_eq, lookup_alter_ne, Hf by done. done.
  - intros dx Hdx. unfold s', h_link, h_set_parent, h_unlink. cbn [heap set_heap].
    rewrite lookup_alter_ne, lookup_alter_eq, lookup_alter_ne, Hdx by done. done.
  - intros a Hac Hax Hay. unfold s', h_link, h_set_parent, h_unlink. cbn [heap set_heap].
    by rewrite !lookup_alter_ne.
  - assert (wf s') as Hwf'.
    { eapply transition_wf; [done|]. by eapply (t_move s n x m y). }
    unfold live. eapply rtc_r; [eapply rtc_r; [apply (wf_cwd_live _ Hwf')|]|].
    + exists m. cbn [current_directory s' set_heap]. apply Hholds. right.
      split; [done|]. by intros _.
    + exists n. apply Hholds. by left.
Qed.

Lemma move_into_directory_witness :
  ∃ s', move "a" "docs" (after [CreateDirectory "docs" "alice"; CreateFile "a" "alice" "x"])
        = Some ((true, "Moved 'a' to 'docs'"), s') ∧ live s' 2.
Proof.
  destruct (move_into_directory
              (after [CreateDirectory "docs" "alice"; CreateFile "a" "alice" "x"])
              "a" 2 "docs" 1)
    as (s' & Hmove & _ & _ & _ & _ & _ & _ & _ & Hlive).
  - apply after_reachable.
  - vm_compute. eexists. split; reflexivity.
  - vm_compute. eexists. split; reflexivity.
  - vm_compute. eexists. reflexivity.
  - intros z Hz. vm_compute in Hz. destruct Hz as (d & Hd & Hz).
    injection Hd as <-. discriminate Hz.
  - discriminate.
  - exists s'. split; [exact Hmove|exact Hlive].
Defined.

(** X10. [move] refuses a destination that is a file, and a destination
    directory that already has an entry under the source's name; in both
    cases the source stays where it was and nothing changes. *)
Theorem move_refused s d n x m y :
  heap s !! current_directory s = Some (ODirectory d) →
  dir_children d !! n = Some x →
  dir_children d !! m = Some y →
  (∀ f, heap s !! y = Some (OFile f) →
     move n m s
       = Some ((false, "Destination '" +:+ m +:+ "' is not a directory"), s)) ∧
  (∀ dy z, heap s !! y = Some (ODirectory dy) → dir_children dy !! n = Some z →
     move n m s
       = Some ((false, "'" +:+ n +:+ "' already exists in '" +:+ m +:+ "'"), s)).
Proof.
  intros Hd Hx Hy. split.
  - intros f Hf. unfold move. by mcompute.
  - intros dy z Hdy Hz. unfold move. by mcompute.
Qed.

Lemma move_refused_witness :
  move "a" "b" (after [CreateFile "a" "alice" "x"; CreateFile "b" "alice" "y"])
  = Some ((false, "Destination 'b' is not a directory"),
          after [CreateFile "a" "alice" "x"; CreateFile "b" "alice" "y"]).
Proof.
  eapply (move_refused (after [CreateFile "a" "alice" "x"; CreateFile "b" "alice" "y"])
            _ "a" 1 "b" 2).
  - vm_compute. reflexivity.
  - vm_compute. reflexivity.
  - vm_compute. reflexivity.
  - vm_compute. reflexivity.
Defined.
(** ** Copy and write *)

(** X11. [copy_file] of a file onto a free name succeeds and creates a second
    file object with the same content, named after the destination and owned
    by the copier; the original is untouched.  Writing to the copy afterwards
    leaves the content of the original as it was. *)
Theorem copy_file_independent now now2 s d src i f dst owner content2 owner2 :
  heap s !! current_directory s = Some (ODirectory d) →
  dir_children d !! src = Some i →
  heap s !! i = Some (OFile f) →
  dir_children d !! dst = None →
  ∃ s1 j s2,
    copy_file now src dst owner s
      = Some ((true, "File copied from '" +:+ src +:+ "' to '" +:+ dst +:+ "'"), s1) ∧
    holds (heap s1) (current_directory s1) dst j ∧ j ≠ i ∧
    heap s1 !! j = Some (OFile (mkFile dst (file_content f) owner (now 0) (now 1)
                                  (String.length (file_content f)))) ∧
    heap s1 !! i = Some (OFile f) ∧
    write_file now2 dst content2 owner2 s1
      = Some ((true, "File '" +:+ dst +:+ "' updated successfully"), s2) ∧
    read_file src s2 = Some ((true, file_content f), s2) ∧
    read_file dst s2 = Some ((true, content2), s2).
Proof.
  intros Hd Hsrc Hi Hdst.
  pose proof (fresh_heap_ne _ _ _ Hd) as Hne.
  pose proof (fresh_heap_ne _ _ _ Hi) as Hne'.
  assert (current_directory s ≠ i) as Hci by congruence.
  assert (src ≠ dst) as Hsd by congruence.
  set (j := fresh (dom (heap s))) in *.
  set (copy := mkFile dst (file_content f) owner (now 0) (now 1)
                 (String.length (file_content f))).
  set (d1 := with_children (<[dst := j]> (dir_children d)) d).
  set (s1 := set_heap (<[current_directory s := ODirectory d1]>
                         (<[j := OFile copy]> (heap s))) s).
  set (s2 := set_heap (<[j := OFile (mkFile dst content2 owner (now 0) (now2 0)
                                       (String.length content2))]> (heap s1)) s1).
  exists s1, j, s2.
  assert (heap s1 !! current_directory s = Some (ODirectory d1)) as Hd1.
  { unfold s1. cbn [heap set_heap]. by rewrite lookup_insert_eq. }
  assert (heap s1 !! j = Some (OFile copy)) as Hj1.
  { unfold s1. cbn [heap set_heap]. by rewrite lookup_insert_ne, lookup_insert_eq. }
  assert (heap s1 !! i = Some (OFile f)) as Hi1.
  { unfold s1. cbn [heap set_heap]. by rewrite !lookup_insert_ne. }
  assert (dir_children d1 !! dst = Some j) as Hdst1 by apply lookup_insert_eq.
  assert (dir_children d1 !! src = Some i) as Hsrc1.
  { unfold d1. cbn [dir_children with_children]. by rewrite lookup_insert_ne. }
  split_and!.
  - unfold copy_file. by mcompute.
  - by exists d1.
  - done.
  - done.
  - done.
  - unfold write_file, s2, s1, d1. by mcompute.
  - unfold read_file, s2, s1, d1. by mcompute.
  - unfold read_file, s2, s1, d1. by mcompute.
Qed.

Lemma copy_file_independent_witness :
  ∃ s1 j s2,
    copy_file tick "report.txt" "report_copy.txt" "bob"
      (after [CreateFile "report.txt" "alice" "draft"])
      = Some ((true, "File copied from 'report.txt' to 'report_copy.txt'"), s1) ∧
    holds (heap s1) (current_directory s1) "report_copy.txt" j ∧ j ≠ 1 ∧
    heap s1 !! j = Some (OFile (mkFile "report_copy.txt" "draft" "bob" 0 1 5)) ∧
    heap s1 !! 1 = Some (OFile (mkFile "report.txt" "draft" "alice" 0 1 5)) ∧
    write_file tick "report_copy.txt" "final" "bob" s1
      = Some ((true, "File 'report_copy.txt' updated successfully"), s2) ∧
    read_file "report.txt" s2 = Some ((true, "draft"), s2) ∧
    read_file "report_copy.txt" s2 = Some ((true, "final"), s2).
Proof.
  eapply (copy_file_independent tick tick
            (after [CreateFile "report.txt" "alice" "draft"]) _ "report.txt" 1
            (mkFile "report.txt" "draft" "alice" 0 1 5) "report_copy.txt" "bob"
            "final" "bob").
  - vm_compute. reflexivity.
  - vm_compute. reflexivity.
  - vm_compute. reflexivity.
  - vm_compute. reflexivity.
Defined.

(** X12. [write_file] on the name of an existing file replaces the content,
    recomputes the size and sets the modification time, and keeps the name,
    the owner and the creation time of the file: the owner passed in is
    ignored. *)
Theorem write_file_overwrites now s d n i f content owner :
  heap s !! current_directory s = Some (ODirectory d) →
  dir_children d !! n = Some i →
  heap s !! i = Some (OFile f) →
  write_file now n content owner s
  = Some ((true, "File '" +:+ n +:+ "' updated successfully"),
          set_heap (<[i := OFile (mkFile (file_name f) content (file_owner f)
                                    (file_created_at f) (now 0)
                                    (String.length content))]> (heap s)) s).
Proof. intros Hd Hn Hi. unfold write_file. by mcompute. Qed.

Lemma write_file_overwrites_witness :
  write_file tick "a" "new" "bob" (after [CreateFile "a" "alice" "old"])
  = Some ((true, "File 'a' updated successfully"),
          set_heap (<[1 := OFile (mkFile "a" "new" "alice" 0 0 3)]>
                      (heap (after [CreateFile "a" "alice" "old"])))
                   (after [CreateFile "a" "alice" "old"])).
Proof.
  eapply (write_file_overwrites tick (after [CreateFile "a" "alice" "old"]) _ "a" 1
            (mkFile "a" "old" "alice" 0 1 3) "new" "bob").
  - vm_compute. reflexivity.
  - vm_compute. reflexivity.
  - vm_compute. reflexivity.
Defined.

(** X13. On the name of a directory, [write_file] and [append_file] answer
    that it is a directory, not a file, and [copy_file] answers that it is
    not a file; [copy_file] onto a name that is taken, the source's own name
    included, is refused as already existing.  The entries stay as they
    were. *)
Theorem file_operations_refused now s d n i :
  heap s !! current_directory s = Some (ODirectory d) →
  dir_children d !! n = Some i →
  (∀ x, heap s !! i = Some (ODirectory x) →
     (∀ content owner,
        write_file now n content owner s
          = Some ((false, "'" +:+ n +:+ "' is a directory, not a file"), s)) ∧
     (∀ content,
        append_file now n content s
          = Some ((false, "'" +:+ n +:+ "' is a directory, not a file"), s)) ∧
     (∀ dst owner,
        copy_file now n dst owner s
          = Some ((false, "'" +:+ n +:+ "' is not a file"), s))) ∧
  (∀ f dst owner, heap s !! i = Some (OFile f) →
     is_Some (dir_children d !! dst) →
     ∃ s', copy_file now n dst owner s
             = Some ((false, "File '" +:+ dst +:+ "' already exists"), s') ∧
           root s' = root s ∧ current_directory s' = current_directory s ∧
           ∀ a o, heap s !! a = Some o → heap s' !! a = Some o).
Proof.
  intros Hd Hn. split.
  - intros x Hi. split_and!.
    + intros content owner. unfold write_file. by mcompute.
    + intros content. unfold append_file. by mcompute.
    + intros dst owner. unfold copy_file. by mcompute.
  - intros f dst owner Hi [j Hj].
    pose proof (fresh_heap_ne _ _ _ Hd) as Hne.
    pose proof (fresh_heap_ne _ _ _ Hi) as Hne'.
    eexists. split_and!.
    + unfold copy_file. by mcompute.
    + done.
    + done.
    + intros a o Ha. cbn [heap set_heap]. rewrite lookup_insert_ne; [done|].
      intros <-. by rewrite fresh_heap_None in Ha.
Qed.

Lemma file_operations_refused_witness :
  ∃ s', copy_file tick "a" "a" "bob" (after [CreateFile "a" "alice" "x"])
        = Some ((false, "File 'a' already exists"), s').
Proof.
  destruct (file_operations_refused tick (after [CreateFile "a" "alice" "x"])
              (mkDirectory "/" "alice" None {[ "a" := 1 ]} 0) "a" 1) as [_ Hcopy].
  - vm_compute. reflexivity.
  - vm_compute. reflexivity.
  - destruct (Hcopy (mkFile "a" "x" "alice" 0 1 1) "a" "bob") as (s' & Hs' & _).
    + vm_compute. reflexivity.
    + vm_compute. eexists. reflexivity.
    + exists s'. exact Hs'.
Defined.
(** ** Paths *)

Lemma get_path_rec_mono frames a s r :
  get_path_rec frames a s = Some r → get_path_rec (S frames) a s = Some r.
Proof.
  revert a r. induction frames as [|k IH]; intros a r H; [done|].
  change (get_path_rec (S (S k)) a s) with
    ((do d <- as_directory a;
      match dir_parent d with
      | None => ret "/"
      | Some p =>
          do parent_path <- get_path_rec (S k) p;
          if decide (parent_path = "/") then ret ("/" +:+ dir_name d)
          else ret (parent_path +:+ "/" +:+ dir_name d)
      end) s).
  simpl in H. unfold bind in *.
  destruct (as_directory a s) as [[d s1]|] eqn:Ha; [|done].
  apply as_directory_inv in Ha as [Ha ->].
  destruct (dir_parent d) as [p|]; [|done].
  destruct (get_path_rec k p s) as [[pp s2]|] eqn:Hp; [|done].
  by rewrite (IH _ _ Hp).
Qed.

(** [get_path] reads the heap only. *)
Lemma get_path_rec_heap frames a s q s2 :
  heap s2 = heap s →
  get_path_rec frames a s = Some (q, s) → get_path_rec frames a s2 = Some (q, s2).
Proof.
  intros Hheap. revert a q. induction frames as [|k IH]; intros a q H; [done|].
  simpl in *. unfold bind in *.
  destruct (as_directory a s) as [[d s1]|] eqn:Ha; [|done].
  apply as_directory_inv in Ha as [Ha ->].
  rewrite (as_directory_eq a s2 d) by by rewrite Hheap.
  destruct (dir_parent d) as [p|].
  - destruct (get_path_rec k p s) as [[pp s3]|] eqn:Hp; [|done].
    pose proof (get_path_rec_state _ _ _ _ _ Hp) as ->.
    rewrite (IH _ _ Hp). case_decide; unfold ret in *; by simplify_eq.
  - unfold ret in *. by simplify_eq.
Qed.

(** The path of a directory is the path of its parent followed by its name. *)
Lemma get_path_child s i di c p :
  wf s → live s c → is_directory_at (heap s) c →
  heap s !! i = Some (ODirectory di) → dir_parent di = Some c →
  get_path c s = Some (p, s) →
  get_path i s
  = Some (if decide (p = "/") then "/" +:+ dir_name di else p +:+ "/" +:+ dir_name di, s).
Proof.
  intros [Hh Hr _ _] Hlc Hdc Hi Hpar Hp. unfold get_path in *.
  destruct (get_path_rec_total s (size (heap s)) c ∅ Hh Hr Hlc Hdc) as [q Hq].
  { intros v Hv. by apply not_elem_of_empty in Hv. }
  { rewrite difference_empty_L, size_dom. lia. }
  pose proof (get_path_rec_mono _ _ _ _ Hq) as Hq'. rewrite Hp in Hq'.
  injection Hq' as <-.
  simpl. unfold bind. rewrite (as_directory_eq _ _ _ Hi), Hpar, Hq.
  by case_decide.
Qed.


Lemma get_current_path_at s a q :
  get_path a s = Some (q, s) →
  get_current_path (set_current_directory a s) = Some (q, set_current_directory a s).
Proof.
  intros H. unfold get_current_path, bind. cbn [get_current_directory current_directory
    set_current_directory]. unfold get_path in *.
  by apply (get_path_rec_heap _ _ s).
Qed.



(** X15. [change_directory("/")] always succeeds and puts the cursor on the
    root, and whenever the cursor is on the root the current path is "/",
    whatever was done before. *)
Theorem change_directory_root s :
  reachable s →
  change_directory "/" s
    = Some ((true, "Changed to root directory"), set_current_directory (root s) s) ∧
  get_current_path (set_current_directory (root s) s)
    = Some ("/", set_current_directory (root s) s) ∧
  (current_directory s = root s → get_current_path s = Some ("/", s)).
Proof.
  intros Hwf%reachable_wf. destruct (wf_root _ Hwf) as (d & Hd & Hp).
  assert (∀ s2, heap s2 = heap s → get_path (root s) s2 = Some ("/", s2)) as Hroot.
  { intros s2 Hheap. unfold get_path. simpl. unfold bind.
    rewrite (as_directory_eq (root s) s2 d) by by rewrite Hheap. by rewrite Hp. }
  split_and!.
  - done.
  - unfold get_current_path, bind. cbn [get_current_directory current_directory
      set_current_directory]. by apply Hroot.
  - intros Hc. unfold get_current_path, bind. cbn [get_current_directory].
    rewrite Hc. by apply Hroot.
Qed.

Lemma change_directory_root_witness :
  get_current_path
    (set_current_directory 0 (after [CreateDirectory "docs" "alice"; ChangeDirectory "docs"]))
  = Some ("/", set_current_directory 0
                 (after [CreateDirectory "docs" "alice"; ChangeDirectory "docs"])).
Proof.
  destruct (change_directory_root
              (after [CreateDirectory "docs" "alice"; ChangeDirectory "docs"]))
    as (_ & Hpath & _).
  - apply after_reachable.
  - exact Hpath.
Defined.
(* ================================================================= *)
(** * Further properties of the registry *)

(** X16. A user name is registered once: after a successful [create_user],
    creating the same name again, with any last name, is refused as already
    existing and changes nothing. *)
Theorem create_user_again_fails now name last nfs msg nfs' now' last' :
  create_user now name last nfs = Some ((true, msg), nfs') →
  create_user now' name last' nfs'
    = Some ((false, "User '" +:+ name +:+ "' already exists"), nfs').
Proof.
  unfold create_user at 1. destruct (users nfs !! name); [done|].
  intros [= _ <-]. unfold create_user. cbn [users]. by rewrite lookup_insert_eq.
Qed.

Lemma create_user_again_fails_witness :
  ∃ nfs', create_user tick "alice" "Smith" NetworkFileSystem_init
            = Some ((true, "User 'alice' created successfully"), nfs') ∧
          create_user tick "alice" "Other" nfs'
            = Some ((false, "User 'alice' already exists"), nfs').
Proof.
  eexists. split; [vm_compute; reflexivity|].
  eapply (create_user_again_fails tick "alice" "Smith" NetworkFileSystem_init
            "User 'alice' created successfully").
  vm_compute. reflexivity.
Defined.

(** X17. No command of the registry removes a user, rebinds a name or
    touches a file system: a registered name refers to the same user object
    after [create_user], [login] or [logout], and that object has the same
    user name, last name and file system (only its flag may differ). *)
Theorem nfs_exec_keeps_users now c nfs r nfs' n a u :
  nfs_exec now c nfs = Some (r, nfs') →
  users nfs !! n = Some a →
  user_heap nfs !! a = Some u →
  users nfs' !! n = Some a ∧
  ∃ u', user_heap nfs' !! a = Some u' ∧
        username u' = username u ∧ lastname u' = lastname u ∧
        file_system u' = file_system u.
Proof.
  intros H Hn Ha. destruct c as [name last|name|]; simpl in H.
  - unfold create_user in H. destruct (users nfs !! name) eqn:Hname.
    + injection H as _ <-. split; [done|]. by exists u.
    + injection H as _ <-. cbn [users user_heap].
      assert (name ≠ n) by congruence.
      assert (fresh (dom (user_heap nfs)) ≠ a) as Hfresh.
      { intros <-.
        by rewrite (not_elem_of_dom_1 _ _ (is_fresh (dom (user_heap nfs)))) in Ha. }
      rewrite !lookup_insert_ne by done. split; [done|]. by exists u.
  - unfold login in H. destruct (users nfs !! name) as [b|].
    + destruct (user_heap nfs !! b) as [ub|] eqn:Hb; [|done].
      injection H as _ <-. cbn [users user_heap]. split; [done|].
      destruct (decide (b = a)) as [->|Hne].
      * rewrite lookup_insert_eq. simplify_eq. by eexists.
      * rewrite lookup_insert_ne by done. by exists u.
    + injection H as _ <-. split; [done|]. by exists u.
  - unfold logout in H. destruct (current_user nfs) as [b|].
    + destruct (user_heap nfs !! b) as [ub|] eqn:Hb; [|done].
      injection H as _ <-. cbn [users user_heap]. split; [done|].
      destruct (decide (b = a)) as [->|Hne].
      * rewrite lookup_insert_eq. simplify_eq. by eexists.
      * rewrite lookup_insert_ne by done. by exists u.
    + injection H as _ <-. split; [done|]. by exists u.
Qed.

Lemma nfs_exec_keeps_users_witness :
  ∃ r nfs',
    nfs_exec tick (Login "alice") nfs_alice_bob = Some (r, nfs') ∧
    users nfs' !! "alice" = Some 0.
Proof.
  eexists _, _. split; [vm_compute; reflexivity|].
  eapply (nfs_exec_keeps_users tick (Login "alice") nfs_alice_bob _ _ "alice" 0).
  - vm_compute. reflexivity.
  - vm_compute. reflexivity.
  - vm_compute. reflexivity.
Defined.

(** What holds of every reachable registry. *)
Lemma nfs_reachable_inv nfs :
  nfs_reachable nfs →
  (∀ n a, users nfs !! n = Some a →
     ∃ u, user_heap nfs !! a = Some u ∧ username u = n) ∧
  (∀ a, current_user nfs = Some a →
     (∃ n, users nfs !! n = Some a) ∧ flag nfs a = Some true).
Proof.
  induction 1 as [|nfs now c r nfs' Hr [IHu IHc] Hstep]; [done|].
  destruct c as [name last|name|]; simpl in Hstep.
  - unfold create_user in Hstep. destruct (users nfs !! name) eqn:Hname.
    { injection Hstep as _ <-. by split. }
    injection Hstep as _ <-. cbn [users user_heap current_user]. unfold flag.
    cbn [user_heap].
    assert (∀ a u, user_heap nfs !! a = Some u → fresh (dom (user_heap nfs)) ≠ a) as Hfresh.
    { intros a u Ha <-.
      by rewrite (not_elem_of_dom_1 _ _ (is_fresh (dom (user_heap nfs)))) in Ha. }
    split.
    + intros n a Hn. destruct (decide (name = n)) as [->|Hne].
      * rewrite lookup_insert_eq in Hn. injection Hn as <-.
        rewrite lookup_insert_eq. by eexists.
      * rewrite lookup_insert_ne in Hn by done.
        destruct (IHu _ _ Hn) as (u & Hu & Hname').
        exists u. split; [|done]. rewrite lookup_insert_ne; [done|]. by eapply Hfresh.
    + intros a Ha. destruct (IHc _ Ha) as [[n Hn] Hflag]. split.
      * exists n. rewrite lookup_insert_ne; [done|]. congruence.
      * unfold flag in Hflag. destruct (user_heap nfs !! a) as [u|] eqn:Hu; [|done].
        rewrite lookup_insert_ne; [by rewrite Hu|]. by eapply Hfresh.
  - unfold login in Hstep. destruct (users nfs !! name) as [b|] eqn:Hname.
    2:{ injection Hstep as _ <-. by split. }
    destruct (user_heap nfs !! b) as [ub|] eqn:Hb; [|done].
    injection Hstep as _ <-. cbn [users user_heap current_user]. unfold flag.
    cbn [user_heap]. split.
    + intros n a Hn. destruct (IHu _ _ Hn) as (u & Hu & Hname').
      destruct (decide (b = a)) as [->|Hne].
      * rewrite lookup_insert_eq. simplify_eq. by eexists.
      * rewrite lookup_insert_ne by done. eauto.
    + intros a [= <-]. split; [by exists name|]. by rewrite lookup_insert_eq.
  - unfold logout in Hstep. destruct (current_user nfs) as [b|] eqn:Hcur.
    2:{ injection Hstep as _ <-. split; [done|]. intros a Ha. congruence. }
    destruct (user_heap nfs !! b) as [ub|] eqn:Hb; [|done].
    injection Hstep as _ <-. cbn [users user_heap current_user]. split; [|done].
    intros n a Hn. destruct (IHu _ _ Hn) as (u & Hu & Hname').
    destruct (decide (b = a)) as [->|Hne].
    + rewrite lookup_insert_eq. simplify_eq. by eexists.
    + rewrite lookup_insert_ne by done. eauto.
Qed.

(** X18. In every reachable registry a registered name refers to a user
    object that carries that name, the active user is one of the registered
    users, and the flag of the active user is true. *)
Theorem active_user_is_registered nfs :
  nfs_reachable nfs →
  (∀ n a, users nfs !! n = Some a →
     ∃ u, user_heap nfs !! a = Some u ∧ username u = n) ∧
  (∀ a, current_user nfs = Some a →
     ∃ n u, users nfs !! n = Some a ∧ user_heap nfs !! a = Some u ∧
            username u = n ∧ logged_in u = true).
Proof.
  intros Hr. destruct (nfs_reachable_inv nfs Hr) as [Hu Hc]. split; [done|].
  intros a Ha. destruct (Hc a Ha) as [[n Hn] Hflag].
  destruct (Hu n a Hn) as (u & Hua & Hname).
  exists n, u. split_and!; [done..|].
  unfold flag in Hflag. rewrite Hua in Hflag. by injection Hflag.
Qed.

Lemma nfs_alice_bob_reachable : nfs_reachable nfs_alice_bob.
Proof.
  eapply (nfs_reachable_step _ tick (CreateUser "bob" "Jones"));
    [eapply (nfs_reachable_step _ tick (CreateUser "alice" "Smith"));
       [apply nfs_reachable_init|vm_compute; reflexivity]
    |vm_compute; reflexivity].
Qed.

Lemma active_user_is_registered_witness :
  ∃ u, user_heap nfs_alice_bob !! 1 = Some u ∧ username u = "bob".
Proof.
  destruct (active_user_is_registered nfs_alice_bob nfs_alice_bob_reachable) as [Hu _].
  apply (Hu "bob" 1). vm_compute. reflexivity.
Defined.

(** X19. For a registered name, [login] welcomes the user by last name and
    makes that user the active one; [logout] right after names the user,
    leaves no active user and clears the flag; a second [logout] is refused;
    and the user's file system is the same through all of it. *)
Theorem login_then_logout nfs n a u :
  nfs_reachable nfs →
  users nfs !! n = Some a →
  user_heap nfs !! a = Some u →
  ∃ nfs1 nfs2,
    login n nfs = Some ((true, "Welcome " +:+ lastname u +:+ "!"), nfs1) ∧
    current_user nfs1 = Some a ∧
    logout nfs1 = Some ((true, "User '" +:+ n +:+ "' logged out"), nfs2) ∧
    current_user nfs2 = None ∧
    user_heap nfs2 !! a = Some (with_logged_in false u) ∧
    logout nfs2 = Some ((false, "No user logged in"), nfs2).
Proof.
  intros Hr Hn Ha.
  destruct (nfs_reachable_inv nfs Hr) as [Hu _].
  destruct (Hu n a Hn) as (u' & Hu' & Hname). simplify_eq.
  eexists _, _. split_and!.
  - unfold login. by rewrite Hn, Ha.
  - done.
  - unfold logout. cbn [current_user user_heap]. by rewrite lookup_insert_eq.
  - done.
  - cbn [user_heap]. by rewrite insert_insert_eq, lookup_insert_eq.
  - done.
Qed.

Lemma login_then_logout_witness :
  ∃ nfs1 nfs2,
    login "bob" nfs_alice_bob = Some ((true, "Welcome Jones!"), nfs1) ∧
    current_user nfs1 = Some 1 ∧
    logout nfs1 = Some ((true, "User 'bob' logged out"), nfs2) ∧
    current_user nfs2 = None ∧
    user_heap nfs2 !! 1
      = Some (with_logged_in false (User_init "bob" "Jones" 0)) ∧
    logout nfs2 = Some ((false, "No user logged in"), nfs2).
Proof.
  apply (login_then_logout nfs_alice_bob "bob" 1 (User_init "bob" "Jones" 0)).
  - apply nfs_alice_bob_reachable.
  - vm_compute. reflexivity.
  - vm_compute. reflexivity.
Defined.

(** ** Listing *)

Lemma ltb_trans a b c :
  String.ltb a b = true → String.ltb b c = true → String.ltb a c = true.
Proof.
  unfold String.ltb. intros Hab Hbc.
  assert (OrderedTypeEx.String_as_OT.lt a b) as H1.
  { apply OrderedTypeEx.String_as_OT.cmp_lt.
    unfold OrderedTypeEx.String_as_OT.cmp. by destruct (String.compare a b). }
  assert (OrderedTypeEx.String_as_OT.lt b c) as H2.
  { apply OrderedTypeEx.String_as_OT.cmp_lt.
    unfold OrderedTypeEx.String_as_OT.cmp. by destruct (String.compare b c). }
  pose proof (OrderedTypeEx.String_as_OT.lt_trans _ _ _ H1 H2) as H3.
  apply OrderedTypeEx.String_as_OT.cmp_lt in H3.
  unfold OrderedTypeEx.String_as_OT.cmp in H3. by rewrite H3.
Qed.

Lemma leb_ltb a b : String.leb a b = true → a ≠ b → String.ltb a b = true.
Proof.
  unfold String.leb, String.ltb. intros H Hne.
  destruct (String.compare a b) eqn:E; [|done..].
  by apply String.compare_eq_iff in E.
Qed.

Lemma not_leb_ltb a b : String.leb a b = false → String.ltb b a = true.
Proof.
  unfold String.leb, String.ltb. rewrite (String.compare_antisym b a).
  by destruct (String.compare a b).
Qed.

Lemma insert_item_perm x l : insert_item x l ≡ₚ x :: l.
Proof.
  induction l as [|y l IH]; [done|]. cbn [insert_item].
  destruct (String.leb x.1 y.1); [done|].
  rewrite IH. apply perm_swap.
Qed.

Lemma insert_item_sorted x l :
  StronglySorted key_lt l → x.1 ∉ l.*1 →
  StronglySorted key_lt (insert_item x l).
Proof.
  induction 1 as [|y l Hs IH Hy]; intros Hx.
  - repeat constructor.
  - cbn [insert_item]. rewrite fmap_cons, not_elem_of_cons in Hx.
    destruct Hx as [Hxy Hx].
    destruct (String.leb x.1 y.1) eqn:E.
    + pose proof (leb_ltb _ _ E Hxy) as Hlt.
      constructor; [by constructor|].
      constructor; [done|].
      eapply Forall_impl; [done|]. intros z Hz. by eapply ltb_trans.
    + constructor; [by apply IH|].
      rewrite insert_item_perm. constructor; [|done].
      by apply not_leb_ltb.
Qed.

Lemma sorted_items_perm (m : gmap string addr) : sorted_items m ≡ₚ map_to_list m.
Proof.
  unfold sorted_items. induction (map_to_list m) as [|x l IH]; [done|].
  cbn [foldr]. by rewrite insert_item_perm, IH.
Qed.

Lemma sorted_items_sorted (m : gmap string addr) :
  StronglySorted key_lt (sorted_items m).
Proof.
  unfold sorted_items.
  pose proof (NoDup_fst_map_to_list m) as Hnd.
  induction (map_to_list m) as [|x l IH]; [constructor|].
  rewrite fmap_cons in Hnd. apply NoDup_cons in Hnd as [Hx Hnd].
  cbn [foldr]. apply insert_item_sorted; [by apply IH|].
  intros Hin. apply Hx.
  apply list_elem_of_fmap in Hin as (y & -> & Hy).
  apply list_elem_of_fmap. exists y. split; [done|].
  assert (foldr insert_item [] l ≡ₚ l) as <-; [|done].
  clear. induction l as [|x l IH]; [done|].
  cbn [foldr]. by rewrite insert_item_perm, IH.
Qed.

Lemma elem_of_sorted_items (m : gmap string addr) n i :
  (n, i) ∈ sorted_items m ↔ m !! n = Some i.
Proof. by rewrite sorted_items_perm, elem_of_map_to_list. Qed.

Lemma entry_name_entry_of strftime n o : entry_name (entry_of strftime n o) = n.
Proof. by destruct o. Qed.

Lemma list_items_eq strftime s a items :
  wf_heap (heap s) → heap_ok (heap s) →
  (∀ n i, (n, i) ∈ items → holds (heap s) a n i) →
  ∃ l, list_items strftime items s = Some (l, s) ∧
       Forall2 (λ x e, ∃ o, heap s !! x.2 = Some o ∧ e = entry_of strftime x.1 o)
               items l.
Proof.
  intros Hwf Hok. induction items as [|[n i] items IH]; intros Hin.
  - exists []. split; [done|constructor].
  - destruct IH as (l & Hl & Hall).
    { intros n' i' H. apply Hin. by right. }
    destruct (wf_child _ Hwf a n i) as (o & Ho & Hname & _).
    { apply Hin. by left. }
    exists (entry_of strftime n o :: l). split.
    + cbn [list_items].
      rewrite (bind_eq _ _ _ _ _ (isinstance_File_eq _ _ _ Ho)).
      destruct o as [f|d]; cbn [is_file_obj].
      * unfold get_info.
        rewrite (bind_eq _ _ _ _ _ (bind_eq _ _ _ _ _ (as_file_eq _ _ _ Ho))).
        unfold ret at 1. cbv beta.
        rewrite (bind_eq _ _ _ _ _ Hl). unfold ret.
        cbn [obj_name] in Hname. pose proof (Hok _ _ Ho) as Hsz.
        cbn [obj_ok] in Hsz. cbn [entry_of]. by rewrite Hname, Hsz.
      * rewrite (bind_eq _ _ _ _ _ (bind_eq _ _ _ _ _ (as_directory_eq _ _ _ Ho))).
        unfold ret at 1. cbv beta.
        rewrite (bind_eq _ _ _ _ _ Hl). done.
    + constructor; [|done]. by exists o.
Qed.

Lemma list_directory_eq strftime s d :
  wf s → heap_ok (heap s) →
  heap s !! current_directory s = Some (ODirectory d) →
  ∃ l, list_directory strftime s = Some (l, s) ∧
       Forall2 (λ x e, ∃ o, heap s !! x.2 = Some o ∧ e = entry_of strftime x.1 o)
               (sorted_items (dir_children d)) l.
Proof.
  intros Hwf Hok Hd.
  destruct (list_items_eq strftime s (current_directory s)
              (sorted_items (dir_children d)) (wf_wf_heap _ Hwf) Hok)
    as (l & Hl & Hall).
  { intros n i Hin%elem_of_sorted_items. by exists d. }
  exists l. split; [|done].
  unfold list_directory, get_current_directory, list_contents.
  unfold bind at 1. by rewrite (bind_eq _ _ _ _ _ (as_directory_eq _ _ _ Hd)).
Qed.

(** X20. In a reachable session [list_directory] raises nothing, changes
    nothing and returns one entry per child of the current directory, in the
    strict order of the names: an entry is in the listing exactly when it is
    the entry of a child, which carries the child's key as its name, its
    class as its type, its owner and dates and, for a file, the length of
    its content as its size. *)
Theorem list_directory_sorted strftime s :
  reachable s →
  ∃ l, list_directory strftime s = Some (l, s) ∧
       StronglySorted (λ e1 e2, String.ltb (entry_name e1) (entry_name e2) = true) l ∧
       ∀ e, e ∈ l ↔
            ∃ n i o, holds (heap s) (current_directory s) n i ∧
                     heap s !! i = Some o ∧ e = entry_of strftime n o.
Proof.
  intros Hr. pose proof (reachable_wf _ Hr) as Hwf.
  pose proof (reachable_heap_ok _ Hr) as Hok.
  destruct (wf_cwd _ Hwf) as [d Hd].
  destruct (list_directory_eq strftime s d Hwf Hok Hd) as (l & Hl & Hall).
  exists l. split; [done|split].
  - pose proof (sorted_items_sorted (dir_children d)) as Hs.
    clear Hl. revert l Hall. induction Hs as [|x items Hs IH Hx]; intros l Hall.
    + apply Forall2_nil_inv_l in Hall as ->. constructor.
    + apply Forall2_cons_inv_l in Hall as (e & l' & (o & Ho & ->) & Hall & ->).
      constructor; [by apply IH|].
      rewrite entry_name_entry_of.
      clear IH Hs. revert l' Hall.
      induction Hx as [|y items Hy Hx IH]; intros l' Hall.
      * apply Forall2_nil_inv_l in Hall as ->. constructor.
      * apply Forall2_cons_inv_l in Hall as (e & l'' & (oy & Hoy & ->) & Hall & ->).
        constructor; [|by apply IH]. by rewrite entry_name_entry_of.
  - intros e. split.
    + intros He. apply list_elem_of_lookup in He as [k Hk].
      destruct (Forall2_lookup_r _ _ _ _ _ Hall Hk) as ([n i] & Hx & o & Ho & ->).
      apply list_elem_of_lookup_2, elem_of_sorted_items in Hx.
      exists n, i, o. split; [by exists d|done].
    + intros (n & i & o & (d' & Hd' & Hn) & Ho & ->).
      assert (d' = d) as -> by congruence.
      apply elem_of_sorted_items, list_elem_of_lookup in Hn as [k Hk].
      destruct (Forall2_lookup_l _ _ _ _ _ Hall Hk) as (e & He & o' & Ho' & ->).
      cbn [fst snd] in *. assert (o' = o) as -> by congruence.
      by eapply list_elem_of_lookup_2.
Qed.

Lemma list_directory_sorted_witness :
  ∃ l, list_directory (λ _, "-")
         (after [CreateFile "b" "alice" "x"; CreateDirectory "a" "alice"])
       = Some (l, after [CreateFile "b" "alice" "x"; CreateDirectory "a" "alice"]).
Proof.
  destruct (list_directory_sorted (λ _, "-")
              (after [CreateFile "b" "alice" "x"; CreateDirectory "a" "alice"]))
    as (l & Hl & _).
  - apply after_reachable.
  - exists l. exact Hl.
Defined.
(** ** Who owns what *)

Lemma owned_by_insert w h a o :
  owned_by w h → obj_owner o = w → owned_by w (<[a := o]> h).
Proof.
  intros Hh Ho x o' Hx. destruct (decide (a = x)) as [->|Hne].
  - rewrite lookup_insert_eq in Hx. by simplify_eq.
  - rewrite lookup_insert_ne in Hx by done. by eapply Hh.
Qed.

Lemma owned_by_keeps w h h' :
  owned_by w h → heap_keeps h h' → dom h' ⊆ dom h → owned_by w h'.
Proof.
  intros Hh Hk Hdom a o' Ho'.
  assert (is_Some (h !! a)) as [o Ho].
  { apply elem_of_dom, Hdom, elem_of_dom. eauto. }
  destruct (Hk _ _ Ho) as (o1 & Ho1 & _ & _ & Hown & _).
  rewrite Ho' in Ho1. simplify_eq. rewrite Hown. by eapply Hh.
Qed.


Lemma owned_by_alter w g h a :
  (∀ o, obj_owner (g o) = obj_owner o) → owned_by w h → owned_by w (alter g a h).
Proof.
  intros Hg Hh x o' Hx. rewrite lookup_alter in Hx. case_decide as Hax.
  - subst x. destruct (h !! a) as [o|] eqn:Ho; simplify_eq/=.
    rewrite Hg. by eapply Hh.
  - by eapply Hh.
Qed.

Ltac owns Hh :=
  repeat (apply owned_by_insert; [|first [done | by eapply (Hh _ (ODirectory _)) | by eapply (Hh _ (OFile _))]]);
  exact Hh.

Lemma exec_owned_by w now c s r s' :
  wf s → owned_by w (heap s) →
  (∀ o, command_owner c = Some o → o = w) →
  exec now c s = Some (r, s') → owned_by w (heap s').
Proof.
  intros Hwf Hh Hc H. pose proof Hwf as [Hwh Hr [d Hd] Hl].
  pose proof (fresh_heap_ne _ _ _ Hd) as Hne.
  pose proof (fresh_heap_None (heap s)) as Hfresh.
  pose proof (Hh _ _ Hd) as Hdo. cbn [obj_owner] in Hdo.
  destruct c as [name owner content|name owner|path|name content owner
                |name content|name|source destination|source destination owner];
    cbn [exec] in H; cbn [command_owner] in Hc;
    try (specialize (Hc _ eq_refl); subst owner).
  - unfold create_file in H. destruct (dir_children d !! name) eqn:Hn; mcompute; owns Hh.
  - unfold create_directory in H. destruct (dir_children d !! name) eqn:Hn; mcompute;
      [owns Hh|]. case_bool_decide as Hdot; mcompute; owns Hh.
  - apply change_directory_heap in H as [-> _]. done.
  - unfold write_file in H. destruct (dir_children d !! name) as [i|] eqn:Hn.
    + destruct (wf_child_lookup s name i Hwf) as ([f|x] & Ho & _); [by exists d|..];
        pose proof (Hh _ _ Ho) as Hfo; cbn [obj_owner] in Hfo;
        mcompute; owns Hh.
    + unfold create_file in H. mcompute. owns Hh.
  - unfold append_file in H. destruct (dir_children d !! name) as [i|] eqn:Hn.
    + destruct (wf_child_lookup s name i Hwf) as ([f|x] & Ho & _); [by exists d|..];
        pose proof (Hh _ _ Ho) as Hfo; cbn [obj_owner] in Hfo;
        mcompute; owns Hh.
    + mcompute. owns Hh.
  - apply (delete_effect _ _ _ _ Hwf) in H as [[_ ->]|(_ & _ & ->)]; [done|].
    cbn [heap set_heap]. apply owned_by_alter; [by intros []|done].
  - apply (move_effect _ _ _ _ _ Hwf) in H as [[_ ->]|(_ & x & y & _ & _ & _ & _ & ->)];
      [done|].
    cbn [heap set_heap].
    apply owned_by_alter; [by intros []|].
    apply owned_by_alter; [by intros []|].
    apply owned_by_alter; [by intros []|done].
  - unfold copy_file in H. destruct (dir_children d !! source) as [i|] eqn:Hn.
    + destruct (wf_child_lookup s source i Hwf) as ([f|x] & Ho & _); [by exists d|..].
      * pose proof (fresh_heap_ne _ _ _ Ho) as Hne'.
        mcompute. destruct (dir_children d !! destination) eqn:Hdst; mcompute; owns Hh.
      * mcompute. owns Hh.
    + mcompute. owns Hh.
Qed.
(** ** The terminal *)

Lemma with_file_system_same u : with_file_system (file_system u) u = u.
Proof. by destruct u. Qed.

Lemma set_user_same a u n : user_heap n !! a = Some u → set_user a u n = n.
Proof. intros H. destruct n. unfold set_user. cbn in *. by rewrite insert_id. Qed.

Lemma set_nfs_same t : set_nfs (nfs t) t = t.
Proof. by destruct t. Qed.

Lemma t_bind_eq {A B} (m : T A) (k : A → T B) t x out t1 :
  m t = Some (x, out, t1) →
  t_bind m k t = match k x t1 with
                 | Some (y, out', t2) => Some (y, (out ++ out')%list, t2)
                 | None => None
                 end.
Proof. unfold t_bind. by intros ->. Qed.

Lemma check_login_None t :
  current_user (nfs t) = None →
  check_login t = Some (false, [Print "Error: No user logged in. Please login first."], t).
Proof. intros H. unfold check_login, t_bind, nfs_read, get_current_user. by rewrite H. Qed.

Lemma check_login_Some t a :
  current_user (nfs t) = Some a → check_login t = Some (true, [], t).
Proof. intros H. unfold check_login, t_bind, nfs_read, get_current_user. by rewrite H. Qed.

Lemma the_current_user_Some t a :
  current_user (nfs t) = Some a → the_current_user t = Some (a, [], t).
Proof. intros H. unfold the_current_user, t_bind, nfs_read, get_current_user. by rewrite H. Qed.

Lemma load_user_Some t a u :
  user_heap (nfs t) !! a = Some u → load_user a t = Some (u, [], t).
Proof. intros H. unfold load_user. by rewrite H. Qed.

(** A call that changes the file system of the active user. *)
Lemma file_system_call_exec now c t a u :
  terminal_ok t →
  current_user (nfs t) = Some a →
  user_heap (nfs t) !! a = Some u →
  (∀ owner, command_owner c = Some owner → owner = username u) →
  ∃ r t', file_system_call a (exec now c) t = Some (r, [], t') ∧ terminal_step t t'.
Proof.
  intros Hok Hcur Hu Hown.
  destruct (ok_file_system _ Hok _ _ Hu) as [Hr _].
  destruct (exec_defined now c _ (reachable_wf _ Hr)) as (r & fs' & Hexec).
  exists r, (set_nfs (set_user a (with_file_system fs' u) (nfs t)) t). split.
  - unfold file_system_call. by rewrite Hu, Hexec.
  - by eapply step_file_system.
Qed.

(** A call that only reads it. *)
Lemma file_system_call_read {A} (m : M A) t a u x :
  user_heap (nfs t) !! a = Some u →
  m (file_system u) = Some (x, file_system u) →
  file_system_call a m t = Some (x, [], t).
Proof.
  intros Hu Hm. unfold file_system_call. rewrite Hu, Hm.
  by rewrite with_file_system_same, set_user_same, set_nfs_same.
Qed.

Lemma get_current_path_defined s : wf s → ∃ p, get_current_path s = Some (p, s).
Proof.
  intros [Hh Hr Hc Hl]. unfold get_current_path, bind. cbn [get_current_directory].
  by apply get_path_total.
Qed.

Lemma insert_user_perm x l : insert_user x l ≡ₚ x :: l.
Proof.
  induction l as [|y l IH]; [done|]. cbn [insert_user].
  destruct (Nat.leb x.2 y.2); [done|].
  rewrite IH. apply perm_swap.
Qed.

Lemma sorted_users_perm l : foldr insert_user [] l ≡ₚ l.
Proof.
  induction l as [|x l IH]; [done|].
  cbn [foldr]. by rewrite insert_user_perm, IH.
Qed.

Lemma elem_of_list_users n name : name ∈ list_users n ↔ is_Some (users n !! name).
Proof.
  unfold list_users. rewrite sorted_users_perm, list_elem_of_fmap. split.
  - intros ([k a] & -> & H%elem_of_map_to_list). by exists a.
  - intros [a H]. exists (name, a). split; [done|]. by apply elem_of_map_to_list.
Qed.

Section handlers.

Context (strftime : timestamp → string) (check_mark : string).
Context (t : TerminalSimulator) (Hok : terminal_ok t).

Ltac guest Hcur := rewrite (t_bind_eq _ _ _ _ _ _ (check_login_None _ Hcur)); cbn; eauto using step_same.

Ltac user Hcur Hu :=
  rewrite ?(t_bind_eq _ _ _ _ _ _ (check_login_Some _ _ Hcur)); cbn [negb];
  rewrite ?(t_bind_eq _ _ _ _ _ _ (the_current_user_Some _ _ Hcur)),
          ?(t_bind_eq _ _ _ _ _ _ (load_user_Some _ _ _ Hu)).

Ltac done_step := cbn; eauto using step_same.

Ltac mutate Hcur Hu now c :=
  let r := fresh "r" in let t' := fresh "t'" in
  let Hcall := fresh "Hcall" in let Hstep := fresh "Hstep" in
  destruct (file_system_call_exec now c t _ _ Hok Hcur Hu)
    as (r & t' & Hcall & Hstep); [by intros ? [= <-] || done|];
  cbn [exec] in Hcall; rewrite (t_bind_eq _ _ _ _ _ _ Hcall);
  try destruct r as [[] ?]; cbn; eauto using step_same.

Lemma mkdir_command_spec now args :
  ∃ out t', mkdir_command now args t = Some (tt, out, t') ∧ terminal_step t t'.
Proof.
  unfold mkdir_command. destruct (current_user (nfs t)) as [a|] eqn:Hcur; [|guest Hcur].
  destruct (ok_current _ Hok _ Hcur) as [u Hu].
  user Hcur Hu. destruct args as [|dirname args]; [done_step|].
  user Hcur Hu. mutate Hcur Hu now (CreateDirectory dirname (username u)).
Qed.

Lemma touch_command_spec now args :
  ∃ out t', touch_command now args t = Some (tt, out, t') ∧ terminal_step t t'.
Proof.
  unfold touch_command. destruct (current_user (nfs t)) as [a|] eqn:Hcur; [|guest Hcur].
  destruct (ok_current _ Hok _ Hcur) as [u Hu].
  user Hcur Hu. destruct args as [|filename args]; [done_step|].
  user Hcur Hu. mutate Hcur Hu now (CreateFile filename (username u) EmptyString).
Qed.

Lemma write_command_spec now args :
  ∃ out t', write_command now args t = Some (tt, out, t') ∧ terminal_step t t'.
Proof.
  unfold write_command. destruct (current_user (nfs t)) as [a|] eqn:Hcur; [|guest Hcur].
  destruct (ok_current _ Hok _ Hcur) as [u Hu].
  user Hcur Hu. destruct args as [|filename [|word args]]; [done_step..|].
  user Hcur Hu.
  mutate Hcur Hu now (WriteFile filename (String.concat " " (word :: args)) (username u)).
Qed.

Lemma cp_command_spec now args :
  ∃ out t', cp_command now args t = Some (tt, out, t') ∧ terminal_step t t'.
Proof.
  unfold cp_command. destruct (current_user (nfs t)) as [a|] eqn:Hcur; [|guest Hcur].
  destruct (ok_current _ Hok _ Hcur) as [u Hu].
  user Hcur Hu. destruct args as [|source [|destination args]]; [done_step..|].
  user Hcur Hu. mutate Hcur Hu now (CopyFile source destination (username u)).
Qed.

Lemma cd_command_spec args :
  ∃ out t', cd_command args t = Some (tt, out, t') ∧ terminal_step t t'.
Proof.
  unfold cd_command. destruct (current_user (nfs t)) as [a|] eqn:Hcur; [|guest Hcur].
  destruct (ok_current _ Hok _ Hcur) as [u Hu].
  user Hcur Hu. destruct args as [|path args]; [done_step|].
  user Hcur Hu. mutate Hcur Hu tick (ChangeDirectory path).
Qed.

Lemma rm_command_spec args :
  ∃ out t', rm_command args t = Some (tt, out, t') ∧ terminal_step t t'.
Proof.
  unfold rm_command. destruct (current_user (nfs t)) as [a|] eqn:Hcur; [|guest Hcur].
  destruct (ok_current _ Hok _ Hcur) as [u Hu].
  user Hcur Hu. destruct args as [|name args]; [done_step|].
  user Hcur Hu. mutate Hcur Hu tick (Delete name).
Qed.

Lemma mv_command_spec args :
  ∃ out t', mv_command args t = Some (tt, out, t') ∧ terminal_step t t'.
Proof.
  unfold mv_command. destruct (current_user (nfs t)) as [a|] eqn:Hcur; [|guest Hcur].
  destruct (ok_current _ Hok _ Hcur) as [u Hu].
  user Hcur Hu. destruct args as [|source [|destination args]]; [done_step..|].
  user Hcur Hu. mutate Hcur Hu tick (Move source destination).
Qed.

Lemma pwd_command_spec args :
  ∃ out, pwd_command args t = Some (tt, out, t).
Proof.
  unfold pwd_command. destruct (current_user (nfs t)) as [a|] eqn:Hcur; [|guest Hcur].
  destruct (ok_current _ Hok _ Hcur) as [u Hu].
  destruct (ok_file_system _ Hok _ _ Hu) as [Hr%reachable_wf _].
  destruct (get_current_path_defined _ Hr) as [p Hp].
  user Hcur Hu.
  rewrite (t_bind_eq _ _ _ _ _ _ (file_system_call_read _ _ _ _ _ Hu Hp)).
  cbn. eauto.
Qed.

Lemma read_command_spec args :
  ∃ out, read_command args t = Some (tt, out, t).
Proof.
  unfold read_command. destruct (current_user (nfs t)) as [a|] eqn:Hcur; [|guest Hcur].
  destruct (ok_current _ Hok _ Hcur) as [u Hu].
  destruct (ok_file_system _ Hok _ _ Hu) as [Hr%reachable_wf _].
  user Hcur Hu. destruct args as [|filename args]; [done_step|].
  destruct (read_file_defined filename _ Hr) as [[[] content] Hp].
  all: user Hcur Hu.
  all: rewrite (t_bind_eq _ _ _ _ _ _ (file_system_call_read _ _ _ _ _ Hu Hp)).
  all: cbn; eauto.
Qed.

Lemma whoami_command_spec args :
  ∃ out, whoami_command args t = Some (tt, out, t).
Proof.
  unfold whoami_command, nfs_read, get_current_user. unfold t_bind at 1.
  destruct (current_user (nfs t)) as [a|] eqn:Hcur; [|cbn; eauto].
  destruct (ok_current _ Hok _ Hcur) as [u Hu].
  destruct (ok_file_system _ Hok _ _ Hu) as [Hr%reachable_wf _].
  destruct (get_current_path_defined _ Hr) as [p Hp].
  rewrite (t_bind_eq _ _ _ _ _ _ (load_user_Some _ _ _ Hu)).
  unfold t_bind at 1. cbn [print].
  rewrite (t_bind_eq _ _ _ _ _ _ (file_system_call_read _ _ _ _ _ Hu Hp)).
  cbn. eauto.
Qed.

Lemma entry_of_type n o :
  entry_of strftime n o !! "type"
  = Some (PStr (if is_directory_obj o then "directory" else "file")).
Proof. destruct o; reflexivity. Qed.

Lemma entry_of_name n o : entry_of strftime n o !! "name" = Some (PStr n).
Proof. destruct o; reflexivity. Qed.

Lemma entry_of_owner n o : entry_of strftime n o !! "owner" = Some (PStr (obj_owner o)).
Proof. destruct o; reflexivity. Qed.

Lemma print_items_entries (l : list (gmap string pyval)) :
  Forall (λ e, ∃ n o, e = entry_of strftime n o) l →
  ∃ out, print_items l t = Some (tt, out, t).
Proof.
  induction 1 as [|e l (n & o & ->) _ [out IH]]; [cbn; eauto|].
  cbn [print_items]. unfold item_at.
  rewrite entry_of_type, entry_of_name, entry_of_owner.
  unfold t_bind at 1. cbn [t_ret]. unfold t_bind at 1. cbn [t_ret].
  unfold t_bind at 1. cbn [t_ret]. unfold t_bind at 1. cbn [print].
  rewrite IH. eauto.
Qed.

Lemma ls_command_spec args :
  ∃ out, ls_command strftime args t = Some (tt, out, t).
Proof.
  unfold ls_command. destruct (current_user (nfs t)) as [a|] eqn:Hcur; [|guest Hcur].
  destruct (ok_current _ Hok _ Hcur) as [u Hu].
  destruct (ok_file_system _ Hok _ _ Hu) as [Hr _].
  pose proof (reachable_wf _ Hr) as Hwf.
  destruct (wf_cwd _ Hwf) as [d Hd].
  destruct (list_directory_eq strftime _ d Hwf (reachable_heap_ok _ Hr) Hd)
    as (l & Hl & Hall).
  user Hcur Hu.
  rewrite (t_bind_eq _ _ _ _ _ _ (file_system_call_read _ _ _ _ _ Hu Hl)).
  destruct (print_items_entries l) as [out Hout].
  { clear Hl. induction Hall as [|x e items l (o & _ & ->) _ IH]; constructor; eauto. }
  destruct l as [|e l]; [cbn; eauto|].
  unfold t_bind at 1. cbn [print]. unfold t_bind at 1. cbn [print].
  rewrite Hout. cbn. eauto.
Qed.

Lemma users_item_Some name a u :
  users (nfs t) !! name = Some a → user_heap (nfs t) !! a = Some u →
  users_item name t = Some (u, [], t).
Proof.
  intros Hn Hu. unfold users_item, t_bind, nfs_read. rewrite Hn.
  by rewrite (load_user_Some _ _ _ Hu).
Qed.

Lemma print_users_spec names :
  (∀ name, name ∈ names → is_Some (users (nfs t) !! name)) →
  ∃ out, print_users check_mark names t = Some (tt, out, t).
Proof.
  induction names as [|name names IH]; intros Hin; [cbn; eauto|].
  destruct (Hin name) as [a Ha]; [by left|].
  destruct (ok_users _ Hok _ _ Ha) as (u & Hu & _).
  destruct IH as [out IH]; [intros ? ?; apply Hin; by right|].
  cbn [print_users].
  rewrite (t_bind_eq _ _ _ _ _ _ (users_item_Some _ _ _ Ha Hu)).
  rewrite (t_bind_eq _ _ _ _ _ _ (users_item_Some _ _ _ Ha Hu)).
  unfold t_bind at 1. cbn [print]. rewrite IH. eauto.
Qed.

Lemma list_users_command_spec args :
  ∃ out, list_users_command check_mark args t = Some (tt, out, t).
Proof.
  unfold list_users_command, nfs_read. unfold t_bind at 1.
  destruct (print_users_spec (list_users (nfs t))) as [out Hout].
  { intros name. by rewrite elem_of_list_users. }
  destruct (list_users (nfs t)) as [|name names]; [cbn; eauto|].
  unfold t_bind at 1. cbn [print]. rewrite Hout. eauto.
Qed.

Lemma create_user_command_spec now args :
  ∃ out t', create_user_command now args t = Some (tt, out, t') ∧ terminal_step t t'.
Proof.
  unfold create_user_command. destruct args as [|name [|last args]]; [done_step..|].
  destruct (create_user now name last (nfs t)) as [[r n']|] eqn:H.
  - unfold t_bind, nfs_call. rewrite H. cbn [print]. eexists _, _. split; [done|].
    by apply (step_registry t now (CreateUser name last) r).
  - unfold create_user in H. by destruct (users (nfs t) !! name).
Qed.

Lemma login_command_spec args :
  ∃ out t', login_command args t = Some (tt, out, t') ∧ terminal_step t t'.
Proof.
  unfold login_command. destruct args as [|name args]; [done_step|].
  destruct (login name (nfs t)) as [[r n']|] eqn:H.
  - unfold t_bind, nfs_call. rewrite H. cbn [print]. eexists _, _. split; [done|].
    by apply (step_registry t tick (Login name) r).
  - unfold login in H. destruct (users (nfs t) !! name) as [a|] eqn:Ha; [|done].
    destruct (ok_users _ Hok _ _ Ha) as (u & Hu & _). by rewrite Hu in H.
Qed.

Lemma logout_command_spec args :
  ∃ out t', logout_command args t = Some (tt, out, t') ∧ terminal_step t t'.
Proof.
  unfold logout_command.
  destruct (logout (nfs t)) as [[r n']|] eqn:H.
  - unfold t_bind, nfs_call. rewrite H. cbn [print]. eexists _, _. split; [done|].
    by apply (step_registry t tick Logout r).
  - unfold logout in H. destruct (current_user (nfs t)) as [a|] eqn:Ha; [|done].
    destruct (ok_current _ Hok _ Ha) as [u Hu]. by rewrite Hu in H.
Qed.

(** Every command line is answered, and what it does is one step, or the
    end of the loop when the word is exit or quit. *)
Lemma parse_command_spec now input_str :
  ∃ out t',
    parse_command strftime check_mark now input_str t = Some (tt, out, t') ∧
    (terminal_step t t' ∨
     ((command_word input_str = Some "exit" ∨ command_word input_str = Some "quit") ∧
      out = [Print "Exiting Network File System. Goodbye!"] ∧
      t' = set_running false t)).
Proof.
  unfold parse_command, command_word.
  destruct (split_whitespace _) as [|word args]; [done_step|].
  destruct (commands strftime check_mark now !! lower word) as [handler|] eqn:H;
    [|done_step].
  apply elem_of_list_to_map_2 in H.
  cut (∃ out t', handler args t = Some (tt, out, t') ∧
         (terminal_step t t' ∨
          ((lower word = "exit" ∨ lower word = "quit") ∧
           out = [Print "Exiting Network File System. Goodbye!"] ∧
           t' = set_running false t))).
  { intros (out & t' & ? & [?|([->| ->] & ? & ?)]); eauto 10. }
  repeat (apply elem_of_cons in H as [[= ? ->]|H]); [..|by apply elem_of_nil in H].
  - cbn. eauto 10 using step_same.
  - destruct (create_user_command_spec now args) as (out & t' & -> & ?); eauto 10.
  - destruct (login_command_spec args) as (out & t' & -> & ?); eauto 10.
  - destruct (logout_command_spec args) as (out & t' & -> & ?); eauto 10.
  - destruct (list_users_command_spec args) as [out ->]. eauto 10 using step_same.
  - destruct (whoami_command_spec args) as [out ->]. eauto 10 using step_same.
  - destruct (pwd_command_spec args) as [out ->]. eauto 10 using step_same.
  - destruct (ls_command_spec args) as [out ->]. eauto 10 using step_same.
  - destruct (cd_command_spec args) as (out & t' & -> & ?); eauto 10.
  - destruct (mkdir_command_spec now args) as (out & t' & -> & ?); eauto 10.
  - destruct (touch_command_spec now args) as (out & t' & -> & ?); eauto 10.
  - destruct (write_command_spec now args) as (out & t' & -> & ?); eauto 10.
  - destruct (read_command_spec args) as [out ->]. eauto 10 using step_same.
  - destruct (read_command_spec args) as [out ->]. eauto 10 using step_same.
  - destruct (rm_command_spec args) as (out & t' & -> & ?); eauto 10.
  - destruct (mv_command_spec args) as (out & t' & -> & ?); eauto 10.
  - destruct (cp_command_spec now args) as (out & t' & -> & ?); eauto 10.
  - cbn. eauto 10 using step_same.
  - cbn. eexists _, _. split; [done|]. right. auto.
  - cbn. eexists _, _. split; [done|]. right. auto.
Qed.

End handlers.

Lemma fresh_user_None (h : gmap addr User) : h !! fresh (dom h) = None.
Proof. apply not_elem_of_dom, is_fresh. Qed.

Lemma FileSystem_init_owned owner t0 : owned_by owner (heap (FileSystem_init owner t0)).
Proof.
  intros a o Ho. unfold FileSystem_init in Ho. cbn [heap] in Ho.
  by apply lookup_singleton_Some in Ho as [_ <-].
Qed.

Lemma terminal_ok_set_user t a u u' :
  terminal_ok t →
  user_heap (nfs t) !! a = Some u →
  username u' = username u →
  reachable (file_system u') →
  owned_by (username u') (heap (file_system u')) →
  terminal_ok (set_nfs (set_user a u' (nfs t)) t).
Proof.
  intros [Hus Hcur Hfs] Hu Hname Hr Hown. split; cbn.
  - intros n b Hn. destruct (Hus _ _ Hn) as (ub & Hub & Hnb).
    destruct (decide (a = b)) as [->|Hne].
    + rewrite lookup_insert_eq. exists u'. split; [done|]. congruence.
    + rewrite lookup_insert_ne by done. eauto.
  - intros b Hb. destruct (decide (a = b)) as [->|Hne].
    + rewrite lookup_insert_eq. eauto.
    + rewrite lookup_insert_ne by done. eauto.
  - intros b ub. destruct (decide (a = b)) as [->|Hne].
    + rewrite lookup_insert_eq. by intros [= <-].
    + rewrite lookup_insert_ne by done. apply Hfs.
Qed.

Lemma terminal_step_ok t t' : terminal_ok t → terminal_step t t' → terminal_ok t'.
Proof.
  intros Hok [|now c r n' H|now c r a u fs' Hcur Hu Hown H]; [done|..].
  - destruct c as [name last|name|]; cbn [nfs_exec] in H.
    + unfold create_user in H. destruct (users (nfs t) !! name) as [b|] eqn:Hn.
      * simplify_eq. by rewrite set_nfs_same.
      * simplify_eq. pose proof (fresh_user_None (user_heap (nfs t))) as Hfresh.
        destruct Hok as [Hus Hc Hfs]. split; cbn.
        -- intros n b Hb. destruct (decide (name = n)) as [->|Hne].
           ++ rewrite lookup_insert_eq in Hb. simplify_eq.
              rewrite lookup_insert_eq. eauto.
           ++ rewrite lookup_insert_ne in Hb by done.
              destruct (Hus _ _ Hb) as (ub & Hub & Hnb).
              rewrite lookup_insert_ne by congruence. eauto.
        -- intros b Hb. destruct (Hc _ Hb) as [ub Hub].
           rewrite lookup_insert_ne by congruence. eauto.
        -- intros b ub. destruct (decide (fresh (dom (user_heap (nfs t))) = b)) as [<-|Hne].
           ++ rewrite lookup_insert_eq. intros [= <-]. cbn. split.
              ** apply reachable_init.
              ** apply FileSystem_init_owned.
           ++ rewrite lookup_insert_ne by done. apply Hfs.
    + unfold login in H. destruct (users (nfs t) !! name) as [a|] eqn:Hn.
      * destruct (user_heap (nfs t) !! a) as [u|] eqn:Hu; [|done]. simplify_eq.
        destruct (ok_file_system _ Hok _ _ Hu) as [Hr Hown].
        pose proof (terminal_ok_set_user t a u (with_logged_in true u) Hok Hu eq_refl Hr Hown)
          as [Hus Hc Hfs].
        split; cbn in *; [done| |done].
        intros b [= <-]. rewrite lookup_insert_eq. eauto.
      * simplify_eq. by rewrite set_nfs_same.
    + unfold logout in H. destruct (current_user (nfs t)) as [a|] eqn:Hc.
      * destruct (user_heap (nfs t) !! a) as [u|] eqn:Hu; [|done]. simplify_eq.
        destruct (ok_file_system _ Hok _ _ Hu) as [Hr Hown].
        pose proof (terminal_ok_set_user t a u (with_logged_in false u) Hok Hu eq_refl Hr Hown)
          as [Hus Hc' Hfs].
        split; cbn in *; [done| |done]. done.
      * simplify_eq. by rewrite set_nfs_same.
  - destruct (ok_file_system _ Hok _ _ Hu) as [Hr Ho].
    apply (terminal_ok_set_user t a u); [done..| |].
    + by eapply reachable_step.
    + cbn. by eapply exec_owned_by; [apply reachable_wf| | |].
Qed.

Lemma terminal_step_running t t' : terminal_step t t' → running t' = running t.
Proof. by intros []. Qed.

Lemma terminal_ok_set_running b t : terminal_ok t → terminal_ok (set_running b t).
Proof. intros [Hus Hc Hfs]. by split. Qed.

Lemma TerminalSimulator_init_ok : terminal_ok TerminalSimulator_init.
Proof. split; cbn; intros *; try done; by rewrite lookup_empty. Qed.

Lemma terminal_reachable_ok t : terminal_reachable t → terminal_ok t.
Proof.
  induction 1 as [|strftime check_mark now input_str t out t' _ IH H].
  - apply TerminalSimulator_init_ok.
  - destruct (parse_command_spec strftime check_mark t IH now input_str)
      as (out1 & t1 & Hp & Hstep).
    rewrite H in Hp. simplify_eq. destruct Hstep as [Hstep|(_ & _ & ->)].
    + by eapply terminal_step_ok.
    + by apply terminal_ok_set_running.
Qed.
Lemma terminal_after_reachable lines : terminal_reachable (terminal_after lines).
Proof.
  unfold terminal_after.
  cut (∀ t, terminal_reachable t →
         terminal_reachable
           (foldl (λ t input_str,
                     match parse_command (λ _, "-") "*" tick input_str t with
                     | Some (_, _, t') => t'
                     | None => t
                     end) t lines)).
  { intros H. apply H, terminal_reachable_init. }
  induction lines as [|input_str lines IH]; intros t Ht; [done|].
  cbn [foldl]. apply IH.
  destruct (parse_command _ _ _ _ t) as [[[[] out] t']|] eqn:H; [|done].
  by eapply terminal_reachable_step.
Qed.

(** X21. In a terminal that command lines have led to, no handler raises an
    exception: every command line, whatever it says, gets its answer, so
    that the [except] branch of [parse_command] is never taken.  (The
    interpreter's limit on the depth of recursion, which [get_path] would
    meet in a tree that deep, is not part of the model.) *)
Theorem parse_command_total strftime check_mark now input_str t :
  terminal_reachable t →
  ∃ out t', parse_command strftime check_mark now input_str t = Some (tt, out, t').
Proof.
  intros Hok%terminal_reachable_ok.
  destruct (parse_command_spec strftime check_mark t Hok now input_str)
    as (out & t' & H & _).
  eauto.
Qed.

Lemma parse_command_total_witness :
  ∃ out t', parse_command (λ _, "-") "*" tick "ls"
              (terminal_after ["createuser alice Smith"; "login alice"; "touch a"])
            = Some (tt, out, t').
Proof.
  apply (parse_command_total (λ _, "-") "*" tick "ls"
           (terminal_after ["createuser alice Smith"; "login alice"; "touch a"])).
  apply terminal_after_reachable.
Defined.

Lemma commands_lookup strftime check_mark now :
  commands strftime check_mark now !! "pwd" = Some pwd_command ∧
  commands strftime check_mark now !! "ls" = Some (ls_command strftime) ∧
  commands strftime check_mark now !! "cd" = Some cd_command ∧
  commands strftime check_mark now !! "mkdir" = Some (mkdir_command now) ∧
  commands strftime check_mark now !! "touch" = Some (touch_command now) ∧
  commands strftime check_mark now !! "write" = Some (write_command now) ∧
  commands strftime check_mark now !! "read" = Some read_command ∧
  commands strftime check_mark now !! "cat" = Some read_command ∧
  commands strftime check_mark now !! "rm" = Some rm_command ∧
  commands strftime check_mark now !! "mv" = Some mv_command ∧
  commands strftime check_mark now !! "cp" = Some (cp_command now) ∧
  commands strftime check_mark now !! "exit" = Some exit_command ∧
  commands strftime check_mark now !! "quit" = Some exit_command.
Proof. repeat split; reflexivity. Qed.

(** X22. Without an active user, each of the command words pwd, ls, cd,
    mkdir, touch, write, read, cat, rm, mv and cp, in any spelling of upper
    and lower case and with any arguments, prints the one line that asks to
    log in first, and the terminal stays as it is. *)
Theorem login_required strftime check_mark now input_str c t :
  command_word input_str = Some c →
  c ∈ ["pwd"; "ls"; "cd"; "mkdir"; "touch"; "write"; "read"; "cat"; "rm"; "mv"; "cp"] →
  current_user (nfs t) = None →
  parse_command strftime check_mark now input_str t
  = Some (tt, [Print "Error: No user logged in. Please login first."], t).
Proof.
  unfold command_word, parse_command. intros Hw Hc Hcur.
  destruct (split_whitespace _) as [|word args]; [done|]. simplify_eq.
  destruct (commands_lookup strftime check_mark now)
    as (? & ? & ? & ? & ? & ? & ? & ? & ? & ? & ? & _).
  repeat (apply elem_of_cons in Hc as [Hc|Hc]); [..|by apply elem_of_nil in Hc];
    rewrite Hc.
  all: match goal with H : _ !! ?k = _ |- context [_ !! ?k] => rewrite H end.
  all: unfold pwd_command, ls_command, cd_command, mkdir_command, touch_command,
         write_command, read_command, rm_command, mv_command, cp_command.
  all: by rewrite (t_bind_eq _ _ _ _ _ _ (check_login_None _ Hcur)).
Qed.

Lemma login_required_witness :
  parse_command (λ _, "-") "*" tick "  MkDir docs extra"
    (terminal_after ["createuser alice Smith"])
  = Some (tt, [Print "Error: No user logged in. Please login first."],
          terminal_after ["createuser alice Smith"]).
Proof.
  apply (login_required (λ _, "-") "*" tick "  MkDir docs extra" "mkdir"
           (terminal_after ["createuser alice Smith"])).
  - vm_compute. reflexivity.
  - vm_compute. set_solver.
  - vm_compute. reflexivity.
Defined.
(** X23. A command line never touches the file system of a user other than
    the active one: in a terminal that command lines have led to, whatever
    the line, the user object of every other user is still there afterwards
    with the same user name, last name and file system. *)
Theorem other_users_untouched strftime check_mark now input_str t out t' a u :
  terminal_reachable t →
  parse_command strftime check_mark now input_str t = Some (tt, out, t') →
  user_heap (nfs t) !! a = Some u →
  current_user (nfs t) ≠ Some a →
  ∃ u', user_heap (nfs t') !! a = Some u' ∧
        username u' = username u ∧ lastname u' = lastname u ∧
        file_system u' = file_system u.
Proof.
  intros Hok%terminal_reachable_ok H Hu Hcur.
  destruct (parse_command_spec strftime check_mark t Hok now input_str)
    as (out1 & t1 & Hp & Hstep).
  rewrite H in Hp. simplify_eq.
  destruct Hstep as [[|now' c r n' Hc|now' c r b ub fs' Hb Hub Hown Hc]|(_ & _ & ->)];
    [by exists u| | |by exists u].
  - destruct c as [name last|name|]; cbn [nfs_exec] in Hc.
    + unfold create_user in Hc. destruct (users (nfs t) !! name); simplify_eq.
      * by exists u.
      * exists u. split; [|done]. cbn. rewrite lookup_insert_ne; [done|].
        intros <-. by rewrite fresh_user_None in Hu.
    + unfold login in Hc. destruct (users (nfs t) !! name) as [b|]; simplify_eq;
        [|by exists u].
      destruct (user_heap (nfs t) !! b) as [ub|] eqn:Hub; simplify_eq. cbn.
      destruct (decide (b = a)) as [->|Hne].
      * rewrite lookup_insert_eq. simplify_eq. by eexists.
      * rewrite lookup_insert_ne by done. by exists u.
    + unfold logout in Hc. destruct (current_user (nfs t)) as [b|] eqn:Hb; simplify_eq;
        [|by exists u].
      destruct (user_heap (nfs t) !! b) as [ub|] eqn:Hub; simplify_eq. cbn.
      rewrite lookup_insert_ne by congruence. by exists u.
  - cbn. rewrite lookup_insert_ne by congruence. by exists u.
Qed.

Lemma other_users_untouched_witness :
  ∃ u', user_heap (nfs (terminal_after ["createuser alice Smith"; "createuser bob Jones";
                                        "login alice"; "mkdir docs"])) !! 1
        = Some u' ∧
        file_system u' = FileSystem_init "bob" 0.
Proof.
  destruct (other_users_untouched (λ _, "-") "*" tick "mkdir docs"
              (terminal_after ["createuser alice Smith"; "createuser bob Jones";
                               "login alice"])
              [Print "Directory 'docs' created successfully"]
              (terminal_after ["createuser alice Smith"; "createuser bob Jones";
                               "login alice"; "mkdir docs"])
              1 (User_init "bob" "Jones" 0))
    as (u' & Hu' & _ & _ & Hfs).
  - apply terminal_after_reachable.
  - vm_compute. reflexivity.
  - vm_compute. reflexivity.
  - vm_compute. discriminate.
  - exists u'. split; [exact Hu'|exact Hfs].
Defined.

(** X24. In a terminal that command lines have led to, the file system of
    every user object is a session that the namespace operations reach from
    a fresh one, so that everything shown for reachable sessions holds of it,
    and every file and directory in it, the root included, has that user as
    its owner. *)
Theorem user_file_systems t a u :
  terminal_reachable t →
  user_heap (nfs t) !! a = Some u →
  reachable (file_system u) ∧
  ∀ b o, heap (file_system u) !! b = Some o → obj_owner o = username u.
Proof.
  intros Hok%terminal_reachable_ok Hu.
  by destruct (ok_file_system _ Hok _ _ Hu).
Qed.

Lemma user_file_systems_witness :
  obj_owner (OFile (mkFile "b" "x y" "alice" 0 1 3)) = "alice".
Proof.
  destruct (user_file_systems
              (terminal_after ["createuser alice Smith"; "login alice"; "touch a";
                               "write a x y"; "cp a b"])
              0 (mkUser "alice" "Smith"
                   (after [CreateFile "a" "alice" EmptyString; WriteFile "a" "x y" "alice";
                           CopyFile "a" "b" "alice"]) true))
    as [_ Hown].
  - apply terminal_after_reachable.
  - vm_compute. reflexivity.
  - apply (Hown 2). vm_compute. reflexivity.
Defined.
Lemma get_prompt_defined t : terminal_ok t → ∃ prompt, get_prompt t = Some (prompt, [], t).
Proof.
  intros Hok. unfold get_prompt, nfs_read, get_current_user. unfold t_bind at 1.
  destruct (current_user (nfs t)) as [a|] eqn:Hcur; [|cbn; eauto].
  destruct (ok_current _ Hok _ Hcur) as [u Hu].
  destruct (ok_file_system _ Hok _ _ Hu) as [Hr%reachable_wf _].
  destruct (get_current_path_defined _ Hr) as [p Hp].
  unfold User_get_prompt.
  rewrite (t_bind_eq _ _ _ _ _ _ (file_system_call_read _ _ _ _ _ Hu Hp)).
  rewrite (t_bind_eq _ _ _ _ _ _ (load_user_Some _ _ _ Hu)).
  cbn. eauto.
Qed.

(** ** No handler asks for input *)

Lemma prompts_app out out' : prompts (out ++ out') = (prompts out + prompts out')%nat.
Proof. induction out as [|[] out IH]; cbn; by rewrite ?IH. Qed.

Lemma quiet_bind {A B} (m : T A) (k : A → T B) :
  quiet m → (∀ x, quiet (k x)) → quiet (t_bind m k).
Proof.
  intros Hm Hk t y out t' H. unfold t_bind in H.
  destruct (m t) as [[[x o1] t1]|] eqn:E1; [|done].
  destruct (k x t1) as [[[y' o2] t2]|] eqn:E2; [|done]. simplify_eq.
  rewrite prompts_app, (Hm _ _ _ _ E1), (Hk _ _ _ _ _ E2). done.
Qed.

Lemma quiet_ret {A} (x : A) : quiet (t_ret x).
Proof. by intros t y out t' [= <- <- <-]. Qed.

Lemma quiet_raise {A} : quiet (@t_raise A).
Proof. by intros t y out t'. Qed.

Lemma quiet_print text : quiet (print text).
Proof. by intros t y out t' [= <- <- <-]. Qed.

Lemma quiet_nfs_call {A} (m : NetworkFileSystem → option (A * NetworkFileSystem)) :
  quiet (nfs_call m).
Proof.
  intros t y out t' H. unfold nfs_call in H.
  destruct (m (nfs t)) as [[x n']|]; by simplify_eq.
Qed.

Lemma quiet_nfs_read {A} (f : NetworkFileSystem → A) : quiet (nfs_read f).
Proof. by intros t y out t' [= <- <- <-]. Qed.

Lemma quiet_load_user a : quiet (load_user a).
Proof.
  intros t y out t' H. unfold load_user in H.
  destruct (user_heap (nfs t) !! a); by simplify_eq.
Qed.

Lemma quiet_file_system_call {A} a (m : M A) : quiet (file_system_call a m).
Proof.
  intros t y out t' H. unfold file_system_call in H.
  destruct (user_heap (nfs t) !! a) as [u|]; [|done].
  destruct (m (file_system u)) as [[x fs']|]; by simplify_eq.
Qed.

Ltac quiet_step :=
  first
    [ apply quiet_bind; [|intros ?]
    | apply quiet_ret
    | apply quiet_raise
    | apply quiet_print
    | apply quiet_nfs_call
    | apply quiet_nfs_read
    | apply quiet_load_user
    | apply quiet_file_system_call
    | progress unfold check_login, the_current_user, users_item, item_at
    | match goal with
      | |- quiet (match ?x with _ => _ end) => destruct x
      end
    | by intros ? ? ? ? [= <- <- <-] ].

Ltac quiet_all := repeat quiet_step.

Lemma quiet_print_users check_mark names : quiet (print_users check_mark names).
Proof. induction names as [|name names IH]; cbn [print_users]; quiet_all; try done. Qed.

Lemma quiet_print_items contents : quiet (print_items contents).
Proof. induction contents as [|item contents IH]; cbn [print_items]; quiet_all; try done. Qed.

Lemma quiet_parse_command strftime check_mark now input_str :
  quiet (parse_command strftime check_mark now input_str).
Proof.
  unfold parse_command.
  destruct (split_whitespace _) as [|word args]; [quiet_all|].
  destruct (commands strftime check_mark now !! lower word) as [handler|] eqn:H;
    [|quiet_all].
  apply elem_of_list_to_map_2 in H.
  repeat (apply elem_of_cons in H as [[= ? ->]|H]); [..|by apply elem_of_nil in H].
  all: unfold help_command, create_user_command, login_command, logout_command,
         list_users_command, whoami_command, pwd_command, ls_command, cd_command,
         mkdir_command, touch_command, write_command, read_command, rm_command,
         mv_command, cp_command, clear_command, exit_command.
  all: quiet_all.
  all: first [apply quiet_print_users | apply quiet_print_items].
Qed.

(** ** The loop *)

Lemma parse_command_exit strftime check_mark now input_str t :
  exit_line input_str →
  parse_command strftime check_mark now input_str t
  = Some (tt, [Print "Exiting Network File System. Goodbye!"], set_running false t).
Proof.
  intros Hw. unfold exit_line, command_word in Hw. unfold parse_command.
  destruct (split_whitespace _) as [|word args]; [by destruct Hw|].
  destruct (commands_lookup strftime check_mark now)
    as (_ & _ & _ & _ & _ & _ & _ & _ & _ & _ & _ & He & Hq).
  destruct Hw as [[= ->]|[= ->]]; by rewrite ?He, ?Hq.
Qed.

Lemma run_loop_nil strftime check_mark now k t prompt :
  running t = true →
  get_prompt t = Some (prompt, [], t) →
  run_loop strftime check_mark now k [] t
  = Some (tt, [Input prompt; Print (nl +:+ "Exiting...")], t).
Proof.
  intros Hrun Hprompt. cbn [run_loop]. rewrite Hrun. cbn [negb].
  by rewrite (t_bind_eq _ _ _ _ _ _ Hprompt).
Qed.

Lemma run_loop_cons strftime check_mark now k input_str rest t prompt out t1 :
  running t = true →
  get_prompt t = Some (prompt, [], t) →
  parse_command strftime check_mark (now k) input_str t = Some (tt, out, t1) →
  run_loop strftime check_mark now k (input_str :: rest) t
  = match run_loop strftime check_mark now (S k) rest t1 with
    | Some (x, out', t2) => Some (x, Input prompt :: (out ++ out')%list, t2)
    | None => None
    end.
Proof.
  intros Hrun Hprompt Hp. cbn [run_loop]. rewrite Hrun. cbn [negb].
  rewrite (t_bind_eq _ _ _ _ _ _ Hprompt).
  unfold t_bind at 1. cbn [input].
  rewrite (t_bind_eq _ _ _ _ _ _ Hp).
  by destruct (run_loop strftime check_mark now (S k) rest t1) as [[[[] o2] t2]|].
Qed.

Lemma run_loop_stopped strftime check_mark now k inputs t :
  running t = false → run_loop strftime check_mark now k inputs t = Some (tt, [], t).
Proof. intros H. destruct inputs; cbn [run_loop]; by rewrite H. Qed.

Lemma run_loop_ends strftime check_mark now inputs k t :
  terminal_ok t → running t = true →
  ∃ out t',
    run_loop strftime check_mark now k inputs t = Some (tt, out, t') ∧
    ((∃ before line after,
        inputs = (before ++ line :: after)%list ∧
        Forall (λ l, ¬ exit_line l) before ∧ exit_line line ∧
        running t' = false ∧
        prompts out = S (length before) ∧
        last out = Some (Print "Exiting Network File System. Goodbye!"))
     ∨
     (Forall (λ l, ¬ exit_line l) inputs ∧
      running t' = true ∧
      prompts out = S (length inputs) ∧
      last out = Some (Print (nl +:+ "Exiting...")))).
Proof.
  revert k t. induction inputs as [|line rest IH]; intros k t Hok Hrun.
  - destruct (get_prompt_defined t Hok) as [prompt Hprompt].
    eexists _, _. split; [by apply run_loop_nil|]. right. by split_and!.
  - destruct (get_prompt_defined t Hok) as [prompt Hprompt].
    destruct (parse_command_spec strftime check_mark t Hok (now k) line)
      as (o1 & t1 & Hp & Hstep).
    rewrite (run_loop_cons _ _ _ _ _ _ _ _ _ _ Hrun Hprompt Hp).
    pose proof (quiet_parse_command _ _ _ _ _ _ _ _ Hp) as Hquiet.
    destruct Hstep as [Hstep|(Hexit & -> & ->)].
    + assert (¬ exit_line line) as Hline.
      { intros Hexit. rewrite (parse_command_exit _ _ _ _ t Hexit) in Hp.
        apply terminal_step_running in Hstep. simplify_eq. cbn in Hstep. congruence. }
      destruct (IH (S k) t1) as (o2 & t2 & -> & Hend).
      { by eapply terminal_step_ok. }
      { apply terminal_step_running in Hstep. congruence. }
      eexists _, _. split; [done|].
      destruct Hend as [(before & l & after & -> & Hb & Hl & Hr & Hn & Hlast)
                       |(Hall & Hr & Hn & Hlast)].
      * left. exists (line :: before), l, after. split_and!; try done.
        -- by constructor.
        -- cbn [prompts length]. by rewrite prompts_app, Hquiet, Hn.
        -- change (Input prompt :: (o1 ++ o2)%list) with ((Input prompt :: o1) ++ o2)%list.
           by rewrite last_app, Hlast.
      * right. split_and!; try done.
        -- by constructor.
        -- cbn [prompts length]. by rewrite prompts_app, Hquiet, Hn.
        -- change (Input prompt :: (o1 ++ o2)%list) with ((Input prompt :: o1) ++ o2)%list.
           by rewrite last_app, Hlast.
    + rewrite run_loop_stopped by done.
      eexists _, _. split; [done|]. left. exists [], line, rest.
      split_and!; done.
Qed.

(** X25. The loop of [run] ends in two ways and in no other.  In a running
    terminal that command lines have led to, a command line clears the flag
    [running] only if its command word is exit or quit.  At the first such
    line the loop says goodbye and stops with the flag cleared: [input] was
    called once for every line up to that one, and the lines after it are
    never read.  When there is no such line, every line is read, the call of
    [input] after the last one meets the end of the input, and the loop
    prints its own farewell and stops with the flag still set.  (The
    interpreter's limit on the depth of recursion, which [get_path] would
    meet for the prompt in a tree that deep, is not part of the model.) *)
Theorem exit_ends_run strftime check_mark now k inputs t :
  terminal_reachable t →
  running t = true →
  (∀ input_str out t',
     parse_command strftime check_mark (now k) input_str t = Some (tt, out, t') →
     running t' = false → exit_line input_str) ∧
  ∃ out t',
    run_loop strftime check_mark now k inputs t = Some (tt, out, t') ∧
    ((∃ before line after,
        inputs = (before ++ line :: after)%list ∧
        Forall (λ l, ¬ exit_line l) before ∧ exit_line line ∧
        running t' = false ∧
        prompts out = S (length before) ∧
        last out = Some (Print "Exiting Network File System. Goodbye!"))
     ∨
     (Forall (λ l, ¬ exit_line l) inputs ∧
      running t' = true ∧
      prompts out = S (length inputs) ∧
      last out = Some (Print (nl +:+ "Exiting...")))).
Proof.
  intros Hok%terminal_reachable_ok Hrun. split.
  - intros input_str out t' H Hstop.
    destruct (parse_command_spec strftime check_mark t Hok (now k) input_str)
      as (out1 & t1 & Hp & Hstep).
    rewrite H in Hp. simplify_eq.
    destruct Hstep as [Hstep%terminal_step_running|(? & _)]; [congruence|done].
  - by apply run_loop_ends.
Qed.

Lemma exit_ends_run_witness :
  ∃ out t',
    run_loop (λ _, "-") "*" (λ _, tick) 0 ["ls"; "  QUIT now"; "rm a"]
      (terminal_after ["createuser alice Smith"; "login alice"; "touch a"])
    = Some (tt, out, t') ∧
    running t' = false ∧ prompts out = 2%nat.
Proof.
  destruct (exit_ends_run (λ _, "-") "*" (λ _, tick) 0 ["ls"; "  QUIT now"; "rm a"]
              (terminal_after ["createuser alice Smith"; "login alice"; "touch a"]))
    as (_ & out & t' & Hrun & Hend).
  - apply terminal_after_reachable.
  - vm_compute. reflexivity.
  - exists out, t'. split; [exact Hrun|].
    vm_compute in Hrun. injection Hrun as <- <-. vm_compute. split; reflexivity.
Defined.
(** ** The order of the users *)

Lemma insert_user_sorted x l :
  StronglySorted addr_le l → StronglySorted addr_le (insert_user x l).
Proof.
  induction 1 as [|y l Hs IH Hy]; [repeat constructor|].
  cbn [insert_user]. destruct (Nat.leb x.2 y.2) eqn:E.
  - apply Nat.leb_le in E. constructor; [by constructor|].
    constructor; [done|].
    eapply Forall_impl; [done|]. unfold addr_le. intros z Hz. lia.
  - apply Nat.leb_gt in E. constructor; [done|].
    rewrite insert_user_perm. constructor; [|done]. unfold addr_le. lia.
Qed.

Lemma sorted_users_sorted l : StronglySorted addr_le (foldr insert_user [] l).
Proof.
  induction l as [|x l IH]; [constructor|]. cbn [foldr]. by apply insert_user_sorted.
Qed.

Lemma fresh_above (X : gset nat) x : x ∈ X → (x < fresh X)%nat.
Proof.
  intros Hx. apply elem_of_elements in Hx.
  unfold fresh, set_fresh. cbn. unfold fresh, infinite_fresh. cbn.
  induction Hx as [y l|y z l Hx IH]; cbn; lia.
Qed.

Lemma sorted_users_insert (m : gmap string addr) name a :
  m !! name = None →
  (∀ n b, m !! n = Some b → (b < a)%nat) →
  (∀ n n' b, m !! n = Some b → m !! n' = Some b → n = n') →
  foldr insert_user [] (map_to_list (<[name := a]> m))
  = (foldr insert_user [] (map_to_list m) ++ [(name, a)])%list.
Proof.
  intros Hname Hlt Hinj.
  apply (StronglySorted_unique_strong addr_le).
  - intros [n1 b1] [n2 b2] H1 H2 Hle1 Hle2. unfold addr_le in *. cbn in *.
    assert (b1 = b2) as -> by lia. f_equal.
    rewrite sorted_users_perm in H1. apply elem_of_map_to_list in H1.
    assert ((n2, b2) ∈ (name, a) :: map_to_list m) as H2'.
    { by rewrite <-(sorted_users_perm (map_to_list m)), Permutation_cons_append. }
    rewrite <-map_to_list_insert in H2' by done. apply elem_of_map_to_list in H2'.
    apply lookup_insert_Some in H1 as [[<- <-]|[Hn1 H1]];
      apply lookup_insert_Some in H2' as [[<- ?]|[Hn2 H2']]; try done.
    + apply Hlt in H2'. lia.
    + apply Hlt in H1. lia.
    + by eapply Hinj.
  - apply sorted_users_sorted.
  - apply StronglySorted_app_2.
    + intros [n1 b1] x2 H1 ->%list_elem_of_singleton.
      rewrite sorted_users_perm in H1. apply elem_of_map_to_list, Hlt in H1.
      unfold addr_le. cbn. lia.
    + apply sorted_users_sorted.
    + repeat constructor.
  - rewrite !sorted_users_perm, map_to_list_insert by done.
    by rewrite Permutation_cons_append.
Qed.

(** X26. [list_users] gives the user names in the order in which they were
    registered: a [create_user] that succeeds puts its name at the end of
    the list, and no other operation of the registry changes the list. *)
Theorem list_users_in_order now c nfs r nfs' :
  nfs_reachable nfs →
  nfs_exec now c nfs = Some (r, nfs') →
  list_users nfs'
  = (list_users nfs ++
     match c with
     | CreateUser name _ => if fst r then [name] else []
     | _ => []
     end)%list.
Proof.
  intros Hr H. destruct c as [name last|name|]; cbn [nfs_exec] in H.
  - unfold create_user in H. destruct (users nfs !! name) as [b|] eqn:Hn; simplify_eq.
    { cbn. by rewrite app_nil_r. }
    cbn [fst]. unfold list_users. cbn [users].
    rewrite sorted_users_insert, fmap_app; [done..| |].
    + intros n b Hb. apply fresh_above, elem_of_dom.
      by eapply nfs_reachable_closed.
    + intros n n' b. by apply nfs_reachable_inj.
  - unfold login in H. destruct (users nfs !! name) as [a|]; simplify_eq.
    + destruct (user_heap nfs !! a); simplify_eq. by rewrite app_nil_r.
    + by rewrite app_nil_r.
  - unfold logout in H. destruct (current_user nfs) as [a|]; simplify_eq.
    + destruct (user_heap nfs !! a); simplify_eq. by rewrite app_nil_r.
    + by rewrite app_nil_r.
Qed.

Lemma list_users_in_order_witness :
  list_users (match create_user tick "aaron" "Smith" nfs_alice_bob with
              | Some (_, nfs') => nfs'
              | None => nfs_alice_bob
              end)
  = ["alice"; "bob"; "aaron"].
Proof.
  rewrite (list_users_in_order tick (CreateUser "aaron" "Smith") nfs_alice_bob
             (true, "User 'aaron' created successfully")
             (match create_user tick "aaron" "Smith" nfs_alice_bob with
              | Some (_, nfs') => nfs'
              | None => nfs_alice_bob
              end)).
  - vm_compute. reflexivity.
  - apply nfs_alice_bob_reachable.
  - vm_compute. reflexivity.
Defined.
(** ** The path of a directory leads back to it *)

Lemma split_plain n : PyStr.mem slash n = false → PyStr.split slash n = [n].
Proof.
  induction n as [|a n IH]; [done|]. cbn [PyStr.mem PyStr.split].
  repeat case_decide; try done; try congruence. intros Hm. by rewrite IH.
Qed.

Lemma split_app_sep n rest :
  PyStr.mem slash n = false →
  PyStr.split slash (n +:+ String slash rest) = n :: PyStr.split slash rest.
Proof.
  induction n as [|a n IH]; cbn [PyStr.mem].
  - intros _. change (EmptyString +:+ String slash rest) with (String slash rest).
    cbn [PyStr.split]. by case_decide.
  - rewrite append_String. cbn [PyStr.split].
    repeat case_decide; try done; try congruence. intros Hm. by rewrite IH.
Qed.

Lemma split_join names :
  names ≠ [] → Forall plain_name names →
  PyStr.split slash (PyStr.join slash names) = names.
Proof.
  intros Hne Hall. induction Hall as [|n names [_ Hn] Hall IH]; [done|].
  destruct names as [|m names].
  - cbn [PyStr.join]. by apply split_plain.
  - change (PyStr.join slash (n :: m :: names))
      with (n +:+ String slash (PyStr.join slash (m :: names))).
    rewrite split_app_sep by done. by rewrite IH.
Qed.

Lemma join_plain_head names :
  names ≠ [] → Forall plain_name names →
  ∃ a rest, PyStr.join slash names = String a rest ∧ a ≠ slash.
Proof.
  intros Hne Hall. destruct Hall as [|n names [Hn Hm] Hall]; [done|].
  destruct n as [|a n]; [done|]. cbn [PyStr.mem] in Hm.
  case_decide as Ha; [done|].
  destruct names as [|m names]; cbn [PyStr.join]; rewrite ?append_String; eauto.
Qed.

Lemma rstrip_plain chars n :
  (∀ k a, String.get k n = Some a → PyStr.mem a chars = false) →
  PyStr.rstrip chars n = n.
Proof.
  induction n as [|a n IH]; [done|]. intros H. cbn [PyStr.rstrip].
  rewrite IH; [|intros k b Hk; by apply (H (S k))].
  destruct n; [|done]. by rewrite (H 0 a).
Qed.

Lemma mem_get sep n k a : PyStr.mem sep n = false → String.get k n = Some a → a ≠ sep.
Proof.
  revert k. induction n as [|b n IH]; intros k; [by destruct k|].
  cbn [PyStr.mem]. case_decide as Hb; [done|]. intros Hm.
  destruct k as [|k]; cbn; [by intros [= <-]; congruence|]. by apply IH.
Qed.

Lemma rstrip_app x n :
  plain_name n → PyStr.rstrip "/" (x +:+ n) = x +:+ n.
Proof.
  intros [Hne Hm]. induction x as [|a x IH].
  - cbn. apply rstrip_plain. intros k a Hk. cbn.
    rewrite decide_False; [done|]. by eapply mem_get.
  - rewrite append_String. cbn [PyStr.rstrip]. rewrite IH.
    destruct (x +:+ n) eqn:E; [|done].
    destruct x; [|done]. by cbn in E.
Qed.

Lemma append_assoc (a b c : string) : (a +:+ b) +:+ c = a +:+ (b +:+ c).
Proof. induction a as [|x a IH]; [done|]. rewrite !append_String. by rewrite IH. Qed.

Lemma join_snoc names n :
  names ≠ [] →
  PyStr.join slash (names ++ [n]) = PyStr.join slash names +:+ "/" +:+ n.
Proof.
  induction names as [|m names IH]; [done|]. intros _.
  destruct names as [|m' names]; [done|].
  change (PyStr.join slash ((m :: m' :: names) ++ [n]))
    with (m +:+ String slash (PyStr.join slash ((m' :: names) ++ [n]))).
  rewrite IH by done.
  change (PyStr.join slash (m :: m' :: names))
    with (m +:+ String slash (PyStr.join slash (m' :: names))).
  by rewrite append_assoc, append_String.
Qed.

Lemma walks_snoc h a names n t :
  walks h a (names ++ [n]) t ↔ ∃ b, walks h a names b ∧ holds h b n t.
Proof.
  revert a. induction names as [|m names IH]; intros a; cbn.
  - split.
    + inversion 1 as [|? ? b ? ? Hab Hw]; subst. inversion Hw; subst.
      exists a. split; [constructor|done].
    + intros (b & Hw & Hh). inversion Hw; subst.
      econstructor; [done|constructor].
  - split.
    + inversion 1 as [|? ? b ? ? Hab Hw]; subst.
      apply IH in Hw as (c & Hw & Hh). exists c. split; [|done]. by econstructor.
    + intros (b & Hw & Hh). inversion Hw as [|? ? c ? ? Hac Hw']; subst.
      econstructor; [done|]. apply IH. eauto.
Qed.

Lemma walks_live s names a : walks (heap s) (root s) names a → live s a.
Proof.
  unfold live. induction 1 as [|a seg b rest t Hab _ IH]; [done|].
  eapply rtc_l; [|done]. by exists seg.
Qed.

Lemma strip_path names :
  names ≠ [] → Forall plain_name names →
  PyStr.strip "/" (path_of names) = PyStr.join slash names.
Proof.
  intros Hne Hall.
  destruct (join_plain_head names Hne Hall) as (a & rest & Hj & Ha).
  assert (path_of names = String slash (PyStr.join slash names)) as ->.
  { unfold path_of. by destruct names. }
  unfold PyStr.strip.
  cbn [PyStr.lstrip PyStr.mem]. rewrite decide_True by done.
  rewrite Hj. cbn [PyStr.lstrip PyStr.mem]. rewrite decide_False by done.
  rewrite <-Hj. clear a rest Hj Ha.
  destruct (exists_last Hne) as (ns & n & ->).
  apply Forall_app in Hall as [_ [Hn _]%Forall_cons].
  destruct ns as [|m' ns].
  - cbn [app PyStr.join]. by apply (rstrip_app EmptyString).
  - rewrite join_snoc by done. rewrite <-append_assoc. by apply rstrip_app.
Qed.

Lemma get_path_walks s names a :
  wf s → walks (heap s) (root s) names a → is_directory_at (heap s) a →
  Forall plain_name names →
  get_path a s = Some (path_of names, s).
Proof.
  intros Hwf. revert a.
  induction names as [|n names IH] using rev_ind; intros a Hw Ha Hall.
  - inversion Hw; subst. destruct (wf_root _ Hwf) as (d & Hd & Hp).
    unfold get_path. cbn [get_path_rec]. unfold bind.
    rewrite (as_directory_eq _ _ _ Hd). by rewrite Hp.
  - apply walks_snoc in Hw as (b & Hw & Hh).
    apply Forall_app in Hall as [Hall [Hn _]%Forall_cons].
    pose proof Hh as (db & Hdb & Hn').
    destruct Ha as [da Hda].
    destruct (wf_child _ (wf_wf_heap _ Hwf) _ _ _ Hh) as (o & Ho & Hname & Hback).
    rewrite Hda in Ho. simplify_eq. cbn [obj_name] in *.
    specialize (IH b Hw (ex_intro _ db Hdb) Hall).
    rewrite (get_path_child s a da b (path_of names) Hwf); [..|done].
    + f_equal. f_equal. destruct names as [|m names]; [done|].
      rewrite decide_False.
      * unfold path_of. destruct ((m :: names) ++ [dir_name da])%list eqn:E; [done|].
        rewrite <-E. rewrite join_snoc by done. by rewrite append_assoc.
      * destruct (join_plain_head (m :: names)) as (x & rest & Hj & _); [done..|].
        unfold path_of. by rewrite Hj.
    + by eapply walks_live.
    + by exists db.
    + done.
    + by apply Hback.
Qed.

(** The frames that [get_path] takes: one for every directory on the way
    from the root, the root included.  With fewer it raises. *)
Lemma get_path_rec_walks s names a frames :
  wf s → walks (heap s) (root s) names a → is_directory_at (heap s) a →
  Forall plain_name names →
  get_path_rec frames a s
  = if decide (length names < frames)%nat then Some (path_of names, s) else None.
Proof.
  intros Hwf. revert a frames.
  induction names as [|n names IH] using rev_ind; intros a frames Hw Ha Hall.
  - inversion Hw; subst. destruct (wf_root _ Hwf) as (d & Hd & Hp).
    destruct frames as [|frames]; [done|].
    cbn [get_path_rec length]. unfold bind.
    rewrite (as_directory_eq _ _ _ Hd), Hp.
    rewrite decide_True by lia. done.
  - apply walks_snoc in Hw as (b & Hw & Hh).
    apply Forall_app in Hall as [Hall [Hn _]%Forall_cons].
    pose proof Hh as (db & Hdb & Hn').
    destruct Ha as [da Hda].
    destruct (wf_child _ (wf_wf_heap _ Hwf) _ _ _ Hh) as (o & Ho & Hname & Hback).
    rewrite Hda in Ho. simplify_eq. cbn [obj_name] in *.
    rewrite length_app. cbn [length].
    destruct frames as [|frames]; [done|].
    cbn [get_path_rec]. unfold bind.
    rewrite (as_directory_eq _ _ _ Hda), (Hback da eq_refl).
    rewrite (IH b frames Hw (ex_intro _ db Hdb) Hall).
    destruct (decide (length names < frames)%nat) as [Hlt|Hge].
    + destruct (decide (length names + 1 < S frames)%nat) as [_|Hge]; [|lia].
      unfold ret. f_equal. f_equal.
      destruct names as [|m names]; [done|].
      rewrite decide_False.
      * unfold path_of. destruct ((m :: names) ++ [dir_name da])%list eqn:E; [done|].
        rewrite <-E. rewrite join_snoc by done. by rewrite append_assoc.
      * destruct (join_plain_head (m :: names)) as (x & rest & Hj & _); [done..|].
        unfold path_of. by rewrite Hj.
    + destruct (decide (length names + 1 < S frames)%nat) as [Hlt|_]; [lia|done].
Qed.

(** X27. The path of a directory leads back to it.  In a reachable session,
    for a directory that is reached from the root through names that are
    not empty and have no slash, [get_path] is the slash followed by the
    names joined with slashes, and [change_directory] with that path moves
    the cursor to that directory and answers with the same path.
    [get_path] takes one frame for every name and one for the root: with
    that many frames it returns the path, and with fewer it raises.  (The
    interpreter's limit on the depth of recursion is not part of the model:
    for more names than the limit leaves frames, the source raises where the
    first two answers are given.) *)
Theorem change_directory_to_path s names a :
  reachable s →
  walks (heap s) (root s) names a →
  is_directory_at (heap s) a →
  names ≠ [] →
  Forall plain_name names →
  get_path a s = Some (path_of names, s) ∧
  change_directory (path_of names) s
  = Some ((true, "Changed to " +:+ path_of names), set_current_directory a s) ∧
  (∀ frames,
     get_path_rec frames a s
     = if decide (length names < frames)%nat then Some (path_of names, s) else None).
Proof.
  intros Hwf%reachable_wf Hw Ha Hne Hall.
  pose proof (get_path_walks s names a Hwf Hw Ha Hall) as Hp.
  split; [done|]. split; [|intros frames; by apply get_path_rec_walks].
  destruct (join_plain_head names Hne Hall) as (x & rest & Hj & Hx).
  assert (path_of names = String slash (String x rest)) as Hpath.
  { unfold path_of. destruct names; [done|]. by rewrite Hj. }
  unfold change_directory.
  rewrite !decide_False by (rewrite Hpath; intros [=]; congruence).
  replace (PyStr.startswith "/" (path_of names)) with true by by rewrite Hpath.
  unfold _navigate_absolute_path.
  rewrite decide_False by (rewrite Hpath; intros [=]; congruence).
  rewrite strip_path, split_join by done.
  unfold bind at 1. unfold bind at 1. cbn [get_root].
  rewrite navigate_parts_spec_walk; [|done|].
  2:{ destruct (wf_root _ Hwf) as (dr & -> & _). eauto. }
  apply spec_walk_walks in Hw. rewrite Hw.
  destruct Ha as [da Hda].
  unfold bind at 1. rewrite (isinstance_Directory_eq _ _ _ Hda).
  cbn [is_directory_obj]. unfold bind at 1. cbn [put_current_directory].
  unfold changed_to, bind.
  by rewrite (get_current_path_at _ _ _ Hp).
Qed.

Lemma change_directory_to_path_witness :
  change_directory "/docs/deep"
    (after [CreateDirectory "docs" "alice"; ChangeDirectory "docs";
            CreateDirectory "deep" "alice"; ChangeDirectory ".."])
  = Some ((true, "Changed to /docs/deep"),
          set_current_directory 2
            (after [CreateDirectory "docs" "alice"; ChangeDirectory "docs";
                    CreateDirectory "deep" "alice"; ChangeDirectory ".."])).
Proof.
  destruct (change_directory_to_path
              (after [CreateDirectory "docs" "alice"; ChangeDirectory "docs";
                      CreateDirectory "deep" "alice"; ChangeDirectory ".."])
              ["docs"; "deep"] 2) as (_ & H & _).
  - apply after_reachable.
  - apply spec_walk_walks. vm_compute. reflexivity.
  - vm_compute. eexists. reflexivity.
  - discriminate.
  - repeat constructor; discriminate.
  - exact H.
Defined.

(** The names have to be plain: a directory named "a/b" has the path "/a/b",
    and that path leads nowhere. *)
Lemma path_of_slash_name_not_found :
  get_path 1 (after [CreateDirectory "a/b" "alice"])
  = Some ("/a/b", after [CreateDirectory "a/b" "alice"]) ∧
  change_directory "/a/b" (after [CreateDirectory "a/b" "alice"])
  = Some ((false, "Directory '/a/b' not found"), after [CreateDirectory "a/b" "alice"]).
Proof. split; vm_compute; reflexivity. Qed.
